(** * Babipoly: a shallow embedding of the game engine of
    [simulation/babipoly_sim.py] and the properties its specification
    states about it.

    Python integers are [Z]; seat numbers (the values of
    [range(num_players)]) are [nat]; the ownership dictionary is a [gmap];
    lists indexed by seat are stdpp lists.  The engine mutates one shared
    game object, so every method is a computation in a state-and-exception
    monad over [Game]; a [Player] argument is passed as its seat index
    and read back from the state at each use, which keeps Python's
    aliasing (two names for one player object are one index). *)

From stdpp Require Import gmap list.
From Stdlib Require Import ZArith Lia.

Open Scope Z_scope.

(** ** Game constants *)

Definition STARTING_MONEY : Z := 250000.
Definition GO_REWARD : Z := 10000.
Definition JAIL_BAIL : Z := 5000.
Definition MAX_ROUNDS : Z := 10000.
Definition BOARD_SIZE : Z := 40.
Definition JAIL_POS : Z := 10.

(** The AI ratios are the decimal literals 0.10, 0.15 and 0.40, kept as
    exact fractions.  Python evaluates [int(starting_money * ratio)] on
    binary doubles; [int_ratio] is the exact product truncated toward
    zero, which is the same integer for every starting money below 2^52. *)
Definition BUY_RESERVE_RATIO : Z * Z := (10, 100).
Definition BUILD_RESERVE_RATIO : Z * Z := (15, 100).
Definition BAIL_RICH_RATIO : Z * Z := (40, 100).

Definition int_ratio (x : Z) (r : Z * Z) : Z := Z.quot (x * fst r) (snd r).

(** ** Board data *)

Inductive Group :=
  yellow | red | orange | brown | green | light_blue | dark_blue | purple.

Record GroupInfo := { positions : list Z; house_cost : Z }.

Definition GROUPS (g : Group) : GroupInfo :=
  match g with
  | yellow     => {| positions := [1; 3];       house_cost := 1000 |}
  | red        => {| positions := [6; 8; 9];    house_cost := 2000 |}
  | orange     => {| positions := [13; 15; 16]; house_cost := 3000 |}
  | brown      => {| positions := [18; 19];     house_cost := 4000 |}
  | green      => {| positions := [21; 23; 24]; house_cost := 5000 |}
  | light_blue => {| positions := [26; 27; 29]; house_cost := 6000 |}
  | dark_blue  => {| positions := [31; 33; 34]; house_cost := 7000 |}
  | purple     => {| positions := [37; 39];     house_cost := 10000 |}
  end.

(** Iteration order of [GROUPS.items()]. *)
Definition GROUPS_items : list Group :=
  [yellow; red; orange; brown; green; light_blue; dark_blue; purple].

Definition STATION_POS : list Z := [5; 14; 25; 35].
Definition UTILITY_POS : list Z := [4; 11; 12; 28].
Definition CHANCE_POS : list Z := [7; 17; 36].
Definition COMMUNITY_POS : list Z := [2; 22; 32].

Inductive SquareType :=
  go | property | station | utility | chance | community | tax | jail
  | go_to_jail | free_parking.

Global Instance SquareType_eq_dec : EqDecision SquareType.
Proof. solve_decision. Defined.

(** A square is a tagged record: the fields a kind does not have are
    absent, and reading one is Python's [KeyError].  Display names are
    left out; the engine never reads them. *)
Inductive Square :=
| Sq_plain (t : SquareType)
| Sq_tax (amount : Z)
| Sq_property (group : Group) (price mortgage : Z) (rent : list Z)
| Sq_station (price mortgage : Z) (rent : list Z)
| Sq_utility (price mortgage : Z).

Definition sq_type (sq : Square) : SquareType :=
  match sq with
  | Sq_plain t => t
  | Sq_tax _ => tax
  | Sq_property _ _ _ _ => property
  | Sq_station _ _ _ => station
  | Sq_utility _ _ => utility
  end.

Definition sq_price (sq : Square) : option Z :=
  match sq with
  | Sq_property _ p _ _ | Sq_station p _ _ | Sq_utility p _ => Some p
  | _ => None
  end.

Definition sq_mortgage (sq : Square) : option Z :=
  match sq with
  | Sq_property _ _ m _ | Sq_station _ m _ | Sq_utility _ m => Some m
  | _ => None
  end.

Definition sq_rent (sq : Square) : option (list Z) :=
  match sq with
  | Sq_property _ _ _ r | Sq_station _ _ r => Some r
  | _ => None
  end.

Definition sq_group (sq : Square) : option Group :=
  match sq with Sq_property g _ _ _ => Some g | _ => None end.

Definition sq_amount (sq : Square) : option Z :=
  match sq with Sq_tax a => Some a | _ => None end.

Definition station_rent : list Z := [3000; 6000; 12000; 24000].

Definition BOARD (pos : Z) : option Square :=
  match pos with
  | 0  => Some (Sq_plain go)
  | 2  => Some (Sq_plain community)
  | 7  => Some (Sq_plain chance)
  | 10 => Some (Sq_plain jail)
  | 17 => Some (Sq_plain chance)
  | 20 => Some (Sq_plain free_parking)
  | 22 => Some (Sq_plain community)
  | 30 => Some (Sq_plain go_to_jail)
  | 32 => Some (Sq_plain community)
  | 36 => Some (Sq_plain chance)
  | 38 => Some (Sq_tax 5000)
  | 1  => Some (Sq_property yellow 3000 1000 [1000; 2000; 4000; 6000; 8000; 10000])
  | 3  => Some (Sq_property yellow 3000 1000 [1000; 2000; 4000; 6000; 8000; 10000])
  | 6  => Some (Sq_property red 5000 2000 [1000; 3000; 6000; 9000; 12000; 15000])
  | 8  => Some (Sq_property red 6000 3000 [1000; 3000; 7000; 10000; 14000; 18000])
  | 9  => Some (Sq_property red 5000 2000 [1000; 3000; 6000; 9000; 12000; 15000])
  | 13 => Some (Sq_property orange 7000 3000 [2000; 4000; 8000; 12000; 17000; 23000])
  | 15 => Some (Sq_property orange 8000 4000 [2000; 5000; 9000; 14000; 19000; 26000])
  | 16 => Some (Sq_property orange 5000 2000 [1000; 3000; 6000; 10000; 14000; 19000])
  | 18 => Some (Sq_property brown 9000 4000 [2000; 5000; 10000; 15000; 21000; 28000])
  | 19 => Some (Sq_property brown 10000 5000 [2000; 6000; 11000; 17000; 23000; 31000])
  | 21 => Some (Sq_property green 11000 5000 [2000; 6000; 12000; 17000; 24000; 33000])
  | 23 => Some (Sq_property green 11000 5000 [2000; 6000; 12000; 17000; 24000; 33000])
  | 24 => Some (Sq_property green 12000 6000 [2000; 7000; 13000; 19000; 26000; 36000])
  | 26 => Some (Sq_property light_blue 13000 6000 [2000; 7000; 14000; 21000; 28000; 39000])
  | 27 => Some (Sq_property light_blue 13000 6000 [2000; 7000; 14000; 21000; 28000; 39000])
  | 29 => Some (Sq_property light_blue 14000 7000 [2000; 8000; 15000; 23000; 31000; 43000])
  | 31 => Some (Sq_property dark_blue 5000 2000 [1000; 3000; 6000; 10000; 14000; 19000])
  | 33 => Some (Sq_property dark_blue 15000 7000 [2000; 8000; 16000; 23000; 31000; 43000])
  | 34 => Some (Sq_property dark_blue 16000 8000 [2000; 9000; 17000; 25000; 34000; 46000])
  | 37 => Some (Sq_property purple 17500 9000 [2000; 10000; 18000; 27000; 37000; 50000])
  | 39 => Some (Sq_property purple 20000 10000 [2000; 11000; 21000; 31000; 42000; 58000])
  | 5  => Some (Sq_station 10000 5000 station_rent)
  | 14 => Some (Sq_station 10000 5000 station_rent)
  | 25 => Some (Sq_station 10000 5000 station_rent)
  | 35 => Some (Sq_station 10000 5000 station_rent)
  | 4  => Some (Sq_utility 10000 5000)
  | 11 => Some (Sq_utility 10000 5000)
  | 12 => Some (Sq_utility 7500 4000)
  | 28 => Some (Sq_utility 7500 4000)
  | _ => None
  end.

(** Keys of [BOARD], in any order ([BOARD.items()] is only used to build
    the ownership dictionary). *)
Definition BOARD_keys : list Z := seqZ 0 BOARD_SIZE.

Definition purchasable_type (t : SquareType) : bool :=
  match t with property | station | utility => true | _ => false end.

(** ** Card decks *)

Inductive Card :=
| card_move_to (target : Z)
| card_move_back (n : Z)
| card_nearest_station
| card_go_to_jail
| card_get_out_of_jail
| card_receive (v : Z)
| card_pay (v : Z)
| card_pay_each (v : Z)
| card_receive_from_each (v : Z)
| card_repairs (house_fee hotel_fee : Z).

Definition CHANCE_CARDS : list Card :=
  [ card_move_to 0; card_move_to 39; card_move_to 3; card_move_to 35;
    card_move_to 25; card_nearest_station; card_move_to 5;
    card_receive 2500; card_get_out_of_jail; card_move_back 3;
    card_go_to_jail; card_repairs 1250 5000; card_pay 750;
    card_pay_each 2500; card_receive 7500; card_move_to 21 ].

Definition COMMUNITY_CARDS : list Card :=
  [ card_move_to 0; card_receive 10000; card_pay 2500; card_receive 2500;
    card_get_out_of_jail; card_go_to_jail; card_receive_from_each 500;
    card_receive 1000; card_receive 5000; card_receive 5000;
    card_pay 7500; card_pay 5000; card_receive 500; card_receive 12500;
    card_repairs 2000 5750; card_receive 1250 ].

Global Instance Card_eq_dec : EqDecision Card.
Proof. solve_decision. Defined.

Definition is_jail_card (c : Card) : bool :=
  match c with card_get_out_of_jail => true | _ => false end.

(** ** Player, ownership ledger, statistics, game *)

Record Player := mkPlayer {
  id : nat;
  money : Z;
  position : Z;
  in_jail : bool;
  jail_turns : Z;
  get_out_cards : Z;
  bankrupt : bool;
  properties : list Z;
  consec_doubles : Z
}.

Definition new_player (pid : nat) (starting_money : Z) : Player :=
  {| id := pid; money := starting_money; position := 0; in_jail := false;
     jail_turns := 0; get_out_cards := 0; bankrupt := false;
     properties := []; consec_doubles := 0 |}.

Record Ownership := mkOwnership {
  owner : option nat;
  buildings : Z;
  mortgaged : bool
}.

Global Instance Ownership_eq_dec : EqDecision Ownership.
Proof. solve_decision. Defined.

Record Stats := mkStats {
  rounds : Z;
  turns : Z;
  winner : Z;
  timed_out : bool;
  bankrupt_order : list nat;
  peak_cash : list Z;
  props_bought : list Z;
  rent_paid : list Z;
  rent_received : list Z;
  go_rewards : list Z;
  total_tax_paid : list Z
}.

(** [rng_pos] is not a field of the Python object: it is the state of the
    module-level random generator, the number of values drawn so far. *)
Record Game := mkGame {
  num_players : Z;
  starting_money : Z;
  players : list Player;
  ownership : gmap Z Ownership;
  chance_deck : list Card;
  community_deck : list Card;
  round_count : Z;
  turn_count : Z;
  stats : Stats;
  rng_pos : N
}.

(** Field updates. *)
Definition set_money v (p : Player) : Player :=
  mkPlayer (id p) v (position p) (in_jail p) (jail_turns p) (get_out_cards p)
           (bankrupt p) (properties p) (consec_doubles p).
Definition set_position v (p : Player) : Player :=
  mkPlayer (id p) (money p) v (in_jail p) (jail_turns p) (get_out_cards p)
           (bankrupt p) (properties p) (consec_doubles p).
Definition set_in_jail v (p : Player) : Player :=
  mkPlayer (id p) (money p) (position p) v (jail_turns p) (get_out_cards p)
           (bankrupt p) (properties p) (consec_doubles p).
Definition set_jail_turns v (p : Player) : Player :=
  mkPlayer (id p) (money p) (position p) (in_jail p) v (get_out_cards p)
           (bankrupt p) (properties p) (consec_doubles p).
Definition set_get_out_cards v (p : Player) : Player :=
  mkPlayer (id p) (money p) (position p) (in_jail p) (jail_turns p) v
           (bankrupt p) (properties p) (consec_doubles p).
Definition set_bankrupt v (p : Player) : Player :=
  mkPlayer (id p) (money p) (position p) (in_jail p) (jail_turns p)
           (get_out_cards p) v (properties p) (consec_doubles p).
Definition set_properties v (p : Player) : Player :=
  mkPlayer (id p) (money p) (position p) (in_jail p) (jail_turns p)
           (get_out_cards p) (bankrupt p) v (consec_doubles p).
Definition set_consec_doubles v (p : Player) : Player :=
  mkPlayer (id p) (money p) (position p) (in_jail p) (jail_turns p)
           (get_out_cards p) (bankrupt p) (properties p) v.

Definition set_owner v (o : Ownership) := mkOwnership v (buildings o) (mortgaged o).
Definition set_buildings v (o : Ownership) := mkOwnership (owner o) v (mortgaged o).
Definition set_mortgaged v (o : Ownership) := mkOwnership (owner o) (buildings o) v.

Definition set_rounds v (s : Stats) :=
  mkStats v (turns s) (winner s) (timed_out s) (bankrupt_order s) (peak_cash s)
          (props_bought s) (rent_paid s) (rent_received s) (go_rewards s)
          (total_tax_paid s).
Definition set_turns v (s : Stats) :=
  mkStats (rounds s) v (winner s) (timed_out s) (bankrupt_order s) (peak_cash s)
          (props_bought s) (rent_paid s) (rent_received s) (go_rewards s)
          (total_tax_paid s).
Definition set_winner v (s : Stats) :=
  mkStats (rounds s) (turns s) v (timed_out s) (bankrupt_order s) (peak_cash s)
          (props_bought s) (rent_paid s) (rent_received s) (go_rewards s)
          (total_tax_paid s).
Definition set_timed_out v (s : Stats) :=
  mkStats (rounds s) (turns s) (winner s) v (bankrupt_order s) (peak_cash s)
          (props_bought s) (rent_paid s) (rent_received s) (go_rewards s)
          (total_tax_paid s).
Definition set_bankrupt_order v (s : Stats) :=
  mkStats (rounds s) (turns s) (winner s) (timed_out s) v (peak_cash s)
          (props_bought s) (rent_paid s) (rent_received s) (go_rewards s)
          (total_tax_paid s).
Definition set_peak_cash v (s : Stats) :=
  mkStats (rounds s) (turns s) (winner s) (timed_out s) (bankrupt_order s) v
          (props_bought s) (rent_paid s) (rent_received s) (go_rewards s)
          (total_tax_paid s).
Definition set_props_bought v (s : Stats) :=
  mkStats (rounds s) (turns s) (winner s) (timed_out s) (bankrupt_order s)
          (peak_cash s) v (rent_paid s) (rent_received s) (go_rewards s)
          (total_tax_paid s).
Definition set_rent_paid v (s : Stats) :=
  mkStats (rounds s) (turns s) (winner s) (timed_out s) (bankrupt_order s)
          (peak_cash s) (props_bought s) v (rent_received s) (go_rewards s)
          (total_tax_paid s).
Definition set_rent_received v (s : Stats) :=
  mkStats (rounds s) (turns s) (winner s) (timed_out s) (bankrupt_order s)
          (peak_cash s) (props_bought s) (rent_paid s) v (go_rewards s)
          (total_tax_paid s).
Definition set_go_rewards v (s : Stats) :=
  mkStats (rounds s) (turns s) (winner s) (timed_out s) (bankrupt_order s)
          (peak_cash s) (props_bought s) (rent_paid s) (rent_received s) v
          (total_tax_paid s).
Definition set_total_tax_paid v (s : Stats) :=
  mkStats (rounds s) (turns s) (winner s) (timed_out s) (bankrupt_order s)
          (peak_cash s) (props_bought s) (rent_paid s) (rent_received s)
          (go_rewards s) v.

Definition set_players v (g : Game) :=
  mkGame (num_players g) (starting_money g) v (ownership g) (chance_deck g)
         (community_deck g) (round_count g) (turn_count g) (stats g) (rng_pos g).
Definition set_ownership v (g : Game) :=
  mkGame (num_players g) (starting_money g) (players g) v (chance_deck g)
         (community_deck g) (round_count g) (turn_count g) (stats g) (rng_pos g).
Definition set_chance_deck v (g : Game) :=
  mkGame (num_players g) (starting_money g) (players g) (ownership g) v
         (community_deck g) (round_count g) (turn_count g) (stats g) (rng_pos g).
Definition set_community_deck v (g : Game) :=
  mkGame (num_players g) (starting_money g) (players g) (ownership g)
         (chance_deck g) v (round_count g) (turn_count g) (stats g) (rng_pos g).
Definition set_round_count v (g : Game) :=
  mkGame (num_players g) (starting_money g) (players g) (ownership g)
         (chance_deck g) (community_deck g) v (turn_count g) (stats g) (rng_pos g).
Definition set_turn_count v (g : Game) :=
  mkGame (num_players g) (starting_money g) (players g) (ownership g)
         (chance_deck g) (community_deck g) (round_count g) v (stats g) (rng_pos g).
Definition set_stats v (g : Game) :=
  mkGame (num_players g) (starting_money g) (players g) (ownership g)
         (chance_deck g) (community_deck g) (round_count g) (turn_count g) v
         (rng_pos g).
Definition set_rng_pos v (g : Game) :=
  mkGame (num_players g) (starting_money g) (players g) (ownership g)
         (chance_deck g) (community_deck g) (round_count g) (turn_count g)
         (stats g) v.

(** ** The state-and-exception monad of the engine *)

Inductive exn := KeyError | IndexError | ValueError.

(** [OutOfFuel] is not a Python outcome: it marks a loop or a recursion of
    the model that was cut by its bound.  The totality lemmas below show it
    is never produced from a well-formed game. *)
Inductive result (A : Type) :=
| Ok (a : A)
| Raise (e : exn)
| OutOfFuel.
Arguments Ok {A} a.
Arguments Raise {A} e.
Arguments OutOfFuel {A}.

Definition M (A : Type) : Type := Game → result (A * Game).

Definition ret {A} (a : A) : M A := λ g, Ok (a, g).

Definition bind {A B} (m : M A) (f : A → M B) : M B :=
  λ g, match m g with
       | Ok (a, g') => f a g'
       | Raise e => Raise e
       | OutOfFuel => OutOfFuel
       end.

Notation "'let*' x := c1 'in' c2" := (bind c1 (λ x, c2))
  (at level 10, x name, c1 at level 100, c2 at level 200).
Notation "'let*' ' pat := c1 'in' c2" := (bind c1 (λ x, match x with pat => c2 end))
  (at level 10, pat pattern, c1 at level 100, c2 at level 200).
Notation "c1 ;; c2" := (bind c1 (λ _, c2))
  (at level 100, c2 at level 200, right associativity).

Definition get_game : M Game := λ g, Ok (g, g).
Definition modify (f : Game → Game) : M unit := λ g, Ok (tt, f g).
Definition raise {A} (e : exn) : M A := λ _, Raise e.
Definition out_of_fuel {A} : M A := λ _, OutOfFuel.

Definition lift {A} (e : exn) (o : option A) : M A :=
  match o with Some a => ret a | None => raise e end.

(** [self.players[i]] and the attribute writes on that object. *)
Definition player (i : nat) : M Player :=
  λ g, lift IndexError (players g !! i) g.
Definition upd_player (i : nat) (f : Player → Player) : M unit :=
  modify (λ g, set_players (alter f i (players g)) g).

(** [self.ownership[pos]] and the item writes on that record. *)
Definition own (pos : Z) : M Ownership :=
  λ g, lift KeyError (ownership g !! pos) g.
Definition upd_own (pos : Z) (f : Ownership → Ownership) : M unit :=
  modify (λ g, set_ownership (alter f pos (ownership g)) g).

Definition board (pos : Z) : M Square := lift KeyError (BOARD pos).

(** [self.stats[key][pid] += d] and [self.stats[key][pid] = v]. *)
Definition stat_get (field : Stats → list Z) (pid : nat) : M Z :=
  λ g, lift IndexError (field (stats g) !! pid) g.
Definition stat_set (field : Stats → list Z) (set : list Z → Stats → Stats)
    (pid : nat) (v : Z) : M unit :=
  stat_get field pid ;;
  modify (λ g, set_stats (set (<[pid := v]> (field (stats g))) (stats g)) g).
Definition stat_add (field : Stats → list Z) (set : list Z → Stats → Stats)
    (pid : nat) (d : Z) : M unit :=
  let* v := stat_get field pid in
  stat_set field set pid (v + d).

(** Python list indexing by an integer: negative indices count from the
    end, anything else out of range is an [IndexError]. *)
Definition py_index {A} (l : list A) (i : Z) : option A :=
  if 0 <=? i then l !! Z.to_nat i
  else if 0 <=? Z.of_nat (length l) + i then l !! Z.to_nat (Z.of_nat (length l) + i)
  else None.

(** ** The random source

    The generator is an arbitrary stream of numbers; [randbelow n] takes
    the next one modulo [n].  [shuffle] is the Fisher-Yates loop of
    [random.shuffle]; [randint] is [random.randint]. *)

Definition swap {A} (x : list A) (i j : nat) : list A :=
  match x !! i, x !! j with
  | Some a, Some b => <[j := a]> (<[i := b]> x)
  | _, _ => x
  end.

Section Engine.

Variable rand : N → N.

Definition randbelow (n : Z) (pos : N) : Z * N :=
  (Z.of_N (rand pos) mod n, (pos + 1)%N).

Fixpoint shuffle_from {A} (i : nat) (x : list A) (pos : N) : list A * N :=
  match i with
  | O => (x, pos)
  | S k =>
      let '(j, pos') := randbelow (Z.of_nat i + 1) pos in
      shuffle_from k (swap x i (Z.to_nat j)) pos'
  end.

Definition shuffle {A} (x : list A) (pos : N) : list A * N :=
  shuffle_from (length x - 1) x pos.

Definition randint (a b : Z) : M Z :=
  λ g, let '(r, pos') := randbelow (b - a + 1) (rng_pos g) in
       Ok (a + r, set_rng_pos pos' g).

(** ** Decks *)

Definition _make_deck (cards : list Card) (pos : N) : list Card * N :=
  let normal := filter (λ c, is_jail_card c = false) cards in
  let jail_cards := filter (λ c, is_jail_card c = true) cards in
  let '(normal', pos') := shuffle normal pos in
  (normal' ++ jail_cards, pos').

Definition _draw_chance : M Card :=
  let* g := get_game in
  (if decide (chance_deck g = [])
   then modify (λ g, let '(d, pos') := _make_deck CHANCE_CARDS (rng_pos g) in
                     set_rng_pos pos' (set_chance_deck d g))
   else ret tt) ;;
  let* g := get_game in
  match chance_deck g with
  | c :: rest => modify (set_chance_deck rest) ;; ret c
  | [] => raise IndexError
  end.

Definition _draw_community : M Card :=
  let* g := get_game in
  (if decide (community_deck g = [])
   then modify (λ g, let '(d, pos') := _make_deck COMMUNITY_CARDS (rng_pos g) in
                     set_rng_pos pos' (set_community_deck d g))
   else ret tt) ;;
  let* g := get_game in
  match community_deck g with
  | c :: rest => modify (set_community_deck rest) ;; ret c
  | [] => raise IndexError
  end.

(** ** Dice *)

Definition roll : M (Z * Z) :=
  let* d1 := randint 1 6 in
  let* d2 := randint 1 6 in
  ret (d1, d2).

(** ** Money *)

Inductive Source := src_bank | src_go.

Definition update_peak (i : nat) : M unit :=
  let* p := player i in
  let* peak := stat_get peak_cash (id p) in
  if peak <? money p then stat_set peak_cash set_peak_cash (id p) (money p)
  else ret tt.

Definition _credit (i : nat) (amount : Z) (source : Source) : M unit :=
  upd_player i (λ p, set_money (money p + amount) p) ;;
  let* p := player i in
  let pid := id p in
  (match source with
   | src_go => stat_add go_rewards set_go_rewards pid amount
   | src_bank => ret tt
   end) ;;
  update_peak i.

(** ** Movement *)

Definition _move_steps (i : nat) (steps : Z) : M unit :=
  let* p := player i in
  let old := position p in
  let new := (old + steps) mod BOARD_SIZE in
  (if (new <? old) || ((new =? 0) && (0 <? steps))
   then if negb (new =? 0) then _credit i GO_REWARD src_go else ret tt
   else ret tt) ;;
  upd_player i (set_position new).

Definition _move_to (i : nat) (target : Z) : M unit :=
  let* p := player i in
  (if target <? position p then _credit i GO_REWARD src_go else ret tt) ;;
  upd_player i (set_position target).

Definition _send_to_jail (i : nat) : M unit :=
  upd_player i (set_position JAIL_POS) ;;
  upd_player i (set_in_jail true) ;;
  upd_player i (set_jail_turns 0) ;;
  upd_player i (set_consec_doubles 0).

(** ** Liquidation and bankruptcy *)

(** First loop of [_raise_funds]: sell buildings. *)
Fixpoint sell_buildings (i : nat) (needed : Z) (props : list Z) : M unit :=
  match props with
  | [] => ret tt
  | pos :: rest =>
      let* p := player i in
      if needed <=? money p then ret tt
      else
        let* sq := board pos in
        let* ow := own pos in
        (match sq with
         | Sq_property grp _ _ _ =>
             if 0 <? buildings ow then
               let hc := house_cost (GROUPS grp) in
               let refund := (buildings ow * hc) `div` 2 in
               upd_player i (λ p, set_money (money p + refund) p) ;;
               upd_own pos (set_buildings 0)
             else ret tt
         | _ => ret tt
         end) ;;
        sell_buildings i needed rest
  end.

(** Second loop of [_raise_funds]: mortgage what carries no building. *)
Fixpoint mortgage_properties (i : nat) (needed : Z) (props : list Z) : M unit :=
  match props with
  | [] => ret tt
  | pos :: rest =>
      let* p := player i in
      if needed <=? money p then ret tt
      else
        let* sq := board pos in
        let* ow := own pos in
        (if negb (mortgaged ow) && (buildings ow =? 0) then
           let* m := lift KeyError (sq_mortgage sq) in
           upd_player i (λ p, set_money (money p + m) p) ;;
           upd_own pos (set_mortgaged true)
         else ret tt) ;;
        mortgage_properties i needed rest
  end.

Definition _raise_funds (i : nat) (needed : Z) : M unit :=
  let* p := player i in
  sell_buildings i needed (properties p) ;;
  let* p := player i in
  mortgage_properties i needed (properties p).

(** Loop of [_bankrupt] when a solvent creditor takes the squares over. *)
Fixpoint transfer_properties (c : nat) (props : list Z) : M unit :=
  match props with
  | [] => ret tt
  | pos :: rest =>
      own pos ;;
      upd_own pos (set_mortgaged true) ;;
      let* cp := player c in
      upd_own pos (set_owner (Some (id cp))) ;;
      upd_player c (λ q, set_properties (properties q ++ [pos]) q) ;;
      transfer_properties c rest
  end.

(** Loop of [_bankrupt] when the squares go back to the bank. *)
Fixpoint release_properties (props : list Z) : M unit :=
  match props with
  | [] => ret tt
  | pos :: rest =>
      own pos ;;
      upd_own pos (set_owner None) ;;
      upd_own pos (set_buildings 0) ;;
      upd_own pos (set_mortgaged false) ;;
      release_properties rest
  end.

(** [creditor and not creditor.bankrupt]: a player object is always
    truthy, so the test is on [None] and on the flag. *)
Definition solvent_creditor (creditor : option nat) : M (option nat) :=
  match creditor with
  | None => ret None
  | Some c =>
      let* cp := player c in
      if negb (bankrupt cp) then ret (Some c) else ret None
  end.

(** The loop over [player.properties] reads the list of the player going
    bankrupt while appending to the creditor's.  These are two objects:
    a creditor that is the player itself is caught by the flag set on the
    first line, so the list read once is the list the loop sees. *)
Definition _bankrupt (i : nat) (creditor : option nat) : M unit :=
  upd_player i (set_bankrupt true) ;;
  let* p := player i in
  modify (λ g, set_stats (set_bankrupt_order (bankrupt_order (stats g) ++ [id p]) (stats g)) g) ;;
  let* sc := solvent_creditor creditor in
  (match sc with
   | Some c =>
       upd_player c (λ q, set_money (money q + money p) q) ;;
       transfer_properties c (properties p)
   | None => release_properties (properties p)
   end) ;;
  upd_player i (set_properties []) ;;
  upd_player i (set_money 0).

Definition _charge (i : nat) (amount : Z) (creditor : option nat) : M bool :=
  let* p := player i in
  (if money p <? amount then _raise_funds i amount else ret tt) ;;
  let* p := player i in
  if amount <=? money p then
    upd_player i (λ p, set_money (money p - amount) p) ;;
    let* sc := solvent_creditor creditor in
    (match sc with
     | Some c =>
         let* cp := player c in
         stat_add rent_received set_rent_received (id cp) amount ;;
         upd_player c (λ q, set_money (money q + amount) q) ;;
         update_peak c
     | None => ret tt
     end) ;;
    ret true
  else
    _bankrupt i creditor ;;
    ret false.

(** ** Ownership helpers *)

Definition owned_unmortgaged (pid : nat) (ow : Ownership) : bool :=
  bool_decide (owner ow = Some pid) && negb (mortgaged ow).

(** [all(...)] stops at the first square that fails the test. *)
Fixpoint all_owned (pid : nat) (ps : list Z) : M bool :=
  match ps with
  | [] => ret true
  | p :: rest =>
      let* ow := own p in
      if owned_unmortgaged pid ow then all_owned pid rest else ret false
  end.

Definition _owns_group (i : nat) (grp : Group) : M bool :=
  let* p := player i in
  all_owned (id p) (positions (GROUPS grp)).

(** [sum(1 for p in ps if ...)]. *)
Fixpoint count_owned (pid : nat) (ps : list Z) : M Z :=
  match ps with
  | [] => ret 0
  | p :: rest =>
      let* ow := own p in
      let* n := count_owned pid rest in
      ret ((if owned_unmortgaged pid ow then 1 else 0) + n)
  end.

Definition _stations_owned (i : nat) : M Z :=
  let* p := player i in count_owned (id p) STATION_POS.

Definition _utilities_owned (i : nat) : M Z :=
  let* p := player i in count_owned (id p) UTILITY_POS.

(** ** Rent *)

Definition _rent (pos : Z) (dice : Z) (double_station : bool) : M Z :=
  let* sq := board pos in
  let* ow := own pos in
  match owner ow with
  | None => ret 0
  | Some o =>
      if mortgaged ow then ret 0
      else
        player o ;;
        match sq with
        | Sq_property grp _ _ rents =>
            let b := buildings ow in
            let* rent := lift IndexError (py_index rents b) in
            if b =? 0 then
              let* full := _owns_group o grp in
              ret (if full then rent * 2 else rent)
            else ret rent
        | Sq_station _ _ rents =>
            let* count := _stations_owned o in
            let mult := if double_station then 2 else 1 in
            let* r := lift IndexError (py_index rents (count - 1)) in
            ret (r * mult)
        | Sq_utility _ _ =>
            let* count := _utilities_owned o in
            let mult := if 2 <=? count then 10 else 4 in
            ret (dice * mult)
        | _ => ret 0
        end
  end.

(** ** AI: building *)

(** [min(...)] of a generator: [ValueError] on an empty one. *)
Definition py_min (l : list Z) : option Z :=
  match l with
  | [] => None
  | x :: rest => Some (foldl Z.min x rest)
  end.

Fixpoint buildings_of (ps : list Z) : M (list Z) :=
  match ps with
  | [] => ret []
  | p :: rest =>
      let* ow := own p in
      let* bs := buildings_of rest in
      ret (buildings ow :: bs)
  end.

(** The [for pos in positions] loop of [_try_build]; the result is the
    value of [improved] when the loop is left. *)
Fixpoint build_pass (i : nat) (hc reserve min_b : Z) (ps : list Z)
    (improved : bool) : M bool :=
  match ps with
  | [] => ret improved
  | pos :: rest =>
      let* ow := own pos in
      if (buildings ow =? min_b) && (buildings ow <? 5) then
        let* p := player i in
        if reserve <=? money p - hc then
          upd_player i (λ p, set_money (money p - hc) p) ;;
          upd_own pos (λ o, set_buildings (buildings o + 1) o) ;;
          build_pass i hc reserve min_b rest true
        else ret false
      else build_pass i hc reserve min_b rest improved
  end.

(** The [while improved] loop. *)
Fixpoint build_while (fuel : nat) (i : nat) (hc reserve : Z) (ps : list Z)
    : M unit :=
  match fuel with
  | O => out_of_fuel
  | S n =>
      let* bs := buildings_of ps in
      let* min_b := lift ValueError (py_min bs) in
      if 5 <=? min_b then ret tt
      else
        let* improved := build_pass i hc reserve min_b ps false in
        if improved then build_while n i hc reserve ps else ret tt
  end.

Definition build_fuel : nat := 6.

Fixpoint build_groups (i : nat) (reserve : Z) (groups : list Group) : M unit :=
  match groups with
  | [] => ret tt
  | grp :: rest =>
      let* full := _owns_group i grp in
      (if full then
         build_while build_fuel i (house_cost (GROUPS grp)) reserve
                     (positions (GROUPS grp))
       else ret tt) ;;
      build_groups i reserve rest
  end.

Definition _try_build (i : nat) : M unit :=
  let* g := get_game in
  let reserve := int_ratio (starting_money g) BUILD_RESERVE_RATIO in
  build_groups i reserve GROUPS_items.

(** ** AI: buying *)

Definition _should_buy (i : nat) (price : Z) : M bool :=
  let* g := get_game in
  let reserve := int_ratio (starting_money g) BUY_RESERVE_RATIO in
  let* p := player i in
  ret (reserve <=? money p - price).

(** ** Cards *)

(** Seats of [active_others]: the players that are not bankrupt and whose
    id differs from the acting player's. *)
Definition is_active_other (g : Game) (p : Player) (j : nat) : bool :=
  match players g !! j with
  | Some q => negb (bankrupt q) && negb (id q =? id p)%nat
  | None => false
  end.

Definition active_others (i : nat) : M (list nat) :=
  let* p := player i in
  let* g := get_game in
  ret (filter (λ j, is_active_other g p j = true) (seq 0 (length (players g)))).

Fixpoint pay_each_loop (i : nat) (value : Z) (others : list nat) : M unit :=
  match others with
  | [] => ret tt
  | o :: rest =>
      let* p := player i in
      if bankrupt p then ret tt
      else
        let amt := Z.min value (money p) in
        upd_player i (λ p, set_money (money p - amt) p) ;;
        upd_player o (λ q, set_money (money q + amt) q) ;;
        pay_each_loop i value rest
  end.

Fixpoint receive_from_each_loop (i : nat) (value : Z) (others : list nat)
    : M unit :=
  match others with
  | [] => ret tt
  | o :: rest =>
      let* q := player o in
      let give := Z.min value (money q) in
      upd_player o (λ q, set_money (money q - give) q) ;;
      upd_player i (λ p, set_money (money p + give) p) ;;
      receive_from_each_loop i value rest
  end.

Fixpoint repairs_total (house_fee hotel_fee : Z) (props : list Z) (total : Z)
    : M Z :=
  match props with
  | [] => ret total
  | pos :: rest =>
      let* ow := own pos in
      let b := buildings ow in
      let total' :=
        match BOARD pos with
        | Some (Sq_property _ _ _ _) =>
            total + (if b =? 5 then hotel_fee else b * house_fee)
        | _ => total
        end in
      repairs_total house_fee hotel_fee rest total'
  end.

(** [min(l, key=...)]: the first element with the least key. *)
Definition min_by {A} (key : A → Z) (l : list A) : option A :=
  match l with
  | [] => None
  | x :: rest =>
      Some (foldl (λ best y, if key y <? key best then y else best) x rest)
  end.

Definition nearest_station_from (pos : Z) : option Z :=
  min_by (λ s, (s - pos) mod BOARD_SIZE) STATION_POS.

(** [_apply_card] and [_apply_square] call each other: each is written
    over the other as an argument, and the knot is tied below by recursion
    on a depth bound. *)
Definition apply_card_with (apply_square : nat → Z → M unit)
    (i : nat) (card : Card) (dice : Z) : M unit :=
  let* others := active_others i in
  match card with
  | card_move_to value =>
      _move_to i value ;;
      let* p := player i in
      if negb (bankrupt p) then apply_square i dice else ret tt
  | card_move_back value =>
      let* p := player i in
      let new_pos := (position p - value) mod BOARD_SIZE in
      upd_player i (set_position new_pos) ;;
      let* p := player i in
      if negb (bankrupt p) then apply_square i dice else ret tt
  | card_nearest_station =>
      let* p := player i in
      let* nearest := lift ValueError (nearest_station_from (position p)) in
      _move_to i nearest ;;
      let* ow := own nearest in
      let* p := player i in
      match owner ow with
      | Some o =>
          if bool_decide (o ≠ id p) && negb (mortgaged ow) then
            player o ;;
            let* rent := _rent nearest dice true in
            if negb (rent =? 0) then
              stat_add rent_paid set_rent_paid (id p) rent ;;
              _charge i rent (Some o) ;;
              ret tt
            else ret tt
          else ret tt
      | None => ret tt
      end
  | card_go_to_jail => _send_to_jail i
  | card_get_out_of_jail =>
      upd_player i (λ p, set_get_out_cards (get_out_cards p + 1) p)
  | card_receive value => _credit i value src_bank
  | card_pay value =>
      let* p := player i in
      stat_add total_tax_paid set_total_tax_paid (id p) value ;;
      _charge i value None ;;
      ret tt
  | card_pay_each value => pay_each_loop i value others
  | card_receive_from_each value => receive_from_each_loop i value others
  | card_repairs house_fee hotel_fee =>
      let* p := player i in
      let* total := repairs_total house_fee hotel_fee (properties p) 0 in
      if 0 <? total then
        stat_add total_tax_paid set_total_tax_paid (id p) total ;;
        _charge i total None ;;
        ret tt
      else ret tt
  end.

(** ** Squares *)

(** The body of [_apply_square]; [resolve_card draw] stands for drawing
    from a deck and applying the card. *)
Definition apply_square_with (resolve_card : M Card → nat → Z → M unit)
    (i : nat) (dice : Z) : M unit :=
  let* p := player i in
  if bankrupt p then ret tt
  else
    let pos := position p in
    match BOARD pos with
    | None => ret tt
    | Some sq =>
        match sq_type sq with
        | go => _credit i GO_REWARD src_go
        | go_to_jail => _send_to_jail i
        | tax =>
            let* amount := lift KeyError (sq_amount sq) in
            stat_add total_tax_paid set_total_tax_paid (id p) amount ;;
            _charge i amount None ;;
            ret tt
        | chance => resolve_card _draw_chance i dice
        | community => resolve_card _draw_community i dice
        | property | station | utility =>
            let* ow := own pos in
            match owner ow with
            | None =>
                let* price := lift KeyError (sq_price sq) in
                let* buy := _should_buy i price in
                if buy then
                  upd_player i (λ p, set_money (money p - price) p) ;;
                  upd_own pos (set_owner (Some (id p))) ;;
                  upd_player i (λ p, set_properties (properties p ++ [pos]) p) ;;
                  stat_add props_bought set_props_bought (id p) 1
                else ret tt
            | Some o =>
                if bool_decide (o ≠ id p) && negb (mortgaged ow) then
                  let* op := player o in
                  if negb (bankrupt op) then
                    let* rent := _rent pos dice false in
                    if 0 <? rent then
                      stat_add rent_paid set_rent_paid (id p) rent ;;
                      _charge i rent (Some o) ;;
                      ret tt
                    else ret tt
                  else ret tt
                else ret tt
            end
        | jail | free_parking => ret tt
        end
    end.

(** [_apply_square], recursive through [_apply_card] on a depth bound. *)
Fixpoint _apply_square (depth : nat) (i : nat) (dice : Z) : M unit :=
  apply_square_with
    (λ draw i dice,
       match depth with
       | O => out_of_fuel
       | S d =>
           let* card := draw in
           apply_card_with (_apply_square d) i card dice
       end)
    i dice.

Definition _apply_card (depth : nat) : nat → Card → Z → M unit :=
  apply_card_with (_apply_square depth).

(** Bound on the nesting of square and card resolution given to the
    top-level call. *)
Definition resolve_depth : nat := 2.

(** ** Jail *)

Definition leave_jail (i : nat) : M unit :=
  upd_player i (set_in_jail false) ;;
  upd_player i (set_jail_turns 0).

Definition _jail_turn (i : nat) : M (option (Z * Z)) :=
  upd_player i (λ p, set_jail_turns (jail_turns p + 1) p) ;;
  let* p := player i in
  if 0 <? get_out_cards p then
    upd_player i (λ p, set_get_out_cards (get_out_cards p - 1) p) ;;
    leave_jail i ;;
    let* d := roll in ret (Some d)
  else
    let* g := get_game in
    let bail_threshold := int_ratio (starting_money g) BAIL_RICH_RATIO in
    if ((3 <=? jail_turns p) || (bail_threshold <? money p))
       && (JAIL_BAIL <=? money p) then
      upd_player i (λ p, set_money (money p - JAIL_BAIL) p) ;;
      leave_jail i ;;
      let* d := roll in ret (Some d)
    else
      let* '(d1, d2) := roll in
      if d1 =? d2 then
        leave_jail i ;;
        ret (Some (d1, d2))
      else ret None.

(** ** One player's turn *)

(** The [while True] loop of [_play_turn]. *)
Fixpoint turn_loop (fuel : nat) (i : nat) : M unit :=
  match fuel with
  | O => out_of_fuel
  | S n =>
      let* p := player i in
      let* result :=
        (if in_jail p then _jail_turn i
         else let* d := roll in ret (Some d)) in
      match result with
      | None => ret tt
      | Some (d1, d2) =>
          let dice := d1 + d2 in
          let double := d1 =? d2 in
          let* p := player i in
          let* third_double :=
            (if double && negb (in_jail p) then
               upd_player i (λ p, set_consec_doubles (consec_doubles p + 1) p) ;;
               let* p := player i in
               if consec_doubles p =? 3 then _send_to_jail i ;; ret true
               else ret false
             else ret false) in
          if (third_double : bool) then ret tt
          else
            let* p := player i in
            (if negb (in_jail p) then _move_steps i dice else ret tt) ;;
            _apply_square resolve_depth i dice ;;
            let* p := player i in
            if bankrupt p then ret tt
            else
              _try_build i ;;
              let* p := player i in
              if negb double || in_jail p then ret tt
              else turn_loop n i
      end
  end.

Definition turn_fuel : nat := 3.

Definition _play_turn (i : nat) : M unit :=
  let* p := player i in
  if bankrupt p then ret tt
  else
    upd_player i (set_consec_doubles 0) ;;
    turn_loop turn_fuel i ;;
    modify (λ g, set_turn_count (turn_count g + 1) g).

(** ** Net worth *)

Fixpoint net_worth_loop (props : list Z) (worth : Z) : M Z :=
  match props with
  | [] => ret worth
  | pos :: rest =>
      let* ow := own pos in
      let* sq := board pos in
      let* worth' :=
        (if mortgaged ow then
           let* m := lift KeyError (sq_mortgage sq) in ret (worth + m)
         else
           let* price := lift KeyError (sq_price sq) in
           let b := buildings ow in
           match sq with
           | Sq_property grp _ _ _ =>
               if 0 <? b then
                 ret (worth + price + (b * house_cost (GROUPS grp)) `div` 2)
               else ret (worth + price)
           | _ => ret (worth + price)
           end) in
      net_worth_loop rest worth'
  end.

Definition net_worth (i : nat) : M Z :=
  let* p := player i in
  net_worth_loop (properties p) (money p).

(** ** The game loop *)

(** [for player in self.players: if not player.bankrupt: ...]. *)
Fixpoint play_round (seats : list nat) : M unit :=
  match seats with
  | [] => ret tt
  | i :: rest =>
      let* p := player i in
      (if negb (bankrupt p) then _play_turn i else ret tt) ;;
      play_round rest
  end.

Definition is_active (g : Game) (j : nat) : bool :=
  match players g !! j with
  | Some q => negb (bankrupt q)
  | None => false
  end.

Definition active_seats (g : Game) : list nat :=
  filter (λ j, is_active g j = true) (seq 0 (length (players g))).

(** [max(active, key=...)]: the first seat with the greatest net worth. *)
Fixpoint max_net_worth (best : nat) (best_worth : Z) (l : list nat) : M nat :=
  match l with
  | [] => ret best
  | j :: rest =>
      let* w := net_worth j in
      if best_worth <? w then max_net_worth j w rest
      else max_net_worth best best_worth rest
  end.

Definition set_winner_stat (w : Z) : M unit :=
  modify (λ g, set_stats (set_winner w (stats g)) g).

(** The [while True] loop of [run]. *)
Fixpoint run_loop (fuel : nat) : M unit :=
  match fuel with
  | O => out_of_fuel
  | S n =>
      modify (λ g, set_round_count (round_count g + 1) g) ;;
      let* g := get_game in
      play_round (seq 0 (length (players g))) ;;
      let* g := get_game in
      let active := active_seats g in
      if (length active <=? 1)%nat then
        match active with
        | a :: _ => let* p := player a in set_winner_stat (Z.of_nat (id p))
        | [] => set_winner_stat (-1)
        end
      else if MAX_ROUNDS <=? round_count g then
        match active with
        | a :: rest =>
            let* w := net_worth a in
            let* best := max_net_worth a w rest in
            let* p := player best in
            set_winner_stat (Z.of_nat (id p)) ;;
            modify (λ g, set_stats (set_timed_out true (stats g)) g)
        | [] => raise ValueError
        end
      else run_loop n
  end.

Definition run : M Stats :=
  run_loop (Z.to_nat MAX_ROUNDS) ;;
  modify (λ g, set_stats (set_rounds (round_count g) (stats g)) g) ;;
  modify (λ g, set_stats (set_turns (turn_count g) (stats g)) g) ;;
  let* g := get_game in
  ret (stats g).

(** ** Construction *)

Definition initial_ownership : gmap Z Ownership :=
  list_to_map
    (omap (λ pos, match BOARD pos with
                  | Some sq =>
                      if purchasable_type (sq_type sq)
                      then Some (pos, mkOwnership None 0 false)
                      else None
                  | None => None
                  end)
          BOARD_keys).

Definition initial_stats (n : nat) : Stats :=
  {| rounds := 0; turns := 0; winner := -1; timed_out := false;
     bankrupt_order := [];
     peak_cash := replicate n 0; props_bought := replicate n 0;
     rent_paid := replicate n 0; rent_received := replicate n 0;
     go_rewards := replicate n 0; total_tax_paid := replicate n 0 |}.

(** [BabopolyGame(num_players, starting_money)], started with the random
    generator at [pos].  [range(n)] and [[0] * n] are empty for [n <= 0];
    nothing is validated, so the constructor has no failing outcome. *)
Definition __init__ (num_players starting_money : Z) (pos : N) : result Game :=
  let n := Z.to_nat num_players in
  let '(deck1, pos1) := _make_deck CHANCE_CARDS pos in
  let '(deck2, pos2) := _make_deck COMMUNITY_CARDS pos1 in
  Ok {| num_players := num_players;
        starting_money := starting_money;
        players := (λ i, new_player i starting_money) <$> seq 0 n;
        ownership := initial_ownership;
        chance_deck := deck1;
        community_deck := deck2;
        round_count := 0;
        turn_count := 0;
        stats := initial_stats n;
        rng_pos := pos2 |}.

End Engine.


(** ** The simulation runner *)

(** The dictionary [res] of [run_simulations]. *)
Record SimResult := mkSimResult {
  res_num_players : Z;
  res_num_games : Z;
  res_starting_money : Z;
  res_rounds : list Z;
  res_turns : list Z;
  res_winners : list Z;
  res_timed_out : Z;
  res_props_bought : list (list Z);
  res_rent_paid : list (list Z);
  res_rent_received : list (list Z);
  res_go_rewards : list (list Z);
  res_peak_cash : list (list Z);
  res_tax_paid : list (list Z)
}.

Definition new_result (num_players num_games starting_money : Z) : SimResult :=
  let empty := replicate (Z.to_nat num_players) [] in
  {| res_num_players := num_players; res_num_games := num_games;
     res_starting_money := starting_money;
     res_rounds := []; res_turns := []; res_winners := []; res_timed_out := 0;
     res_props_bought := empty; res_rent_paid := empty;
     res_rent_received := empty; res_go_rewards := empty;
     res_peak_cash := empty; res_tax_paid := empty |}.

(** [table[pid].append(values[pid])]: [None] stands for the [IndexError]
    of either index. *)
Definition append_stat (table : list (list Z)) (values : list Z) (pid : nat)
    : option (list (list Z)) :=
  match table !! pid, values !! pid with
  | Some row, Some v => Some (<[pid := row ++ [v]]> table)
  | _, _ => None
  end.

(** The body of the loop over [range(num_players)]. *)
Definition record_player (s : Stats) (res : SimResult) (pid : nat)
    : option SimResult :=
  match append_stat (res_props_bought res) (props_bought s) pid,
        append_stat (res_rent_paid res) (rent_paid s) pid,
        append_stat (res_rent_received res) (rent_received s) pid,
        append_stat (res_go_rewards res) (go_rewards s) pid,
        append_stat (res_peak_cash res) (peak_cash s) pid,
        append_stat (res_tax_paid res) (total_tax_paid s) pid with
  | Some pb, Some rp, Some rr, Some gr, Some pc, Some tp =>
      Some (mkSimResult (res_num_players res) (res_num_games res)
              (res_starting_money res) (res_rounds res) (res_turns res)
              (res_winners res) (res_timed_out res) pb rp rr gr pc tp)
  | _, _, _, _, _, _ => None
  end.

Fixpoint record_players (s : Stats) (res : SimResult) (pids : list nat)
    : option SimResult :=
  match pids with
  | [] => Some res
  | pid :: rest =>
      match record_player s res pid with
      | Some res' => record_players s res' rest
      | None => None
      end
  end.

(** The per-game entries: rounds, turns, winner and the time-out count. *)
Definition record_game (s : Stats) (res : SimResult) : SimResult :=
  mkSimResult (res_num_players res) (res_num_games res)
    (res_starting_money res)
    (res_rounds res ++ [rounds s]) (res_turns res ++ [turns s])
    (res_winners res ++ [winner s])
    (if timed_out s then res_timed_out res + 1 else res_timed_out res)
    (res_props_bought res) (res_rent_paid res) (res_rent_received res)
    (res_go_rewards res) (res_peak_cash res) (res_tax_paid res).

Section Runner.

Variable rand : N → N.

(** The loop over [range(num_games)], [k] games to go.  Each game is
    constructed and run from where the previous one left the random
    generator. *)
Fixpoint sim_loop (k : nat) (num_players starting_money : Z)
    (res : SimResult) (pos : N) : result (SimResult * N) :=
  match k with
  | O => Ok (res, pos)
  | S k' =>
      match __init__ rand num_players starting_money pos with
      | Ok game =>
          match run rand game with
          | Ok (s, game') =>
              match record_players s (record_game s res)
                      (seq 0 (Z.to_nat num_players)) with
              | Some res' =>
                  sim_loop k' num_players starting_money res' (rng_pos game')
              | None => Raise IndexError
              end
          | Raise e => Raise e
          | OutOfFuel => OutOfFuel
          end
      | Raise e => Raise e
      | OutOfFuel => OutOfFuel
      end
  end.

Definition run_simulations (num_players num_games starting_money : Z)
    (pos : N) : result (SimResult * N) :=
  sim_loop (Z.to_nat num_games) num_players starting_money
           (new_result num_players num_games starting_money) pos.

End Runner.
(** * Reasoning about engine computations

    [wp m Q g]: run from [g], the computation [m] returns normally (no
    exception, no exhausted bound) with a value and a state that satisfy
    [Q]. *)

Definition wp {A} (m : M A) (Q : A → Game → Prop) (g : Game) : Prop :=
  match m g with
  | Ok (a, g') => Q a g'
  | _ => False
  end.


(** ** Deck cycles

    [cycle_rest cards d]: the deck [d] is what is left of one shuffle
    cycle, a shuffle of the ordinary cards of [cards] followed by its
    "get out of jail" cards. *)

Definition normal_cards (cards : list Card) : list Card :=
  filter (λ c, is_jail_card c = false) cards.

Definition jail_cards (cards : list Card) : list Card :=
  filter (λ c, is_jail_card c = true) cards.

Definition cycle_rest (cards d : list Card) : Prop :=
  ∃ sh k, sh ≡ₚ normal_cards cards ∧ d = drop k (sh ++ jail_cards cards).

(** One draw that found the deck [prev], returned [c] and left [d]: the
    card is the head of [prev], or of a rebuilt deck when [prev] was
    empty; and if [c] is a "get out of jail" card, no ordinary card of the
    cycle is left to draw. *)
Definition draw_ok (cards prev : list Card) (c : Card) (d : list Card) : Prop :=
  match prev with
  | c0 :: rest => c = c0 ∧ d = rest
  | [] => ∃ sh, sh ≡ₚ normal_cards cards ∧ sh ++ jail_cards cards = c :: d
  end
  ∧ (is_jail_card c = true → Forall (λ c', is_jail_card c' = true) d).

Fixpoint trace_ok (cards prev : list Card) (t : list (Card * list Card)) : Prop :=
  match t with
  | [] => True
  | (c, d) :: t' => draw_ok cards prev c d ∧ trace_ok cards d t'
  end.

(** [n] draws in a row, recording each card with the deck it left. *)
Fixpoint draw_trace (draw : M Card) (deck : Game → list Card) (n : nat)
    : M (list (Card * list Card)) :=
  match n with
  | O => ret []
  | S k =>
      let* c := draw in
      let* g := get_game in
      let* t := draw_trace draw deck k in
      ret ((c, deck g) :: t)
  end.

(** ** Counting what a player holds *)

(** Squares of [ps] recorded as owned by seat [pid] and not mortgaged:
    what [_stations_owned] and [_utilities_owned] count. *)
Definition unmortgaged_owned (g : Game) (pid : nat) (ps : list Z) : Z :=
  Z.of_nat (length (filter
    (λ pos, match ownership g !! pos with
            | Some ow => owned_unmortgaged pid ow
            | None => false
            end = true) ps)).

(** Squares of [ps] recorded as owned by seat [pid], mortgaged or not. *)
Definition held (g : Game) (pid : nat) (ps : list Z) : Z :=
  Z.of_nat (length (filter
    (λ pos, match ownership g !! pos with
            | Some ow => bool_decide (owner ow = Some pid)
            | None => false
            end = true) ps)).

(** ** Concrete random streams used by the examples *)

(** The shuffle of the chance deck leaves the cards in their listed order
    (the swap index drawn at step [i] is [i] itself), so "advance to the
    start square" is on top; the first roll is 3 + 4. *)
Definition rand_chance_first (pos : N) : N :=
  if (pos <? 14)%N then (14 - pos)%N
  else if (pos <? 28)%N then 0%N
  else if (pos =? 28)%N then 2%N
  else 3%N.

(** A stream for a two-player game: the community deck is shuffled with
    "pay 7,500" and "pay 5,000" on top, and the rolls of the first four
    rounds are (1,2) (1,3) (1,2) (3,4) (1,2) (5,6) (1,2) (4,6). *)
Definition rand_two_utilities (pos : N) : N :=
  if (pos <? 14)%N then 14 - pos
  else if (pos =? 18)%N then 1
  else if (pos =? 19)%N then 0
  else if (pos <? 28)%N then 28 - pos
  else nth (N.to_nat (pos - 28))
           [0; 1; 0; 2; 0; 1; 2; 3; 0; 1; 4; 5; 0; 1; 3; 5]%N 0%N.

Fixpoint play_rounds (rand : N → N) (n : nat) : M unit :=
  match n with
  | O => ret tt
  | S k =>
      let* g := get_game in
      play_round rand (seq 0 (length (players g))) ;;
      play_rounds rand k
  end.

(** ** Well-formed games *)

Definition purchasable (pos : Z) : bool :=
  match BOARD pos with
  | Some sq => purchasable_type (sq_type sq)
  | None => false
  end.

Definition is_property (pos : Z) : bool :=
  match BOARD pos with
  | Some (Sq_property _ _ _ _) => true
  | _ => false
  end.

(** The invariant of an ownership record, as the data model states it:
    a square with buildings is not mortgaged, only a property carries
    buildings, and a mortgaged square has an owner. *)
Record record_ok (pos : Z) (ow : Ownership) : Prop := {
  rec_built_unmortgaged : 0 < buildings ow → mortgaged ow = false;
  rec_built_property : buildings ow ≠ 0 → is_property pos = true;
  rec_mortgaged_owned : mortgaged ow = true → owner ow ≠ None
}.

Definition stats_ok (n : nat) (s : Stats) : Prop :=
  length (peak_cash s) = n ∧ length (props_bought s) = n ∧
  length (rent_paid s) = n ∧ length (rent_received s) = n ∧
  length (go_rewards s) = n ∧ length (total_tax_paid s) = n.

(** The invariant of the engine.  The cash clause is stated for games
    whose starting money is not negative; the other clauses hold for any
    configuration. *)
Record inv (g : Game) : Prop := {
  inv_ids : ∀ i p, players g !! i = Some p → id p = i;
  inv_dom : ∀ pos, is_Some (ownership g !! pos) ↔ purchasable pos = true;
  inv_props : ∀ i p pos, players g !! i = Some p → pos ∈ properties p →
      ∃ ow, ownership g !! pos = Some ow ∧ owner ow = Some i;
  inv_owner : ∀ pos ow o, ownership g !! pos = Some ow → owner ow = Some o →
      ∃ p, players g !! o = Some p ∧ bankrupt p = false ∧ pos ∈ properties p;
  inv_record : ∀ pos ow, ownership g !! pos = Some ow → record_ok pos ow;
  inv_range : ∀ pos ow, ownership g !! pos = Some ow → 0 ≤ buildings ow ≤ 5;
  inv_cash : 0 ≤ starting_money g →
      ∀ i p, players g !! i = Some p → 0 ≤ money p;
  inv_stats : stats_ok (length (players g)) (stats g);
  inv_chance : cycle_rest CHANCE_CARDS (chance_deck g);
  inv_community : cycle_rest COMMUNITY_CARDS (community_deck g)
}.

(** What the operations inside a turn leave alone: the jail flag and the
    doubles counter of every player (hence the number of players), the
    round and turn counters, the time-out flag and the starting money. *)
Definition turn_view (p : Player) : bool * Z := (in_jail p, consec_doubles p).

Record frame (g g' : Game) : Prop := {
  fr_view : turn_view <$> players g' = turn_view <$> players g;
  fr_round : round_count g' = round_count g;
  fr_turn : turn_count g' = turn_count g;
  fr_timed : timed_out (stats g') = timed_out (stats g);
  fr_start : starting_money g' = starting_money g
}.

(** The same, except that player [i] may have been sent to jail. *)
Record frame_jail (i : nat) (g g' : Game) : Prop := {
  fj_length : length (players g') = length (players g);
  fj_view : turn_view <$> players g' = turn_view <$> players g ∨
            ∃ p, players g' !! i = Some p ∧ in_jail p = true;
  fj_round : round_count g' = round_count g;
  fj_turn : turn_count g' = turn_count g;
  fj_timed : timed_out (stats g') = timed_out (stats g);
  fj_start : starting_money g' = starting_money g
}.

Definition keeps {A} (g : Game) : A → Game → Prop :=
  λ _ g', inv g' ∧ frame g g'.

Definition keeps_jail {A} (i : nat) (g : Game) : A → Game → Prop :=
  λ _ g', inv g' ∧ frame_jail i g g'.

(** A computation that only reads the game. *)
Definition reads {A} (g : Game) (P : A → Prop) : A → Game → Prop :=
  λ a g', g' = g ∧ P a.

(** A per-seat statistics list together with its update. *)
Definition stat_field (field : Stats → list Z) (set : list Z → Stats → Stats)
    : Prop :=
  (∀ n s, stats_ok n s → length (field s) = n) ∧
  (∀ n s l, stats_ok n s → length l = n → stats_ok n (set l s)) ∧
  (∀ l s, timed_out (set l s) = timed_out s).

Definition seat (g : Game) (i : nat) : Prop := (i < length (players g))%nat.

(** Every square of player [i] is without buildings: the state in which
    [_raise_funds] leaves a player it could not make solvent. *)
Definition liquidated (g : Game) (i : nat) : Prop :=
  ∀ p pos ow, players g !! i = Some p → pos ∈ properties p →
              ownership g !! pos = Some ow → buildings ow = 0.

(** What [_move_steps] and [_move_to] do to the moving player: a new
    position, possibly more cash, nothing else. *)
Definition moved (target : Z) (p p' : Player) : Prop :=
  position p' = target ∧ bankrupt p' = bankrupt p ∧
  properties p' = properties p ∧ id p' = id p.

(** ** Facts of the board table, as one decidable check per square *)

Definition square_fine (pos : Z) (sq : Square) : bool :=
  match sq with
  | Sq_plain t =>
      negb (purchasable_type t) && negb (bool_decide (t = tax))
  | Sq_tax a => 0 <=? a
  | Sq_property grp price m rents =>
      (0 <=? price) && (0 <=? m) && bool_decide (length rents = 6%nat)
      && forallb (λ r, 0 <? r) rents
      && bool_decide (pos ∈ positions (GROUPS grp))
      && (0 <? house_cost (GROUPS grp))
  | Sq_station price m rents =>
      (0 <=? price) && (0 <=? m) && bool_decide (rents = station_rent)
      && bool_decide (pos ∈ STATION_POS)
  | Sq_utility price m =>
      (0 <=? price) && (0 <=? m) && bool_decide (pos ∈ UTILITY_POS)
  end.

(** The players of [g'] are those of [g] except for the cash of seat [i]. *)
Definition cash_of (i : nat) (g g' : Game) : Prop :=
  ∃ m, players g' = alter (set_money m) i (players g).

(** No square gained a building between [g] and [g']. *)
Definition ledger_sold (g g' : Game) : Prop :=
  ∀ pos ow', ownership g' !! pos = Some ow' →
    ∃ ow, ownership g !! pos = Some ow ∧
          (buildings ow' = buildings ow ∨ buildings ow' = 0).

(** ** Bankruptcy *)

(** The fields no money operation touches. *)
Definition same_rest (g g' : Game) : Prop :=
  chance_deck g' = chance_deck g ∧ community_deck g' = community_deck g ∧
  round_count g' = round_count g ∧ turn_count g' = turn_count g ∧
  starting_money g' = starting_money g ∧ num_players g' = num_players g ∧
  rng_pos g' = rng_pos g.

(** The creditor that takes over the estate of player [i]: the one given,
    when it is another player that is not bankrupt. *)
Definition taker (g : Game) (i : nat) (creditor : option nat) : option nat :=
  match creditor with
  | Some c =>
      if decide (c = i) then None
      else match players g !! c with
           | Some cp => if bankrupt cp then None else Some c
           | None => None
           end
  | None => None
  end.

Definition transferred (cid : nat) (ow : Ownership) : Ownership :=
  mkOwnership (Some cid) (buildings ow) true.

Definition released (ow : Ownership) : Ownership := mkOwnership None 0 false.

Definition wiped (p : Player) : Player :=
  set_money 0 (set_properties [] (set_bankrupt true p)).

Definition inherits (p : Player) (q : Player) : Player :=
  set_properties (properties q ++ properties p) (set_money (money q + money p) q).

(** What bankruptcy of player [i] (whose record was [p]) makes of the
    player in seat [j], and of a ledger record of one of [p]'s squares. *)
Definition settle (g : Game) (i : nat) (p : Player) (creditor : option nat)
    (j : nat) (q : Player) : Player :=
  if decide (j = i) then wiped q
  else match taker g i creditor with
       | Some c => if decide (j = c) then inherits p q else q
       | None => q
       end.

Definition settle_record (g : Game) (i : nat) (creditor : option nat)
    (ow : Ownership) : Ownership :=
  match taker g i creditor with
  | Some c => transferred c ow
  | None => released ow
  end.

(** ** What the read-only helpers compute *)

Definition owned_by (g : Game) (pid : nat) (pos : Z) : bool :=
  match ownership g !! pos with
  | Some ow => owned_unmortgaged pid ow
  | None => false
  end.

Definition all_owned_b (g : Game) (pid : nat) (ps : list Z) : bool :=
  forallb (owned_by g pid) ps.

(** No square lost a building, changed owner or changed its mortgage flag
    between [g] and [g']. *)
Definition ledger_grown (g g' : Game) : Prop :=
  ∀ pos ow, ownership g !! pos = Some ow →
    ∃ ow', ownership g' !! pos = Some ow' ∧
           buildings ow ≤ buildings ow' ∧ mortgaged ow' = mortgaged ow ∧
           owner ow' = owner ow.

(** ** Cards and the squares they lead to *)

Definition card_fine (c : Card) : bool :=
  match c with
  | card_receive v | card_pay v | card_pay_each v | card_receive_from_each v =>
      0 <=? v
  | card_repairs house_fee hotel_fee => (0 <=? house_fee) && (0 <=? hotel_fee)
  | _ => true
  end.

(** The square a card moves the player to, from square [pos]. *)
Definition landing (c : Card) (pos : Z) : option Z :=
  match c with
  | card_move_to target => Some target
  | card_move_back n => Some ((pos - n) mod BOARD_SIZE)
  | _ => None
  end.

Definition is_card_square (pos : Z) : bool :=
  match BOARD pos with
  | Some sq =>
      match sq_type sq with
      | chance | community => true
      | _ => false
      end
  | None => false
  end.

(** No card of the deck of a card square leads to another card square. *)
Definition lands_off_cards (cards : list Card) (squares : list Z) : bool :=
  forallb (λ c, forallb (λ pos, match landing c pos with
                                | Some l => negb (is_card_square l)
                                | None => true
                                end) squares) cards.

(** What a whole turn leaves alone: the number of players, the round
    counter, the time-out flag and the starting money ([frame_turn] also
    the turn counter). *)
Record frame_round (g g' : Game) : Prop := {
  fo_length : length (players g') = length (players g);
  fo_round : round_count g' = round_count g;
  fo_timed : timed_out (stats g') = timed_out (stats g);
  fo_start : starting_money g' = starting_money g
}.

Record frame_turn (g g' : Game) : Prop := {
  ft_round : frame_round g g';
  ft_turn : turn_count g' = turn_count g
}.

(** What [_jail_turn] tells the turn loop. *)
Definition jail_result (i : nat) (g : Game) (r : option (Z * Z)) (g' : Game)
    : Prop :=
  inv g' ∧ frame_turn g g' ∧
  (∀ p, players g !! i = Some p →
        ∃ p', players g' !! i = Some p' ∧
              consec_doubles p' = consec_doubles p ∧
              bankrupt p' = bankrupt p ∧
              (is_Some r → in_jail p' = false)) ∧
  (∀ d, r = Some d → 1 ≤ d.1 ≤ 6 ∧ 1 ≤ d.2 ≤ 6).


(** What one run of the game loop establishes, from a game whose round
    counter is below the ceiling and whose time-out flag is clear. *)
Definition run_result (g g' : Game) : Prop :=
  inv g' ∧
  round_count g < round_count g' ≤ MAX_ROUNDS ∧
  (timed_out (stats g') = true ↔
   round_count g' = MAX_ROUNDS ∧ (1 < length (active_seats g'))%nat).


(** ** Reachable games

    The games the engine can be in: a constructed game, and whatever the
    engine's operations make of a reachable game when they return
    normally.  The operations are the game loop's own steps (a new round,
    a player's turn, the final bookkeeping) and the operations a turn is
    made of, called on an existing seat with the arguments the engine
    gives them (amounts and dice not negative, cards of the two decks,
    bankruptcy only after liquidation). *)
Inductive reachable (rand : N → N) : Game → Prop :=
| reach_init n sm pos g :
    __init__ rand n sm pos = Ok g → reachable rand g
| reach_new_round g :
    reachable rand g → reachable rand (set_round_count (round_count g + 1) g)
| reach_winner g w :
    reachable rand g → reachable rand (set_stats (set_winner w (stats g)) g)
| reach_timed_out g b :
    reachable rand g → reachable rand (set_stats (set_timed_out b (stats g)) g)
| reach_rounds g v :
    reachable rand g → reachable rand (set_stats (set_rounds v (stats g)) g)
| reach_turns g v :
    reachable rand g → reachable rand (set_stats (set_turns v (stats g)) g)
| reach_play_turn g i a g' :
    reachable rand g → seat g i →
    _play_turn rand i g = Ok (a, g') → reachable rand g'
| reach_jail_turn g i a g' :
    reachable rand g → seat g i →
    _jail_turn rand i g = Ok (a, g') → reachable rand g'
| reach_move_steps g i steps a g' :
    reachable rand g → seat g i →
    _move_steps i steps g = Ok (a, g') → reachable rand g'
| reach_apply_square g depth i dice a g' :
    reachable rand g → seat g i → depth ≠ 0%nat → 0 ≤ dice →
    _apply_square rand depth i dice g = Ok (a, g') → reachable rand g'
| reach_apply_card g depth i card dice a g' :
    reachable rand g → seat g i → depth ≠ 0%nat → 0 ≤ dice →
    card ∈ CHANCE_CARDS ++ COMMUNITY_CARDS →
    _apply_card rand depth i card dice g = Ok (a, g') → reachable rand g'
| reach_draw_chance g a g' :
    reachable rand g → _draw_chance rand g = Ok (a, g') → reachable rand g'
| reach_draw_community g a g' :
    reachable rand g → _draw_community rand g = Ok (a, g') → reachable rand g'
| reach_credit g i amount source a g' :
    reachable rand g → seat g i → 0 ≤ amount →
    _credit i amount source g = Ok (a, g') → reachable rand g'
| reach_charge g i amount creditor a g' :
    reachable rand g → seat g i → 0 ≤ amount →
    (∀ c, creditor = Some c → seat g c) →
    _charge i amount creditor g = Ok (a, g') → reachable rand g'
| reach_raise_funds g i needed a g' :
    reachable rand g → seat g i →
    _raise_funds i needed g = Ok (a, g') → reachable rand g'
| reach_bankrupt g i creditor a g' :
    reachable rand g → seat g i → liquidated g i →
    (∀ c, creditor = Some c → seat g c) →
    _bankrupt i creditor g = Ok (a, g') → reachable rand g'
| reach_try_build g i a g' :
    reachable rand g → seat g i →
    _try_build i g = Ok (a, g') → reachable rand g'.

(** ** Example games

    Concrete games on which the lemmas below are instantiated. *)

Definition empty_game : Game :=
  {| num_players := 0; starting_money := 0; players := []; ownership := ∅;
     chance_deck := []; community_deck := []; round_count := 0;
     turn_count := 0; stats := initial_stats 0; rng_pos := 0 |}.

Definition game_of (r : result Game) : Game :=
  match r with Ok g => g | _ => empty_game end.

Definition state_after {A} (m : M A) (g : Game) : Game :=
  match m g with Ok (_, g') => g' | _ => g end.

(** A new two-player game with starting money 30,000, and the same game
    after four rounds: the first player holds the squares 3, 6, 9 and 12,
    the second the utilities 4 (mortgaged) and 11. *)
Definition example_start : Game :=
  game_of (__init__ rand_two_utilities 2 30000 0).

Definition example_game : Game :=
  state_after (play_rounds rand_two_utilities 4) example_start.

(** ** Cash in the game *)

Definition total_cash (g : Game) : Z := foldr Z.add 0 (money <$> players g).

(** What the two peer-transfer cards leave of a game [g]: the cash in the
    game, the ledger, the statistics and every bankruptcy flag are those of
    [g], and no cash is negative if none was and the card's amount is not
    negative. *)
Definition peer_transfer (value : Z) (g g' : Game) : Prop :=
  total_cash g' = total_cash g ∧ ownership g' = ownership g ∧
  stats g' = stats g ∧
  bankrupt <$> players g' = bankrupt <$> players g ∧
  (0 ≤ value → Forall (λ p, 0 ≤ money p) (players g) →
   Forall (λ p, 0 ≤ money p) (players g')).

(** ** The end of a game

    What [run] establishes from a game [g] whose round counter is below
    the ceiling and whose time-out flag is clear: the same seats, more
    rounds but no more than the ceiling, a winner that is a player left in
    the game (or -1 when nobody is left), and the time-out flag set
    exactly when more than one player is left. *)
Definition run_outcome (g g' : Game) : Prop :=
  inv g' ∧
  length (players g') = length (players g) ∧
  round_count g < round_count g' ≤ MAX_ROUNDS ∧
  (winner (stats g') = -1 ∧ active_seats g' = [] ∨
   ∃ w, winner (stats g') = Z.of_nat w ∧ w ∈ active_seats g') ∧
  (timed_out (stats g') = false → (length (active_seats g') ≤ 1)%nat) ∧
  (timed_out (stats g') = true →
   round_count g' = MAX_ROUNDS ∧ (1 < length (active_seats g'))%nat).

(** ** Simulation results *)

Definition res_tables (res : SimResult) : list (list (list Z)) :=
  [res_props_bought res; res_rent_paid res; res_rent_received res;
   res_go_rewards res; res_peak_cash res; res_tax_paid res].

(** A per-player table with one row per player; the rows before [done]
    hold [k + 1] values and the others [k]. *)
Definition table_ok (np k done : nat) (table : list (list Z)) : Prop :=
  length table = np ∧
  ∀ j row, table !! j = Some row →
           length row = if decide (j < done)%nat then S k else k.

(** A result that holds [k] games of [np] players. *)
Definition sim_ok (np k : nat) (res : SimResult) : Prop :=
  length (res_rounds res) = k ∧ length (res_turns res) = k ∧
  length (res_winners res) = k ∧
  0 ≤ res_timed_out res ≤ Z.of_nat k ∧
  Forall (λ r, 1 ≤ r ≤ MAX_ROUNDS) (res_rounds res) ∧
  Forall (λ w, -1 ≤ w < Z.of_nat np) (res_winners res) ∧
  Forall (table_ok np k 0) (res_tables res).

(** ** Liquidation

    What raising funds for player [i] may do to a game: ledger records
    keep their owner, lose all their buildings or none, and never lose a
    mortgage flag; no record appears or disappears; and player [i] loses
    no cash. *)
Definition liquidation (i : nat) (g g' : Game) : Prop :=
  (∀ pos ow', ownership g' !! pos = Some ow' →
     ∃ ow, ownership g !! pos = Some ow ∧ owner ow' = owner ow ∧
           (buildings ow' = buildings ow ∨ buildings ow' = 0) ∧
           (mortgaged ow = true → mortgaged ow' = true)) ∧
  (∀ pos, is_Some (ownership g !! pos) → is_Some (ownership g' !! pos)) ∧
  length (players g') = length (players g) ∧
  (∀ p p', players g !! i = Some p → players g' !! i = Some p' →
           money p ≤ money p').

(** ** Building

    What building for player [i] with the cash reserve [reserve] may do
    to a game: squares keep their owner and mortgage flag and lose no
    building, only the cash of [i] changes, it does not grow, it is still
    at least the reserve if it shrank, and buildings are added only on the
    squares [allowed]. *)
Definition built (i : nat) (reserve : Z) (allowed : Z → Prop) (g g' : Game)
    : Prop :=
  ledger_grown g g' ∧ cash_of i g g' ∧
  (∀ p p', players g !! i = Some p → players g' !! i = Some p' →
           money p' ≤ money p ∧ (money p' < money p → reserve ≤ money p')) ∧
  (∀ pos ow ow', ownership g !! pos = Some ow →
                 ownership g' !! pos = Some ow' →
                 buildings ow < buildings ow' → allowed pos).

(** ** More example games *)

(** The player in seat [i] and the ledger record of square [pos], for the
    seats and squares that exist. *)
Definition seat_of (g : Game) (i : nat) : Player :=
  default (new_player i 0) (players g !! i).

Definition record_of (g : Game) (pos : Z) : Ownership :=
  default (mkOwnership None 0 false) (ownership g !! pos).

(** The new game after its first player moved five squares, onto the
    station of square 5 that nobody owns, and the same after that square
    was resolved: the player bought the station. *)
Definition station_stop : Game := state_after (_move_steps 0 5) example_start.

Definition station_game : Game :=
  state_after (_apply_square rand_two_utilities 2 0 5) station_stop.
Lemma wp_ok {A} (m : M A) Q g :
  wp m Q g ↔ ∃ a g', m g = Ok (a, g') ∧ Q a g'.
Proof.
  unfold wp. split.
  - destruct (m g) as [[a g']| |]; [eauto | done | done].
  - intros (a & g' & -> & HQ). done.
Qed.

Lemma wp_mono {A} (m : M A) (Q Q' : A → Game → Prop) g :
  wp m Q g → (∀ a g', Q a g' → Q' a g') → wp m Q' g.
Proof. unfold wp. destruct (m g) as [[a g']| |]; auto. Qed.

Lemma wp_ret {A} (a : A) Q g : wp (ret a) Q g ↔ Q a g.
Proof. done. Qed.

Lemma wp_bind {A B} (m : M A) (f : A → M B) Q g :
  wp (bind m f) Q g ↔ wp m (λ a g', wp (f a) Q g') g.
Proof. unfold wp, bind. destruct (m g) as [[a g']| |]; done. Qed.

Lemma wp_get_game Q g : wp get_game Q g ↔ Q g g.
Proof. done. Qed.

Lemma wp_modify f Q g : wp (modify f) Q g ↔ Q tt (f g).
Proof. done. Qed.

Lemma wp_raise {A} e (Q : A → Game → Prop) g : wp (raise e) Q g ↔ False.
Proof. done. Qed.

Lemma wp_lift {A} e (o : option A) Q g :
  wp (lift e o) Q g ↔ ∃ a, o = Some a ∧ Q a g.
Proof.
  destruct o as [a|]; simpl.
  - rewrite wp_ret. split; [eauto |]. by intros (? & [= <-] & ?).
  - rewrite wp_raise. split; [done |]. by intros (? & ? & ?).
Qed.

Lemma wp_player i Q g :
  wp (player i) Q g ↔ ∃ p, players g !! i = Some p ∧ Q p g.
Proof. unfold player. apply wp_lift. Qed.

Lemma wp_own pos Q g :
  wp (own pos) Q g ↔ ∃ ow, ownership g !! pos = Some ow ∧ Q ow g.
Proof. unfold own. apply wp_lift. Qed.

Lemma wp_board pos Q g :
  wp (board pos) Q g ↔ ∃ sq, BOARD pos = Some sq ∧ Q sq g.
Proof. unfold board. apply wp_lift. Qed.

Lemma wp_upd_player i f Q g :
  wp (upd_player i f) Q g ↔ Q tt (set_players (alter f i (players g)) g).
Proof. done. Qed.

Lemma wp_upd_own pos f Q g :
  wp (upd_own pos f) Q g ↔ Q tt (set_ownership (alter f pos (ownership g)) g).
Proof. done. Qed.

Lemma wp_stat_get field pid Q g :
  wp (stat_get field pid) Q g ↔ ∃ v, field (stats g) !! pid = Some v ∧ Q v g.
Proof. unfold stat_get. apply wp_lift. Qed.

Lemma wp_stat_set field set pid v Q g :
  wp (stat_set field set pid v) Q g ↔
  (pid < length (field (stats g)))%nat ∧
  Q tt (set_stats (set (<[pid := v]> (field (stats g))) (stats g)) g).
Proof.
  unfold stat_set. rewrite wp_bind, wp_stat_get. setoid_rewrite wp_modify.
  rewrite <- lookup_lt_is_Some. unfold is_Some. split.
  - intros (w & Hw & HQ). eauto.
  - intros ((w & Hw) & HQ). eauto.
Qed.

Lemma wp_stat_add field set pid d Q g :
  wp (stat_add field set pid d) Q g ↔
  ∃ v, field (stats g) !! pid = Some v ∧
       Q tt (set_stats (set (<[pid := v + d]> (field (stats g))) (stats g)) g).
Proof.
  unfold stat_add. rewrite wp_bind, wp_stat_get.
  setoid_rewrite wp_stat_set. split.
  - intros (v & Hv & _ & HQ). eauto.
  - intros (v & Hv & HQ). exists v. split_and!; [done | | done].
    by eapply lookup_lt_Some.
Qed.

Lemma wp_if {A} (b : bool) (m1 m2 : M A) Q g :
  wp (if b then m1 else m2) Q g ↔ if b then wp m1 Q g else wp m2 Q g.
Proof. by destruct b. Qed.

Lemma wp_eq {A} (m : M A) (v : A) g g0 :
  wp m (λ a g', a = v ∧ g' = g0) g ↔ m g = Ok (v, g0).
Proof.
  rewrite wp_ok. split.
  - by intros (a & g' & -> & -> & ->).
  - intros ->. eauto.
Qed.

Lemma wp_result {A} (m : M A) (v : A) (Q : Game → Prop) g :
  wp m (λ a g', a = v ∧ Q g') g → ∃ g', m g = Ok (v, g') ∧ Q g'.
Proof. intros (a & g' & Hm & -> & HQ)%wp_ok. eauto. Qed.

(** Lookups in a state that is a stack of updates of a known state. *)
Ltac solve_lookup :=
  simpl;
  repeat first
    [ rewrite list_lookup_alter_eq
    | rewrite list_lookup_alter_ne by done
    | rewrite lookup_alter_eq
    | rewrite lookup_alter_ne by done ];
  repeat match goal with
         | H : _ !! _ = Some _ |- _ => rewrite H
         end;
  reflexivity.

(** One step of symbolic execution: the rule for the computation at the
    head of the goal. *)
Ltac wp_step :=
  cbv beta iota;
  lazymatch goal with
  | |- wp (bind _ _) _ _ => apply (proj2 (wp_bind _ _ _ _))
  | |- wp (ret _) _ _ => apply (proj2 (wp_ret _ _ _))
  | |- wp get_game _ _ => apply (proj2 (wp_get_game _ _))
  | |- wp (modify _) _ _ => apply (proj2 (wp_modify _ _ _))
  | |- wp (upd_player _ _) _ _ => apply (proj2 (wp_upd_player _ _ _ _))
  | |- wp (upd_own _ _) _ _ => apply (proj2 (wp_upd_own _ _ _ _))
  | |- wp (player _) _ _ =>
      apply (proj2 (wp_player _ _ _)); eexists; split;
      [first [eassumption | solve_lookup] |]
  | |- wp (own _) _ _ =>
      apply (proj2 (wp_own _ _ _)); eexists; split;
      [first [eassumption | solve_lookup] |]
  | |- wp (board _) _ _ =>
      apply (proj2 (wp_board _ _ _)); eexists; split; [eassumption |]
  | |- wp (lift _ _) _ _ =>
      apply (proj2 (wp_lift _ _ _ _)); eexists; split;
      [eassumption || reflexivity |]
  end.

(** The same, for the steps that do not change the state. *)
Ltac wp_pure :=
  cbv beta iota;
  lazymatch goal with
  | |- wp (bind _ _) _ _ => apply (proj2 (wp_bind _ _ _ _))
  | |- wp (ret _) _ _ => apply (proj2 (wp_ret _ _ _))
  | |- wp get_game _ _ => apply (proj2 (wp_get_game _ _))
  | |- wp (player _) _ _ =>
      apply (proj2 (wp_player _ _ _)); eexists; split;
      [first [eassumption | solve_lookup] |]
  | |- wp (own _) _ _ =>
      apply (proj2 (wp_own _ _ _)); eexists; split;
      [first [eassumption | solve_lookup] |]
  | |- wp (board _) _ _ =>
      apply (proj2 (wp_board _ _ _)); eexists; split; [eassumption |]
  | |- wp (lift _ _) _ _ =>
      apply (proj2 (wp_lift _ _ _ _)); eexists; split;
      [eassumption || reflexivity |]
  end.

(** * Shuffling *)

Section Shuffle.

Variable rand : N → N.

Lemma swap_Permutation {A} (x : list A) i j : swap x i j ≡ₚ x.
Proof.
  unfold swap.
  destruct (x !! i) as [a|] eqn:Hi; [|done].
  destruct (x !! j) as [b|] eqn:Hj; [|done].
  pose proof (lookup_lt_Some _ _ _ Hi) as Hli.
  pose proof (lookup_lt_Some _ _ _ Hj) as Hlj.
  apply Permutation_inj. split; [by rewrite !length_insert|].
  exists (λ k, if decide (k = j) then i else if decide (k = i) then j else k).
  split.
  - intros k1 k2 Hk. repeat case_decide; congruence.
  - intros k. rewrite !list_lookup_insert, length_insert.
    repeat case_decide; destruct_and?; subst; try done; try lia; congruence.
Qed.

Lemma shuffle_from_Permutation {A} i (x : list A) pos :
  (shuffle_from rand i x pos).1 ≡ₚ x.
Proof.
  revert x pos. induction i as [|k IH]; intros x pos; [done|].
  cbn [shuffle_from]. unfold randbelow.
  rewrite IH. apply swap_Permutation.
Qed.

Lemma shuffle_Permutation {A} (x : list A) pos : (shuffle rand x pos).1 ≡ₚ x.
Proof. apply shuffle_from_Permutation. Qed.

End Shuffle.

(** * Card decks *)

Section Decks.

Variable rand : N → N.

Lemma make_deck_cycle cards pos :
  ∃ sh, sh ≡ₚ normal_cards cards ∧
        (_make_deck rand cards pos).1 = sh ++ jail_cards cards.
Proof.
  unfold _make_deck.
  pose proof (shuffle_Permutation rand
                (filter (λ c, is_jail_card c = false) cards) pos) as Hperm.
  destruct (shuffle rand _ pos) as [sh pos']. simpl in *. by exists sh.
Qed.

Lemma normal_cards_not_jail cards sh :
  sh ≡ₚ normal_cards cards → Forall (λ c, is_jail_card c = false) sh.
Proof.
  intros Hperm. rewrite Hperm. unfold normal_cards.
  apply Forall_forall. intros c Hc. by apply list_elem_of_filter in Hc as [? _].
Qed.

Lemma jail_cards_jail cards : Forall (λ c, is_jail_card c = true) (jail_cards cards).
Proof.
  apply Forall_forall. intros c Hc. by apply list_elem_of_filter in Hc as [? _].
Qed.

(** Popping the head of a deck inside a cycle. *)
Lemma cycle_pop cards d c rest :
  cycle_rest cards d → d = c :: rest →
  cycle_rest cards rest ∧
  (is_jail_card c = true → Forall (λ c', is_jail_card c' = true) rest).
Proof.
  intros (sh & k & Hperm & Hd) ->.
  assert (Hrest : rest = drop (S k) (sh ++ jail_cards cards)).
  { replace (S k) with (k + 1)%nat by lia. rewrite <- drop_drop, <- Hd. done. }
  split; [by exists sh, (S k)|].
  intros Hjail.
  assert (Hk : (sh ++ jail_cards cards) !! k = Some c).
  { rewrite <- (Nat.add_0_r k), <- lookup_drop, <- Hd. done. }
  destruct (decide (k < length sh)%nat) as [Hlt|Hge].
  - rewrite lookup_app_l in Hk by done.
    pose proof (normal_cards_not_jail _ _ Hperm) as Hn.
    rewrite Forall_lookup in Hn. specialize (Hn _ _ Hk). simpl in Hn. congruence.
  - rewrite Hrest, drop_app_ge by lia.
    apply Forall_drop, jail_cards_jail.
Qed.

Lemma cycle_rest_elem cards d c : cycle_rest cards d → c ∈ d → c ∈ cards.
Proof.
  intros (sh & k & Hperm & ->) Hc.
  apply list_elem_of_lookup in Hc as [j Hj]. rewrite lookup_drop in Hj.
  apply list_elem_of_lookup_2 in Hj. apply elem_of_app in Hj as [Hj|Hj].
  - rewrite Hperm in Hj. unfold normal_cards in Hj.
    by apply list_elem_of_filter in Hj as [_ ?].
  - unfold jail_cards in Hj. by apply list_elem_of_filter in Hj as [_ ?].
Qed.

Lemma draw_ok_elem cards prev c d :
  cycle_rest cards prev → draw_ok cards prev c d → c ∈ cards.
Proof.
  intros Hcyc [Hdraw _]. destruct prev as [|c0 rest].
  - destruct Hdraw as (sh & Hperm & Heq).
    apply (cycle_rest_elem cards (c :: d)); [|constructor].
    exists sh, 0%nat. by rewrite Heq.
  - destruct Hdraw as [-> _]. apply (cycle_rest_elem _ _ _ Hcyc). constructor.
Qed.

Lemma cycle_rest_make_deck cards pos :
  cycle_rest cards (_make_deck rand cards pos).1.
Proof.
  destruct (make_deck_cycle cards pos) as (sh & Hperm & ->).
  by exists sh, 0%nat.
Qed.

Lemma make_deck_length cards pos :
  length (_make_deck rand cards pos).1 = length cards.
Proof.
  destruct (make_deck_cycle cards pos) as (sh & Hperm & ->).
  rewrite length_app, Hperm. unfold normal_cards, jail_cards. clear.
  induction cards as [|c cs IH]; [done|].
  rewrite !filter_cons. destruct (is_jail_card c); simpl.
  - repeat case_decide; try done. simpl. lia.
  - repeat case_decide; try done. simpl. lia.
Qed.

Lemma draw_chance_spec g :
  cycle_rest CHANCE_CARDS (chance_deck g) →
  wp (_draw_chance rand)
     (λ c g', draw_ok CHANCE_CARDS (chance_deck g) c (chance_deck g') ∧
              cycle_rest CHANCE_CARDS (chance_deck g') ∧
              players g' = players g ∧ ownership g' = ownership g ∧
              stats g' = stats g ∧ community_deck g' = community_deck g ∧
              round_count g' = round_count g ∧ turn_count g' = turn_count g ∧
              starting_money g' = starting_money g) g.
Proof.
  intros Hcyc. unfold _draw_chance.
  do 2 wp_step. case_decide as Hempty.
  - wp_step. wp_step. wp_step. wp_step.
    pose proof (make_deck_cycle CHANCE_CARDS (rng_pos g)) as (sh & Hperm & Hd).
    pose proof (make_deck_length CHANCE_CARDS (rng_pos g)) as Hlen.
    pose proof (cycle_rest_make_deck CHANCE_CARDS (rng_pos g)) as Hcyc'.
    destruct (_make_deck rand CHANCE_CARDS (rng_pos g)) as [d pos'].
    simpl in *. destruct d as [|c rest]; [done|].
    do 3 wp_step. simpl.
    destruct (cycle_pop _ _ _ _ Hcyc' eq_refl) as [Hc Hj].
    rewrite Hempty. unfold draw_ok. split_and!; try done. by exists sh.
  - do 4 wp_step. destruct (chance_deck g) as [|c rest] eqn:Hd; [done|].
    do 3 wp_step. simpl.
    destruct (cycle_pop _ _ _ _ Hcyc eq_refl) as [Hc Hj].
    unfold draw_ok. split_and!; done.
Qed.

Lemma draw_community_spec g :
  cycle_rest COMMUNITY_CARDS (community_deck g) →
  wp (_draw_community rand)
     (λ c g', draw_ok COMMUNITY_CARDS (community_deck g) c (community_deck g') ∧
              cycle_rest COMMUNITY_CARDS (community_deck g') ∧
              players g' = players g ∧ ownership g' = ownership g ∧
              stats g' = stats g ∧ chance_deck g' = chance_deck g ∧
              round_count g' = round_count g ∧ turn_count g' = turn_count g ∧
              starting_money g' = starting_money g) g.
Proof.
  intros Hcyc. unfold _draw_community.
  do 2 wp_step. case_decide as Hempty.
  - wp_step. wp_step. wp_step. wp_step.
    pose proof (make_deck_cycle COMMUNITY_CARDS (rng_pos g)) as (sh & Hperm & Hd).
    pose proof (make_deck_length COMMUNITY_CARDS (rng_pos g)) as Hlen.
    pose proof (cycle_rest_make_deck COMMUNITY_CARDS (rng_pos g)) as Hcyc'.
    destruct (_make_deck rand COMMUNITY_CARDS (rng_pos g)) as [d pos'].
    simpl in *. destruct d as [|c rest]; [done|].
    do 3 wp_step. simpl.
    destruct (cycle_pop _ _ _ _ Hcyc' eq_refl) as [Hc Hj].
    rewrite Hempty. unfold draw_ok. split_and!; try done. by exists sh.
  - do 4 wp_step. destruct (community_deck g) as [|c rest] eqn:Hd; [done|].
    do 3 wp_step. simpl.
    destruct (cycle_pop _ _ _ _ Hcyc eq_refl) as [Hc Hj].
    unfold draw_ok. split_and!; done.
Qed.

Lemma draw_trace_chance n g :
  cycle_rest CHANCE_CARDS (chance_deck g) →
  wp (draw_trace (_draw_chance rand) chance_deck n)
     (λ t _, length t = n ∧ trace_ok CHANCE_CARDS (chance_deck g) t) g.
Proof.
  revert g. induction n as [|n IH]; intros g Hcyc; simpl.
  - by wp_step.
  - wp_step. eapply wp_mono; [by apply draw_chance_spec|].
    intros c g1 (Hdraw & Hcyc1 & _). simpl.
    do 3 wp_step. eapply wp_mono; [by apply IH|].
    intros t g2 [Hlen Ht]. simpl. wp_step. simpl. by rewrite Hlen.
Qed.

Lemma draw_trace_community n g :
  cycle_rest COMMUNITY_CARDS (community_deck g) →
  wp (draw_trace (_draw_community rand) community_deck n)
     (λ t _, length t = n ∧ trace_ok COMMUNITY_CARDS (community_deck g) t) g.
Proof.
  revert g. induction n as [|n IH]; intros g Hcyc; simpl.
  - by wp_step.
  - wp_step. eapply wp_mono; [by apply draw_community_spec|].
    intros c g1 (Hdraw & Hcyc1 & _). simpl.
    do 3 wp_step. eapply wp_mono; [by apply IH|].
    intros t g2 [Hlen Ht]. simpl. wp_step. simpl. by rewrite Hlen.
Qed.

(** C9.  A draw pops the first card of the deck, after rebuilding an empty
    deck as a shuffle of the ordinary cards followed by the "get out of
    jail" cards; over any number of draws in a row, reshuffles included,
    a "get out of jail" card is drawn only when no ordinary card of its
    shuffle cycle is left in the deck.  Both decks. *)
Theorem jail_card_drawn_last g n :
  cycle_rest CHANCE_CARDS (chance_deck g) →
  cycle_rest COMMUNITY_CARDS (community_deck g) →
  (∃ t g', draw_trace (_draw_chance rand) chance_deck n g = Ok (t, g') ∧
           length t = n ∧ trace_ok CHANCE_CARDS (chance_deck g) t) ∧
  (∃ t g', draw_trace (_draw_community rand) community_deck n g = Ok (t, g') ∧
           length t = n ∧ trace_ok COMMUNITY_CARDS (community_deck g) t).
Proof.
  intros Hc Hm. split.
  - by apply wp_ok, draw_trace_chance.
  - by apply wp_ok, draw_trace_community.
Qed.

End Decks.

(** * Construction *)

Section Construction.

Variable rand : N → N.

Lemma init_ok n sm pos :
  ∃ d1 d2 pos',
    __init__ rand n sm pos =
    Ok {| num_players := n; starting_money := sm;
          players := (λ i, new_player i sm) <$> seq 0 (Z.to_nat n);
          ownership := initial_ownership;
          chance_deck := d1; community_deck := d2;
          round_count := 0; turn_count := 0;
          stats := initial_stats (Z.to_nat n); rng_pos := pos' |}
    ∧ cycle_rest CHANCE_CARDS d1 ∧ cycle_rest COMMUNITY_CARDS d2.
Proof.
  unfold __init__.
  pose proof (cycle_rest_make_deck rand CHANCE_CARDS pos) as H1.
  destruct (_make_deck rand CHANCE_CARDS pos) as [d1 pos1].
  pose proof (cycle_rest_make_deck rand COMMUNITY_CARDS pos1) as H2.
  destruct (_make_deck rand COMMUNITY_CARDS pos1) as [d2 pos2].
  by exists d1, d2, pos2.
Qed.

(** C5, as the code has it.  The constructor checks nothing: for every
    integer player count and every integer starting money it returns a
    game, with one player per seat of [range(num_players)] (none when the
    count is not positive), each holding the starting money on square 0,
    not in jail and not bankrupt, and an ownership ledger with no owner. *)
Theorem construction_never_rejects n sm pos :
  ∃ g, __init__ rand n sm pos = Ok g ∧
       num_players g = n ∧ starting_money g = sm ∧
       length (players g) = Z.to_nat n ∧
       (∀ i p, players g !! i = Some p → p = new_player i sm) ∧
       (∀ pos ow, ownership g !! pos = Some ow → ow = mkOwnership None 0 false) ∧
       round_count g = 0 ∧ turn_count g = 0.
Proof.
  destruct (init_ok n sm pos) as (d1 & d2 & pos' & -> & _).
  eexists. split; [done|]. simpl. split_and!; try done.
  - by rewrite length_fmap, length_seq.
  - intros i p Hp. rewrite list_lookup_fmap in Hp.
    destruct (seq 0 (Z.to_nat n) !! i) as [j|] eqn:Hj; [|done].
    apply lookup_seq in Hj as [-> _]. simpl in Hp. congruence.
  - intros q ow Hq. unfold initial_ownership in Hq.
    apply elem_of_list_to_map_2, list_elem_of_omap in Hq as (q' & _ & Hq).
    destruct (BOARD q') as [sq|]; [|done].
    destruct (purchasable_type (sq_type sq)); congruence.
Qed.

End Construction.

(** C5, as stated, fails: a game for one player with starting money -5 is
    constructed, not rejected. *)
Lemma construction_accepts_invalid_configuration :
  ∃ g, __init__ (λ _, 0%N) 1 (-5) 0 = Ok g ∧
       length (players g) = 1%nat ∧ starting_money g = -5.
Proof.
  destruct (init_ok (λ _, 0%N) 1 (-5) 0) as (d1 & d2 & pos' & -> & _).
  eexists. by split.
Qed.

(** * The start-square bonus *)

(** C6, at an input where the code departs from it.  In a new two-player
    game the first player rolls 3 + 4, lands on the chance square 7 and
    draws "advance to the start square": [_move_to] credits the bonus for
    the wrap and [_apply_square] credits it again for the landing, 20,000
    in all. *)
Lemma move_to_start_card_credits_bonus_twice :
  ∃ g g', __init__ rand_chance_first 2 STARTING_MONEY 0 = Ok g ∧
          _play_turn rand_chance_first 0 g = Ok (tt, g') ∧
          (∃ p, players g !! 0%nat = Some p ∧ position p = 0 ∧
                money p = STARTING_MONEY) ∧
          head (chance_deck g) = Some (card_move_to 0) ∧
          (∃ p', players g' !! 0%nat = Some p' ∧ position p' = 0 ∧
                 money p' = STARTING_MONEY + 2 * GO_REWARD) ∧
          go_rewards (stats g') !! 0%nat = Some (2 * GO_REWARD).
Proof.
  eexists _, _. split; [vm_compute; reflexivity|].
  split; [vm_compute; reflexivity|].
  split_and!; [eexists; split_and!; vm_compute; reflexivity | vm_compute; reflexivity | eexists; split_and!; vm_compute; reflexivity | vm_compute; reflexivity].
Qed.

(** * Utility rent *)

Section UtilityRent.

Variable rand : N → N.

Lemma count_owned_spec g pid ps :
  (∀ pos, pos ∈ ps → is_Some (ownership g !! pos)) →
  count_owned pid ps g = Ok (unmortgaged_owned g pid ps, g).
Proof.
  unfold unmortgaged_owned.
  induction ps as [|pos ps IH]; intros Hdom; [done|].
  destruct (Hdom pos) as [ow How]; [set_solver|].
  cbn [count_owned]. unfold bind at 1, own at 1. rewrite How. simpl.
  unfold bind at 1. rewrite IH by (intros; apply Hdom; set_solver).
  simpl. unfold ret. do 2 f_equal.
  rewrite filter_cons, How. destruct (owned_unmortgaged pid ow); simpl.
  - lia.
  - lia.
Qed.

(** C7, as the code has it.  On a utility square that has an owner and is
    not mortgaged, the rent is the dice sum passed in times 4 when the
    owner holds exactly one unmortgaged utility, and times 10 when the
    owner holds two or more unmortgaged utilities (the board has four);
    mortgaged utilities do not count. *)
Theorem utility_rent g pos dice double_station ow o op :
  pos ∈ UTILITY_POS →
  (∀ u, u ∈ UTILITY_POS → is_Some (ownership g !! u)) →
  ownership g !! pos = Some ow →
  owner ow = Some o →
  mortgaged ow = false →
  players g !! o = Some op →
  id op = o →
  let n := unmortgaged_owned g o UTILITY_POS in
  1 ≤ n ∧
  _rent pos dice double_station g = Ok (dice * (if 2 <=? n then 10 else 4), g) ∧
  (n = 1 → _rent pos dice double_station g = Ok (dice * 4, g)) ∧
  (2 ≤ n → _rent pos dice double_station g = Ok (dice * 10, g)).
Proof.
  intros Hpos Hdom How Hown Hmort Hop Hid n.
  assert (Hrent : _rent pos dice double_station g
                  = Ok (dice * (if 2 <=? n then 10 else 4), g)).
  { apply wp_eq. unfold _rent.
    assert (Hsq : ∃ p m, BOARD pos = Some (Sq_utility p m)).
    { unfold UTILITY_POS in Hpos. set_unfold in Hpos.
      destruct Hpos as [->|[->|[->|[->|[]]]]]; simpl; eauto. }
    destruct Hsq as (p & m & Hsq).
    do 4 wp_step. rewrite Hown, Hmort. do 3 wp_step.
    unfold _utilities_owned. do 2 wp_step.
    rewrite Hid. apply wp_ok. eexists _, _.
    split; [by apply count_owned_spec|]. by wp_step. }
  assert (Hn : 1 ≤ n).
  { subst n. unfold unmortgaged_owned.
    assert (pos ∈ filter
              (λ q, match ownership g !! q with
                    | Some ow => owned_unmortgaged o ow
                    | None => false
                    end = true) UTILITY_POS) as Hin.
    { apply list_elem_of_filter. split; [|done]. rewrite How.
      unfold owned_unmortgaged. rewrite Hmort, Hown.
      by rewrite bool_decide_eq_true_2. }
    destruct (filter _ UTILITY_POS) as [|x l]; [by apply elem_of_nil in Hin|].
    simpl. lia. }
  split_and!; [done | done | |].
  - intros H1. rewrite Hrent, H1. done.
  - intros H2. rewrite Hrent.
    destruct (2 <=? n) eqn:E; [done|]. apply Z.leb_gt in E. lia.
Qed.

End UtilityRent.

(** C7, as stated, fails.  After four rounds of a two-player game with
    starting money 30,000 the second player holds the utilities 4 and 11,
    the first of them mortgaged to pay a card; the rent on square 11 for a
    roll of 7 is 7 x 4, although the owner holds two utilities. *)
Lemma utility_rent_ignores_mortgaged_utility :
  ∃ g0 g, __init__ rand_two_utilities 2 30000 0 = Ok g0 ∧
          play_rounds rand_two_utilities 4 g0 = Ok (tt, g) ∧
          ownership g !! 4 = Some (mkOwnership (Some 1%nat) 0 true) ∧
          ownership g !! 11 = Some (mkOwnership (Some 1%nat) 0 false) ∧
          held g 1 UTILITY_POS = 2 ∧
          _rent 11 7 false g = Ok (7 * 4, g) ∧
          _rent 11 7 false g ≠ Ok (7 * 10, g).
Proof.
  eexists _, _. split; [vm_compute; reflexivity|].
  split; [vm_compute; reflexivity|].
  split_and!; try (vm_compute; reflexivity).
  vm_compute. discriminate.
Qed.

(** * Invariant and frame: the elementary updates *)

Lemma alter_lookup_Some {A} (f : A → A) (l : list A) i j q :
  alter f i l !! j = Some q ↔
  ∃ p, l !! j = Some p ∧ q = if decide (i = j) then f p else p.
Proof.
  rewrite list_lookup_alter. case_decide as Hij.
  - subst j. destruct (l !! i) as [p|]; simpl; split.
    + intros [= <-]. eauto.
    + by intros (p' & [= <-] & ->).
    + done.
    + by intros (p' & ? & _).
  - split; [eauto|]. by intros (p' & -> & ->).
Qed.

Lemma fmap_alter_same {A B} (v : A → B) (f : A → A) (l : list A) i :
  (∀ p, l !! i = Some p → v (f p) = v p) → v <$> alter f i l = v <$> l.
Proof.
  intros Hf. apply list_eq. intros j.
  rewrite !list_lookup_fmap, list_lookup_alter. case_decide; [subst j|done].
  destruct (l !! i) as [p|] eqn:Hp; [|done]. simpl. by rewrite Hf.
Qed.

Lemma frame_refl g : frame g g.
Proof. by split. Qed.

Lemma frame_trans g1 g2 g3 : frame g1 g2 → frame g2 g3 → frame g1 g3.
Proof. intros [] []. split; congruence. Qed.

Lemma frame_length g g' : frame g g' → length (players g') = length (players g).
Proof.
  intros [Hv _ _ _ _]. apply (f_equal length) in Hv.
  by rewrite !length_fmap in Hv.
Qed.

Lemma frame_lookup g g' i p :
  frame g g' → players g !! i = Some p →
  ∃ p', players g' !! i = Some p' ∧ turn_view p' = turn_view p.
Proof.
  intros [Hv _ _ _ _] Hp.
  assert ((turn_view <$> players g') !! i = Some (turn_view p)) as Hl.
  { by rewrite Hv, list_lookup_fmap, Hp. }
  rewrite list_lookup_fmap in Hl.
  destruct (players g' !! i) as [p'|]; [|done]. exists p'.
  change (Some (turn_view p') = Some (turn_view p)) in Hl.
  split; [done | congruence].
Qed.

Lemma frame_lookup_rev g g' i p' :
  frame g g' → players g' !! i = Some p' →
  ∃ p, players g !! i = Some p ∧ turn_view p' = turn_view p.
Proof.
  intros [Hv _ _ _ _] Hp.
  assert ((turn_view <$> players g) !! i = Some (turn_view p')) as Hl.
  { by rewrite <- Hv, list_lookup_fmap, Hp. }
  rewrite list_lookup_fmap in Hl.
  destruct (players g !! i) as [p|]; [|done]. exists p.
  change (Some (turn_view p) = Some (turn_view p')) in Hl.
  split; [done | congruence].
Qed.

Lemma frame_to_jail i g g' : frame g g' → frame_jail i g g'.
Proof.
  intros Hf. pose proof (frame_length _ _ Hf). destruct Hf.
  split; auto.
Qed.

Lemma frame_jail_trans_l i g1 g2 g3 :
  frame g1 g2 → frame_jail i g2 g3 → frame_jail i g1 g3.
Proof.
  intros Hf [Hl Hv ? ? ? ?]. pose proof (frame_length _ _ Hf). destruct Hf.
  split; [congruence | | congruence..].
  destruct Hv as [Hv|Hv]; [left; congruence | by right].
Qed.

Lemma frame_jail_trans_r i g1 g2 g3 :
  frame_jail i g1 g2 → frame g2 g3 → frame_jail i g1 g3.
Proof.
  intros [Hl Hv ? ? ? ?] Hf. pose proof (frame_length _ _ Hf).
  split; [congruence | | destruct Hf; congruence..].
  destruct Hv as [Hv|(p & Hp & Hj)].
  - left. destruct Hf. congruence.
  - right. destruct (frame_lookup _ _ _ _ Hf Hp) as (p' & Hp' & Hv').
    exists p'. split; [done|]. unfold turn_view in Hv'. congruence.
Qed.

Lemma frame_alter_player g i f :
  (∀ p, players g !! i = Some p → turn_view (f p) = turn_view p) →
  frame g (set_players (alter f i (players g)) g).
Proof. intros Hf. split; simpl; try done. by apply fmap_alter_same. Qed.

Lemma frame_set_ownership g m : frame g (set_ownership m g).
Proof. by split. Qed.

Lemma frame_set_stats g s :
  timed_out s = timed_out (stats g) → frame g (set_stats s g).
Proof. by split. Qed.

Lemma frame_set_rng_pos g n : frame g (set_rng_pos n g).
Proof. by split. Qed.

(** A player update that keeps the seat's id, bankruptcy flag and list of
    squares, and leaves the cash non-negative. *)
Lemma inv_alter_player g i f :
  inv g →
  (∀ p, players g !! i = Some p →
        id (f p) = id p ∧ bankrupt (f p) = bankrupt p ∧
        properties (f p) = properties p ∧
        (0 ≤ starting_money g → 0 ≤ money p → 0 ≤ money (f p))) →
  inv (set_players (alter f i (players g)) g).
Proof.
  intros [Hids Hdom Hprops Howner Hrec Hrange Hcash Hstats Hc Hm] Hf.
  split; simpl; try done.
  - intros j q (p & Hp & ->)%alter_lookup_Some. case_decide; [subst j|by eauto].
    destruct (Hf _ Hp) as (-> & _). eauto.
  - intros j q pos (p & Hp & ->)%alter_lookup_Some Hin. apply (Hprops j p); [done|].
    case_decide; [subst j|done]. destruct (Hf _ Hp) as (_ & _ & <- & _). done.
  - intros pos ow o How Ho.
    destruct (Howner _ _ _ How Ho) as (p & Hp & Hb & Hin).
    exists (if decide (i = o) then f p else p). split.
    { apply alter_lookup_Some. eauto. }
    case_decide; [subst o|done]. destruct (Hf _ Hp) as (_ & -> & -> & _). done.
  - intros Hsm j q (p & Hp & ->)%alter_lookup_Some.
    case_decide; [subst j|by eauto]. destruct (Hf _ Hp) as (_ & _ & _ & Hmoney).
    eauto.
  - by rewrite length_alter.
Qed.

Lemma stats_ok_set_peak_cash n s l :
  stats_ok n s → length l = n → stats_ok n (set_peak_cash l s).
Proof. intros (?&?&?&?&?&?) ?. by repeat split. Qed.
Lemma stats_ok_set_props_bought n s l :
  stats_ok n s → length l = n → stats_ok n (set_props_bought l s).
Proof. intros (?&?&?&?&?&?) ?. by repeat split. Qed.
Lemma stats_ok_set_rent_paid n s l :
  stats_ok n s → length l = n → stats_ok n (set_rent_paid l s).
Proof. intros (?&?&?&?&?&?) ?. by repeat split. Qed.
Lemma stats_ok_set_rent_received n s l :
  stats_ok n s → length l = n → stats_ok n (set_rent_received l s).
Proof. intros (?&?&?&?&?&?) ?. by repeat split. Qed.
Lemma stats_ok_set_go_rewards n s l :
  stats_ok n s → length l = n → stats_ok n (set_go_rewards l s).
Proof. intros (?&?&?&?&?&?) ?. by repeat split. Qed.
Lemma stats_ok_set_total_tax_paid n s l :
  stats_ok n s → length l = n → stats_ok n (set_total_tax_paid l s).
Proof. intros (?&?&?&?&?&?) ?. by repeat split. Qed.

Lemma inv_set_stats g s :
  inv g → stats_ok (length (players g)) s → inv (set_stats s g).
Proof. intros [] Hs. by split. Qed.

Lemma inv_set_rng_pos g n : inv g → inv (set_rng_pos n g).
Proof. intros []. by split. Qed.

Lemma inv_set_round_count g n : inv g → inv (set_round_count n g).
Proof. intros []. by split. Qed.

Lemma inv_set_turn_count g n : inv g → inv (set_turn_count n g).
Proof. intros []. by split. Qed.

Lemma inv_set_chance_deck g d :
  inv g → cycle_rest CHANCE_CARDS d → inv (set_chance_deck d g).
Proof. intros [] Hd. by split. Qed.

Lemma inv_set_community_deck g d :
  inv g → cycle_rest COMMUNITY_CARDS d → inv (set_community_deck d g).
Proof. intros [] Hd. by split. Qed.

(** A ledger update on one square that keeps its owner. *)
Lemma inv_alter_own g pos f :
  inv g →
  (∀ ow, ownership g !! pos = Some ow →
         owner (f ow) = owner ow ∧ record_ok pos (f ow) ∧
         0 ≤ buildings (f ow) ≤ 5) →
  inv (set_ownership (alter f pos (ownership g)) g).
Proof.
  intros [Hids Hdom Hprops Howner Hrec Hrange Hcash Hstats Hc Hm] Hf.
  split; simpl; try done.
  - intros q. rewrite <- Hdom, lookup_alter. case_decide; [subst q|done].
    by rewrite fmap_is_Some.
  - intros j p q Hp Hin. destruct (Hprops _ _ _ Hp Hin) as (ow & How & Ho).
    rewrite lookup_alter. case_decide; [subst q|by eauto].
    rewrite How. simpl. exists (f ow). split; [done|].
    destruct (Hf _ How) as (-> & _). done.
  - intros q ow o. rewrite lookup_alter. case_decide; [subst q|by eauto].
    destruct (ownership g !! pos) as [ow0|] eqn:How0; [|done].
    intros [= <-] Ho. destruct (Hf _ eq_refl) as (Heq & _). rewrite Heq in Ho. eauto.
  - intros q ow. rewrite lookup_alter. case_decide; [subst q|by eauto].
    destruct (ownership g !! pos) as [ow0|] eqn:How0; [|done].
    intros [= <-]. by destruct (Hf _ eq_refl) as (_ & ? & _).
  - intros q ow. rewrite lookup_alter. case_decide; [subst q|by eauto].
    destruct (ownership g !! pos) as [ow0|] eqn:How0; [|done].
    intros [= <-]. by destruct (Hf _ eq_refl) as (_ & _ & ?).
Qed.

(** * The board table *)

Lemma BOARD_range pos sq : BOARD pos = Some sq → 0 ≤ pos < 40.
Proof.
  intros H. destruct pos as [|p|p]; [lia| |done].
  do 6 (try destruct p as [p|p|]); simpl in H; try done; lia.
Qed.

Lemma board_forall (P : Z → Square → bool) :
  forallb (λ pos, match BOARD pos with Some sq => P pos sq | None => true end)
          (seqZ 0 40) = true →
  ∀ pos sq, BOARD pos = Some sq → P pos sq = true.
Proof.
  intros Hall pos sq Hsq. pose proof (BOARD_range _ _ Hsq) as Hr.
  rewrite forallb_forall in Hall. specialize (Hall pos).
  rewrite Hsq in Hall. apply Hall, list_elem_of_In, elem_of_seqZ. lia.
Qed.

Lemma BOARD_fine pos sq : BOARD pos = Some sq → square_fine pos sq = true.
Proof. apply board_forall. by vm_compute. Qed.

Lemma purchasable_square pos :
  purchasable pos = true →
  ∃ sq price m, BOARD pos = Some sq ∧ sq_price sq = Some price ∧
                sq_mortgage sq = Some m ∧ 0 ≤ price ∧ 0 ≤ m.
Proof.
  unfold purchasable. destruct (BOARD pos) as [sq|] eqn:Hsq; [|done].
  intros Hp. pose proof (BOARD_fine _ _ Hsq) as Hf.
  destruct sq as [t|a|grp price m rents|price m rents|price m]; simpl in *;
    try done.
  - destruct t; done.
  - exists (Sq_property grp price m rents), price, m.
    repeat (apply andb_prop in Hf as [Hf ?]). split_and!; try done; lia.
  - exists (Sq_station price m rents), price, m.
    repeat (apply andb_prop in Hf as [Hf ?]). split_and!; try done; lia.
  - exists (Sq_utility price m), price, m.
    repeat (apply andb_prop in Hf as [Hf ?]). split_and!; try done; lia.
Qed.

Lemma property_square pos grp price m rents :
  BOARD pos = Some (Sq_property grp price m rents) →
  is_property pos = true ∧ purchasable pos = true ∧
  pos ∈ positions (GROUPS grp) ∧ 0 < house_cost (GROUPS grp) ∧
  length rents = 6%nat ∧ Forall (λ r, 0 < r) rents.
Proof.
  intros Hsq. pose proof (BOARD_fine _ _ Hsq) as Hf.
  unfold is_property, purchasable. rewrite Hsq. simpl in *.
  repeat (apply andb_prop in Hf as [Hf ?]).
  repeat match goal with
         | H : bool_decide _ = true |- _ => apply bool_decide_eq_true in H
         end.
  split_and!; try done.
  - lia.
  - apply Forall_forall. intros r Hr.
    match goal with H : forallb _ _ = true |- _ => rewrite forallb_forall in H;
      specialize (H r) end.
    rewrite <- list_elem_of_In in *.
    match goal with H : _ → (0 <? r) = true |- _ => specialize (H Hr) end. lia.
Qed.

Lemma group_square grp pos :
  pos ∈ positions (GROUPS grp) →
  ∃ price m rents, BOARD pos = Some (Sq_property grp price m rents).
Proof.
  destruct grp; simpl; intros Hpos; set_unfold in Hpos;
    repeat (destruct Hpos as [->|Hpos]); try done; simpl; eauto.
Qed.

Lemma station_square pos :
  pos ∈ STATION_POS →
  BOARD pos = Some (Sq_station 10000 5000 station_rent) ∧ purchasable pos = true.
Proof.
  unfold STATION_POS. intros Hpos. set_unfold in Hpos.
  repeat (destruct Hpos as [->|Hpos]); done.
Qed.

Lemma utility_square pos :
  pos ∈ UTILITY_POS →
  (∃ price m, BOARD pos = Some (Sq_utility price m)) ∧ purchasable pos = true.
Proof.
  unfold UTILITY_POS. intros Hpos. set_unfold in Hpos.
  repeat (destruct Hpos as [->|Hpos]); try done; split; simpl; eauto.
Qed.

Lemma group_purchasable grp pos :
  pos ∈ positions (GROUPS grp) → purchasable pos = true ∧ is_property pos = true.
Proof.
  intros (price & m & rents & Hsq)%group_square.
  unfold purchasable, is_property. by rewrite Hsq.
Qed.

(** * Money and movement *)

Tactic Notation "wp_apply" uconstr(lem) :=
  cbv beta iota; eapply wp_mono; [eapply lem | cbv beta].

Lemma sf_peak_cash : stat_field peak_cash set_peak_cash.
Proof. split_and!; [by intros n s (?&?&?&?&?&?) | apply stats_ok_set_peak_cash | done]. Qed.
Lemma sf_props_bought : stat_field props_bought set_props_bought.
Proof. split_and!; [by intros n s (?&?&?&?&?&?) | apply stats_ok_set_props_bought | done]. Qed.
Lemma sf_rent_paid : stat_field rent_paid set_rent_paid.
Proof. split_and!; [by intros n s (?&?&?&?&?&?) | apply stats_ok_set_rent_paid | done]. Qed.
Lemma sf_rent_received : stat_field rent_received set_rent_received.
Proof. split_and!; [by intros n s (?&?&?&?&?&?) | apply stats_ok_set_rent_received | done]. Qed.
Lemma sf_go_rewards : stat_field go_rewards set_go_rewards.
Proof. split_and!; [by intros n s (?&?&?&?&?&?) | apply stats_ok_set_go_rewards | done]. Qed.
Lemma sf_total_tax_paid : stat_field total_tax_paid set_total_tax_paid.
Proof. split_and!; [by intros n s (?&?&?&?&?&?) | apply stats_ok_set_total_tax_paid | done]. Qed.

Lemma seat_lookup g i : seat g i ↔ ∃ p, players g !! i = Some p.
Proof. unfold seat. by rewrite <- lookup_lt_is_Some. Qed.

Lemma seat_id g i p : inv g → players g !! i = Some p → id p = i ∧ seat g i.
Proof.
  intros Hinv Hp. split; [by eapply inv_ids|]. apply seat_lookup. eauto.
Qed.

Lemma seat_frame g g' i : frame g g' → seat g i → seat g' i.
Proof. unfold seat. intros ->%frame_length. done. Qed.

Lemma seat_frame_jail g g' i j : frame_jail j g g' → seat g i → seat g' i.
Proof. unfold seat. intros [-> _ _ _ _ _]. done. Qed.

(** A statistics update changes the statistics only. *)
Lemma stat_set_spec field set pid v g Q :
  stat_field field set → inv g → seat g pid →
  (∀ s', stats_ok (length (players g)) s' → timed_out s' = timed_out (stats g) →
         Q tt (set_stats s' g)) →
  wp (stat_set field set pid v) Q g.
Proof.
  intros (Hlen & Hset & Hto) Hinv Hpid HQ. apply wp_stat_set.
  pose proof (inv_stats _ Hinv) as Hs.
  split; [by rewrite (Hlen _ _ Hs)|].
  apply HQ; [|by rewrite Hto].
  apply Hset; [done|]. by rewrite length_insert, (Hlen _ _ Hs).
Qed.

Lemma stat_add_spec field set pid d g Q :
  stat_field field set → inv g → seat g pid →
  (∀ s', stats_ok (length (players g)) s' → timed_out s' = timed_out (stats g) →
         Q tt (set_stats s' g)) →
  wp (stat_add field set pid d) Q g.
Proof.
  intros (Hlen & Hset & Hto) Hinv Hpid HQ. apply wp_stat_add.
  pose proof (inv_stats _ Hinv) as Hs.
  destruct (lookup_lt_is_Some_2 (field (stats g)) pid) as [v Hv].
  { by rewrite (Hlen _ _ Hs). }
  exists v. split; [done|].
  apply HQ; [|by rewrite Hto].
  apply Hset; [done|]. by rewrite length_insert, (Hlen _ _ Hs).
Qed.

Lemma update_peak_spec g i Q :
  inv g → seat g i →
  (∀ s', stats_ok (length (players g)) s' → timed_out s' = timed_out (stats g) →
         Q tt (set_stats s' g)) →
  wp (update_peak i) Q g.
Proof.
  intros Hinv Hi HQ. unfold update_peak.
  destruct (proj1 (seat_lookup _ _) Hi) as [p Hp].
  destruct (seat_id _ _ _ Hinv Hp) as [Hid _].
  do 3 wp_step. apply wp_stat_get.
  pose proof (inv_stats _ Hinv) as Hs.
  destruct (lookup_lt_is_Some_2 (peak_cash (stats g)) (id p)) as [v Hv].
  { rewrite Hid. destruct Hs as (-> & _). done. }
  exists v. split; [done|]. destruct (v <? money p).
  - apply stat_set_spec; [apply sf_peak_cash | done | by rewrite Hid | done].
  - wp_step. replace g with (set_stats (stats g) g) by by destruct g.
    by apply HQ.
Qed.

Lemma credit_spec g i amount source :
  inv g → seat g i → (0 ≤ starting_money g → 0 ≤ amount) →
  wp (_credit i amount source)
     (λ _ g', inv g' ∧ frame g g' ∧ ownership g' = ownership g ∧
              players g' = alter (λ p, set_money (money p + amount) p) i (players g))
     g.
Proof.
  intros Hinv Hi Ham. unfold _credit.
  destruct (proj1 (seat_lookup _ _) Hi) as [p Hp].
  destruct (seat_id _ _ _ Hinv Hp) as [Hid _].
  do 3 wp_step.
  set (g1 := set_players _ g).
  assert (Hinv1 : inv g1).
  { apply inv_alter_player; [done|]. intros q Hq. simpl. split_and!; try done.
    intros Hsm ?. specialize (Ham Hsm). lia. }
  assert (Hfr1 : frame g g1) by by apply frame_alter_player.
  assert (Hp1 : players g1 !! i = Some (set_money (money p + amount) p)).
  { simpl. by rewrite list_lookup_alter_eq, Hp. }
  assert (Hi1 : seat g1 i) by by eapply seat_frame.
  assert (Hpl1 : players g1 = alter (λ p, set_money (money p + amount) p) i (players g)) by done.
  assert (Hown1 : ownership g1 = ownership g) by done.
  clearbody g1. wp_step. wp_step. simpl.
  assert (∀ g2, inv g2 → frame g1 g2 → seat g2 i →
                ownership g2 = ownership g1 → players g2 = players g1 →
                wp (update_peak i)
                   (λ _ g', inv g' ∧ frame g g' ∧ ownership g' = ownership g ∧
                            players g' = alter (λ p, set_money (money p + amount) p) i (players g))
                   g2) as Hpeak.
  { intros g2 Hinv2 Hfr2 Hi2 Hown2 Hpl2. apply update_peak_spec; [done..|].
    intros s' Hs' Hto. simpl. split_and!; [by apply inv_set_stats | | congruence..].
    eapply frame_trans; [done|]. eapply frame_trans; [done|].
    by apply frame_set_stats. }
  destruct source.
  - wp_step. by apply Hpeak; [|apply frame_refl|..].
  - apply stat_add_spec; [apply sf_go_rewards | done | by rewrite Hid |].
    intros s' Hs' Hto.
    apply Hpeak; [by apply inv_set_stats | by apply frame_set_stats | done..].
Qed.

Lemma upd_player_keeps g i f Q :
  inv g →
  (∀ p, players g !! i = Some p →
        id (f p) = id p ∧ bankrupt (f p) = bankrupt p ∧
        properties (f p) = properties p ∧ turn_view (f p) = turn_view p ∧
        (0 ≤ starting_money g → 0 ≤ money p → 0 ≤ money (f p))) →
  (∀ g', inv g' → frame g g' → players g' = alter f i (players g) →
         ownership g' = ownership g → stats g' = stats g → Q tt g') →
  wp (upd_player i f) Q g.
Proof.
  intros Hinv Hf HQ. wp_step. apply HQ; try done.
  - apply inv_alter_player; [done|]. intros p Hp. by destruct (Hf p Hp) as (?&?&?&?&?).
  - apply frame_alter_player. intros p Hp. by destruct (Hf p Hp) as (?&?&?&?&?).
Qed.

Lemma move_steps_spec g i steps :
  inv g → seat g i →
  wp (_move_steps i steps)
     (λ _ g', inv g' ∧ frame g g' ∧ ownership g' = ownership g ∧
              ∀ p, players g !! i = Some p →
                   ∃ p', players g' !! i = Some p' ∧
                         moved ((position p + steps) mod BOARD_SIZE) p p') g.
Proof.
  intros Hinv Hi. unfold _move_steps.
  destruct (proj1 (seat_lookup _ _) Hi) as [p Hp].
  do 3 wp_step.
  set (new := (position p + steps) mod BOARD_SIZE).
  assert (wp (if (new <? position p) || (new =? 0) && (0 <? steps)
              then if negb (new =? 0) then _credit i GO_REWARD src_go else ret tt
              else ret tt)
             (λ _ g', inv g' ∧ frame g g' ∧ ownership g' = ownership g ∧
                ∃ p', players g' !! i = Some p' ∧ moved (position p) p p') g)
    as Hcredit.
  { assert (wp (ret tt) (λ _ g', inv g' ∧ frame g g' ∧ ownership g' = ownership g ∧
                ∃ p', players g' !! i = Some p' ∧ moved (position p) p p') g)
      as Hret.
    { wp_step. split_and!; [done | apply frame_refl | done |]. by exists p. }
    destruct (_ || _); [|done]. destruct (negb _); [|done].
    wp_apply credit_spec; [done | done | by unfold GO_REWARD |].
    intros _ g1 (Hinv1 & Hfr1 & Hown1 & Hpl1). split_and!; try done.
    eexists. rewrite Hpl1, list_lookup_alter_eq, Hp. by split. }
  eapply wp_mono; [exact Hcredit|]. cbv beta.
  intros _ g1 (Hinv1 & Hfr1 & Hown1 & p1 & Hp1 & Hpos1 & Hb1 & Hprops1 & Hid1).
  apply upd_player_keeps; [done | by intros q Hq; simpl |].
  intros g2 Hinv2 Hfr2 Hpl2 Hown2 _.
  split_and!; [done | by eapply frame_trans | congruence |].
  intros p0 Hp0. assert (p0 = p) as -> by congruence.
  exists (set_position new p1). rewrite Hpl2, list_lookup_alter_eq, Hp1. done.
Qed.

Lemma move_to_spec g i target :
  inv g → seat g i →
  wp (_move_to i target)
     (λ _ g', inv g' ∧ frame g g' ∧ ownership g' = ownership g ∧
              ∀ p, players g !! i = Some p →
                   ∃ p', players g' !! i = Some p' ∧ moved target p p') g.
Proof.
  intros Hinv Hi. unfold _move_to.
  destruct (proj1 (seat_lookup _ _) Hi) as [p Hp].
  do 3 wp_step.
  assert (wp (if target <? position p then _credit i GO_REWARD src_go else ret tt)
             (λ _ g', inv g' ∧ frame g g' ∧ ownership g' = ownership g ∧
                ∃ p', players g' !! i = Some p' ∧ moved (position p) p p') g)
    as Hcredit.
  { destruct (_ <? _).
    - wp_apply credit_spec; [done | done | by unfold GO_REWARD |].
      intros _ g1 (Hinv1 & Hfr1 & Hown1 & Hpl1). split_and!; try done.
      eexists. rewrite Hpl1, list_lookup_alter_eq, Hp. by split.
    - wp_step. split_and!; [done | apply frame_refl | done |]. by exists p. }
  eapply wp_mono; [exact Hcredit|]. cbv beta.
  intros _ g1 (Hinv1 & Hfr1 & Hown1 & p1 & Hp1 & Hpos1 & Hb1 & Hprops1 & Hid1).
  apply upd_player_keeps; [done | by intros q Hq; simpl |].
  intros g2 Hinv2 Hfr2 Hpl2 Hown2 _.
  split_and!; [done | by eapply frame_trans | congruence |].
  intros p0 Hp0. assert (p0 = p) as -> by congruence.
  exists (set_position target p1). rewrite Hpl2, list_lookup_alter_eq, Hp1. done.
Qed.

Lemma send_to_jail_spec g i :
  inv g → seat g i → wp (_send_to_jail i) (keeps_jail i g) g.
Proof.
  intros Hinv Hi. unfold _send_to_jail.
  destruct (proj1 (seat_lookup _ _) Hi) as [p Hp].
  do 7 wp_step. split.
  - repeat (apply inv_alter_player; [|by intros q Hq; simpl]). done.
  - split; simpl; try done.
    + by rewrite !length_alter.
    + right. eexists. rewrite !list_lookup_alter_eq, Hp. simpl. done.
Qed.

(** * Liquidation *)

Lemma cash_of_refl i g : cash_of i g g.
Proof.
  destruct (players g !! i) as [p|] eqn:Hp.
  - exists (money p). symmetry. apply list_eq. intros j.
    rewrite list_lookup_alter. case_decide; [subst j|done].
    rewrite Hp. simpl. by destruct p.
  - exists 0. symmetry. apply list_eq. intros j.
    rewrite list_lookup_alter. case_decide; [subst j|done]. by rewrite Hp.
Qed.

Lemma cash_of_trans i g1 g2 g3 : cash_of i g1 g2 → cash_of i g2 g3 → cash_of i g1 g3.
Proof.
  intros [m1 H1] [m2 H2]. exists m2. rewrite H2, H1.
  apply list_eq. intros j. destruct (decide (i = j)) as [<-|Hne].
  - rewrite !list_lookup_alter_eq. by destruct (players g1 !! i).
  - by rewrite !list_lookup_alter_ne.
Qed.

Lemma cash_of_alter i g g' f :
  players g' = alter (λ p, set_money (f p) p) i (players g) → cash_of i g g'.
Proof.
  intros H. unfold cash_of. rewrite H.
  destruct (players g !! i) as [p|] eqn:Hp.
  - exists (f p). apply list_eq. intros j. rewrite !list_lookup_alter.
    case_decide; [subst j|done]. by rewrite Hp.
  - exists 0. apply list_eq. intros j. rewrite !list_lookup_alter.
    case_decide; [subst j|done]. by rewrite Hp.
Qed.

Lemma cash_of_lookup i g g' j p' :
  cash_of i g g' → players g' !! j = Some p' →
  ∃ p, players g !! j = Some p ∧ properties p' = properties p ∧
       bankrupt p' = bankrupt p ∧ id p' = id p ∧ position p' = position p ∧
       (j ≠ i → p' = p).
Proof.
  intros [m ->] (p & Hp & ->)%alter_lookup_Some. exists p.
  case_decide; [subst j|]; split_and!; try done.
Qed.

Lemma cash_of_lookup_fwd i g g' j p :
  cash_of i g g' → players g !! j = Some p →
  ∃ p', players g' !! j = Some p' ∧ properties p' = properties p ∧
        bankrupt p' = bankrupt p ∧ id p' = id p ∧ position p' = position p ∧
        (j ≠ i → p' = p).
Proof.
  intros [m ->] Hp.
  exists (if decide (i = j) then set_money m p else p). split.
  { apply alter_lookup_Some. eauto. }
  case_decide; [subst j|]; split_and!; try done.
Qed.

Lemma ledger_sold_refl g : ledger_sold g g.
Proof. intros pos ow How. eauto. Qed.

Lemma ledger_sold_trans g1 g2 g3 :
  ledger_sold g1 g2 → ledger_sold g2 g3 → ledger_sold g1 g3.
Proof.
  intros H1 H2 pos ow3 H3. destruct (H2 _ _ H3) as (ow2 & How2 & Hb2).
  destruct (H1 _ _ How2) as (ow1 & How1 & Hb1). exists ow1. split; [done|].
  destruct Hb2 as [-> | ->]; [done | by right].
Qed.

(** The square at [pos] carries no building unless it is a property. *)
Lemma no_building_off_property g pos ow :
  inv g → ownership g !! pos = Some ow → is_property pos = false →
  buildings ow = 0.
Proof.
  intros Hinv How Hnp. destruct (decide (buildings ow = 0)) as [|Hb]; [done|].
  pose proof (rec_built_property _ _ (inv_record _ Hinv _ _ How) Hb). congruence.
Qed.

Lemma sell_buildings_spec i needed props :
  ∀ g, inv g → seat g i →
       (∀ pos, pos ∈ props → purchasable pos = true) →
       wp (sell_buildings i needed props)
          (λ _ g', inv g' ∧ frame g g' ∧ cash_of i g g' ∧ ledger_sold g g' ∧
             ∀ p', players g' !! i = Some p' → money p' < needed →
                   ∀ pos ow, pos ∈ props → ownership g' !! pos = Some ow →
                             buildings ow = 0) g.
Proof.
  induction props as [|pos rest IH]; intros g Hinv Hi Hprops; simpl.
  { wp_step. split_and!; [done | apply frame_refl | apply cash_of_refl
                          | apply ledger_sold_refl |].
    intros p' _ _ pos ow Hin. by apply elem_of_nil in Hin. }
  destruct (proj1 (seat_lookup _ _) Hi) as [p Hp].
  do 2 wp_step. destruct (needed <=? money p) eqn:Hneed.
  { wp_step. split_and!; [done | apply frame_refl | apply cash_of_refl
                          | apply ledger_sold_refl |].
    intros p' Hp' Hlt. apply Z.leb_le in Hneed.
    assert (p' = p) as -> by congruence. lia. }
  destruct (purchasable_square pos) as (sq & price & m & Hsq & _);
    [apply Hprops; set_solver|].
  destruct (proj2 (inv_dom _ Hinv pos)) as [ow How]; [apply Hprops; set_solver|].
  do 5 wp_step.
  (* the state after this square and the facts the rest of the loop needs *)
  assert (∀ g1, inv g1 → frame g g1 → cash_of i g g1 → ledger_sold g g1 →
                (∀ ow1, ownership g1 !! pos = Some ow1 → buildings ow1 = 0) →
                wp (sell_buildings i needed rest)
                   (λ _ g', inv g' ∧ frame g g' ∧ cash_of i g g' ∧ ledger_sold g g' ∧
                      ∀ p', players g' !! i = Some p' → money p' < needed →
                            ∀ pos0 ow0, pos0 ∈ pos :: rest →
                                        ownership g' !! pos0 = Some ow0 →
                                        buildings ow0 = 0) g1) as Hrest.
  { intros g1 Hinv1 Hfr1 Hcash1 Hsold1 Hzero1.
    wp_apply IH; [done | by eapply seat_frame | intros; apply Hprops; set_solver |].
    intros _ g' (Hinv' & Hfr' & Hcash' & Hsold' & Hall').
    split_and!; [done | by eapply frame_trans | by eapply cash_of_trans
                 | by eapply ledger_sold_trans |].
    intros p' Hp' Hlt pos0 ow0 [->|Hin]%elem_of_cons How0; [|by eauto].
    destruct (Hsold' _ _ How0) as (ow1 & How1 & [-> | ->]); [by eauto | done]. }
  lazymatch goal with
  | |- wp _ ?Q _ => assert (Hskip : buildings ow = 0 → wp (ret tt) Q g)
  end.
  { intros Hz. wp_step. apply Hrest;
      [done | apply frame_refl | apply cash_of_refl | apply ledger_sold_refl |].
    intros ow1 How1. congruence. }
  pose proof (inv_range _ Hinv _ _ How) as Hrange.
  destruct sq as [t|a|grp pr mo rents|pr mo rents|pr mo];
    try (apply Hskip; eapply no_building_off_property; [done | done |];
         unfold is_property; by rewrite Hsq).
  destruct (0 <? buildings ow) eqn:Hb; [|apply Hskip; apply Z.ltb_ge in Hb; lia].
  apply Z.ltb_lt in Hb.
  destruct (property_square _ _ _ _ _ Hsq) as (Hisp & _ & _ & Hhc & _).
  do 3 wp_step.
  set (refund := (buildings ow * house_cost (GROUPS grp)) `div` 2).
  assert (0 ≤ refund) as Hrefund by (apply Z.div_pos; nia).
  set (g1 := set_players _ g).
  assert (Hinv1 : inv g1).
  { apply inv_alter_player; [done|]. intros q Hq. simpl. split_and!; try done. lia. }
  assert (Hfr1 : frame g g1) by by apply frame_alter_player.
  apply Hrest.
  - apply inv_alter_own; [done|]. intros ow0 How0. simpl. split_and!; try done.
    pose proof (inv_record _ Hinv1 _ _ How0) as [? ? ?].
    split; simpl; [lia | done | done].
  - eapply frame_trans; [done|]. apply frame_set_ownership.
  - by apply (cash_of_alter _ _ _ (λ p, money p + refund)).
  - intros q ow'. simpl. rewrite lookup_alter. case_decide; [subst q|by eauto].
    rewrite How. simpl. intros [= <-]. exists ow. split; [done|]. by right.
  - intros ow1. simpl. rewrite lookup_alter_eq, How. simpl. by intros [= <-].
Qed.

Lemma mortgage_properties_spec i needed props :
  ∀ g, inv g → seat g i →
       (∀ pos, pos ∈ props → ∃ p, players g !! i = Some p ∧ pos ∈ properties p) →
       wp (mortgage_properties i needed props)
          (λ _ g', inv g' ∧ frame g g' ∧ cash_of i g g' ∧ ledger_sold g g' ∧
             ∀ p p', players g !! i = Some p → players g' !! i = Some p' →
                     money p ≤ money p') g.
Proof.
  induction props as [|pos rest IH]; intros g Hinv Hi Hprops; simpl.
  { wp_step. split_and!; [done | apply frame_refl | apply cash_of_refl
                          | apply ledger_sold_refl |].
    intros p p' Hp Hp'. assert (p' = p) as -> by congruence. lia. }
  destruct (proj1 (seat_lookup _ _) Hi) as [p Hp].
  do 2 wp_step. destruct (needed <=? money p) eqn:Hneed.
  { wp_step. split_and!; [done | apply frame_refl | apply cash_of_refl
                          | apply ledger_sold_refl |].
    intros p0 p' Hp0 Hp'. assert (p' = p0) as -> by congruence. lia. }
  destruct (Hprops pos) as (p0 & Hp0 & Hin); [set_solver|].
  assert (p0 = p) as -> by congruence.
  destruct (inv_props _ Hinv _ _ _ Hp Hin) as (ow & How & Howner).
  assert (Hpurch : purchasable pos = true) by (apply (inv_dom _ Hinv); eauto).
  destruct (purchasable_square pos Hpurch) as (sq & price & m & Hsq & _ & Hm & _ & Hm0).
  do 5 wp_step.
  assert (∀ g1, inv g1 → frame g g1 → cash_of i g g1 → ledger_sold g g1 →
                (∀ p1, players g1 !! i = Some p1 → money p ≤ money p1) →
                wp (mortgage_properties i needed rest)
                   (λ _ g', inv g' ∧ frame g g' ∧ cash_of i g g' ∧ ledger_sold g g' ∧
                      ∀ p p', players g !! i = Some p → players g' !! i = Some p' →
                              money p ≤ money p') g1) as Hrest.
  { intros g1 Hinv1 Hfr1 Hcash1 Hsold1 Hmono1.
    wp_apply IH; [done | by eapply seat_frame | |].
    - intros q Hq. destruct (Hprops q) as (p1 & Hp1 & Hin1); [set_solver|].
      destruct (cash_of_lookup_fwd _ _ _ _ _ Hcash1 Hp1) as (p1' & Hp1' & Hpr & _).
      exists p1'. split; [done|]. by rewrite Hpr.
    - intros _ g' (Hinv' & Hfr' & Hcash' & Hsold' & Hmono').
      split_and!; [done | by eapply frame_trans | by eapply cash_of_trans
                   | by eapply ledger_sold_trans |].
      intros q q' Hq Hq'. assert (q = p) as -> by congruence.
      destruct (cash_of_lookup _ _ _ _ _ Hcash' Hq') as (p1 & Hp1 & _).
      specialize (Hmono1 _ Hp1). specialize (Hmono' _ _ Hp1 Hq'). lia. }
  destruct (negb (mortgaged ow) && (buildings ow =? 0)) eqn:Hcond.
  - apply andb_prop in Hcond as [_ Hb%Z.eqb_eq].
    wp_step. rewrite Hm. simpl. do 4 wp_step.
    set (g1 := set_players _ g).
    assert (Hinv1 : inv g1).
    { apply inv_alter_player; [done|]. intros q Hq. simpl. split_and!; try done. lia. }
    assert (Hfr1 : frame g g1) by by apply frame_alter_player.
    apply Hrest.
    + apply inv_alter_own; [done|]. intros ow0 How0. simpl.
      assert (ow0 = ow) as -> by (simpl in How0; congruence).
      split_and!; [done | | apply (inv_range _ Hinv _ _ How)..].
      split; simpl; [lia | congruence | congruence].
    + eapply frame_trans; [done|]. apply frame_set_ownership.
    + by apply (cash_of_alter _ _ _ (λ p, money p + m)).
    + intros q ow'. simpl. rewrite lookup_alter. case_decide; [subst q|by eauto].
      rewrite How. simpl. intros [= <-]. exists ow. split; [done|]. by left.
    + intros p1. simpl. rewrite list_lookup_alter_eq, Hp. simpl.
      intros [= <-]. simpl. lia.
  - wp_step. apply Hrest;
      [done | apply frame_refl | apply cash_of_refl | apply ledger_sold_refl |].
    intros p1 Hp1. assert (p1 = p) as -> by congruence. lia.
Qed.

(** [_raise_funds] keeps the game well formed, changes no player but the
    cash of [i], and leaves [i] either with the cash needed or with no
    building on any of its squares. *)
Lemma raise_funds_spec g i needed :
  inv g → seat g i →
  wp (_raise_funds i needed)
     (λ _ g', inv g' ∧ frame g g' ∧ cash_of i g g' ∧
              (∀ p', players g' !! i = Some p' → money p' < needed →
                     liquidated g' i)) g.
Proof.
  intros Hinv Hi. unfold _raise_funds.
  destruct (proj1 (seat_lookup _ _) Hi) as [p Hp].
  do 3 wp_step.
  wp_apply sell_buildings_spec; [done | done | |].
  { intros pos Hin. destruct (inv_props _ Hinv _ _ _ Hp Hin) as (ow & How & _).
    apply (inv_dom _ Hinv). eauto. }
  intros _ g1 (Hinv1 & Hfr1 & Hcash1 & Hsold1 & Hall1).
  destruct (cash_of_lookup_fwd _ _ _ _ _ Hcash1 Hp) as (p1 & Hp1 & Hpr1 & _).
  do 2 wp_step.
  wp_apply mortgage_properties_spec; [done | by eapply seat_frame | |].
  { intros pos Hin. eauto. }
  intros _ g2 (Hinv2 & Hfr2 & Hcash2 & Hsold2 & Hmono2).
  split_and!; [done | by eapply frame_trans | by eapply cash_of_trans |].
  intros p2 Hp2 Hlt q pos ow Hq Hin How. assert (q = p2) as -> by congruence.
  specialize (Hmono2 _ _ Hp1 Hp2).
  destruct (cash_of_lookup _ _ _ _ _ Hcash2 Hp2) as (p1' & Hp1' & Hpr2 & _).
  assert (p1' = p1) as -> by congruence.
  destruct (Hsold2 _ _ How) as (ow1 & How1 & [-> | ->]); [|done].
  eapply (Hall1 p1); [done | lia | | done]. rewrite <- Hpr1, <- Hpr2. done.
Qed.

(** * Bankruptcy *)

Lemma same_rest_refl g : same_rest g g.
Proof. by repeat split. Qed.

Lemma transfer_properties_spec c props :
  ∀ g cp, players g !! c = Some cp →
    (∀ pos, pos ∈ props → is_Some (ownership g !! pos)) →
    wp (transfer_properties c props)
       (λ _ g', players g' =
                  alter (λ q, set_properties (properties q ++ props) q) c (players g) ∧
                (∀ pos, ownership g' !! pos =
                        if decide (pos ∈ props)
                        then transferred (id cp) <$> ownership g !! pos
                        else ownership g !! pos) ∧
                stats g' = stats g ∧ same_rest g g') g.
Proof.
  induction props as [|pos rest IH]; intros g cp Hcp Hdom; simpl.
  { wp_step. split_and!; [|done|done|apply same_rest_refl].
    symmetry. apply list_eq. intros j. rewrite list_lookup_alter.
    case_decide; [subst j|done]. rewrite Hcp. simpl.
    rewrite app_nil_r. by destruct cp. }
  destruct (Hdom pos) as [ow How]; [constructor|].
  do 10 wp_step.
  wp_apply (IH _ (set_properties (properties cp ++ [pos]) cp)).
  { simpl. by rewrite list_lookup_alter_eq, Hcp. }
  { intros q Hq. simpl. rewrite !lookup_alter.
    repeat case_decide; rewrite ?fmap_is_Some; apply Hdom; by constructor. }
  intros _ g' (Hpl & Hown & Hst & Hrest). simpl in *.
  split_and!; [| |done|done].
  - rewrite Hpl. apply list_eq. intros j.
    destruct (decide (c = j)) as [<-|Hne].
    + rewrite !list_lookup_alter_eq, Hcp. simpl. by rewrite <- app_assoc.
    + by rewrite !list_lookup_alter_ne.
  - intros q. rewrite Hown. rewrite !lookup_alter.
    destruct (decide (q = pos)) as [->|Hne].
    + rewrite (decide_True (P := pos ∈ pos :: rest)) by constructor.
      rewrite !(decide_True (P := pos = pos)) by done.
      rewrite How. simpl. by case_decide.
    + rewrite !(decide_False (P := pos = q)) by done.
      destruct (decide (q ∈ rest)).
      * rewrite decide_True by (by constructor). done.
      * rewrite decide_False by (intros [?|?]%elem_of_cons; done). done.
Qed.

Lemma release_properties_spec props :
  ∀ g, (∀ pos, pos ∈ props → is_Some (ownership g !! pos)) →
    wp (release_properties props)
       (λ _ g', players g' = players g ∧
                (∀ pos, ownership g' !! pos =
                        if decide (pos ∈ props)
                        then released <$> ownership g !! pos
                        else ownership g !! pos) ∧
                stats g' = stats g ∧ same_rest g g') g.
Proof.
  induction props as [|pos rest IH]; intros g Hdom; simpl.
  { wp_step. split_and!; [done|done|done|apply same_rest_refl]. }
  destruct (Hdom pos) as [ow How]; [constructor|].
  do 8 wp_step.
  wp_apply IH.
  { intros q Hq. simpl. rewrite !lookup_alter.
    repeat case_decide; rewrite ?fmap_is_Some; apply Hdom; by constructor. }
  intros _ g' (Hpl & Hown & Hst & Hrest). simpl in *.
  split_and!; [done| |done|done].
  intros q. rewrite Hown. rewrite !lookup_alter.
  destruct (decide (q = pos)) as [->|Hne].
  - rewrite (decide_True (P := pos ∈ pos :: rest)) by constructor.
    rewrite !(decide_True (P := pos = pos)) by done.
    rewrite How. simpl. by case_decide.
  - rewrite !(decide_False (P := pos = q)) by done.
    destruct (decide (q ∈ rest)).
    + rewrite decide_True by (by constructor). done.
    + rewrite decide_False by (intros [?|?]%elem_of_cons; done). done.
Qed.

Lemma solvent_creditor_spec g creditor Q :
  (∀ c, creditor = Some c → is_Some (players g !! c)) →
  Q (match creditor with
     | Some c => match players g !! c with
                 | Some cp => if bankrupt cp then None else Some c
                 | None => None
                 end
     | None => None
     end) g →
  wp (solvent_creditor creditor) Q g.
Proof.
  intros Hc HQ. destruct creditor as [c|]; simpl; [|by wp_step].
  destruct (Hc c eq_refl) as [cp Hcp]. rewrite Hcp in HQ.
  do 2 wp_step. destruct (bankrupt cp); simpl; by wp_step.
Qed.

(** The exact effect of [_bankrupt]. *)
Lemma bankrupt_exact g i p creditor :
  players g !! i = Some p →
  (∀ pos, pos ∈ properties p → is_Some (ownership g !! pos)) →
  (∀ c, creditor = Some c → is_Some (players g !! c)) →
  wp (_bankrupt i creditor)
     (λ _ g',
        stats g' = set_bankrupt_order (bankrupt_order (stats g) ++ [id p]) (stats g) ∧
        same_rest g g' ∧
        match taker g i creditor with
        | Some c =>
            ∃ cp, players g !! c = Some cp ∧ bankrupt cp = false ∧ c ≠ i ∧
                  players g' = alter wiped i (alter (inherits p) c (players g)) ∧
                  ∀ pos, ownership g' !! pos =
                         if decide (pos ∈ properties p)
                         then transferred (id cp) <$> ownership g !! pos
                         else ownership g !! pos
        | None =>
            players g' = alter wiped i (players g) ∧
            ∀ pos, ownership g' !! pos =
                   if decide (pos ∈ properties p)
                   then released <$> ownership g !! pos
                   else ownership g !! pos
        end) g.
Proof.
  intros Hp Hdom Hcred. unfold _bankrupt.
  do 3 wp_step.
  apply (proj2 (wp_player _ _ _)). exists (set_bankrupt true p). split.
  { simpl. by rewrite list_lookup_alter_eq, Hp. }
  do 3 wp_step.
  apply solvent_creditor_spec.
  { intros c Hc. simpl. rewrite list_lookup_alter.
    destruct (Hcred c Hc) as [cp Hcp]. case_decide; [subst c|by eauto].
    rewrite Hp. by eexists. }
  assert (match creditor with
          | Some c =>
              match (players (set_stats
                      (set_bankrupt_order (bankrupt_order (stats g) ++ [id p]) (stats g))
                      (set_players (alter (set_bankrupt true) i (players g)) g))) !! c with
              | Some cp => if bankrupt cp then None else Some c
              | None => None
              end
          | None => None
          end = taker g i creditor) as Htaker.
  { unfold taker. destruct creditor as [c|]; [|done]. simpl.
    rewrite list_lookup_alter. case_decide as Heq.
    - subst c. rewrite Hp. simpl. by rewrite decide_True.
    - by rewrite decide_False. }
  simpl in Htaker. simpl. rewrite Htaker. clear Htaker.
  destruct (taker g i creditor) as [c|] eqn:Htk.
  - assert (∃ cp, players g !! c = Some cp ∧ bankrupt cp = false ∧ c ≠ i)
      as (cp & Hcp & Hsolv & Hne).
    { unfold taker in Htk. destruct creditor as [c'|]; [|done].
      case_decide; [done|]. destruct (players g !! c') as [cp|] eqn:Hcp; [|done].
      destruct (bankrupt cp) eqn:Hb; [done|]. injection Htk as <-. eauto. }
    do 3 wp_step.
    wp_apply (transfer_properties_spec _ _ _ (set_money (money cp + money p) cp)).
    { simpl. rewrite list_lookup_alter_eq, list_lookup_alter_ne, Hcp by done. done. }
    { done. }
    intros _ g3 (Hpl3 & Hown3 & Hst3 & Hrest3). simpl in *.
    do 3 wp_step. simpl. split_and!; [done | | ].
    { destruct Hrest3 as (?&?&?&?&?&?&?). by repeat split. }
    exists cp. split_and!; [done | done | done | | done].
    rewrite Hpl3. apply list_eq. intros j.
    destruct (decide (j = i)) as [->|Hji].
    + rewrite !list_lookup_alter_eq, !(list_lookup_alter_ne _ _ c i) by done.
      rewrite list_lookup_alter_eq, Hp. done.
    + rewrite !(list_lookup_alter_ne _ _ i j) by done.
      destruct (decide (j = c)) as [->|Hjc].
      * rewrite !list_lookup_alter_eq, list_lookup_alter_ne, Hcp by done. done.
      * rewrite !(list_lookup_alter_ne _ _ c j) by done.
        by rewrite list_lookup_alter_ne.
  - wp_step. wp_apply release_properties_spec; [done|].
    intros _ g3 (Hpl3 & Hown3 & Hst3 & Hrest3). simpl in *.
    do 3 wp_step. simpl. split_and!; [done | | | done].
    { destruct Hrest3 as (?&?&?&?&?&?&?). by repeat split. }
    rewrite Hpl3. apply list_eq. intros j.
    destruct (decide (j = i)) as [->|Hji].
    + rewrite !list_lookup_alter_eq, Hp. done.
    + by rewrite !list_lookup_alter_ne.
Qed.

(** C2.  When player [i] is declared bankrupt: the player is flagged and
    recorded in the bankruptcy order, and ends with no square and cash 0;
    a creditor that is another, solvent player receives the cash the
    player had left and every square of the player, each flagged
    mortgaged whatever it was before; without a creditor every square of
    the player goes back to the bank, with no owner, no building and no
    mortgage. *)
Theorem bankruptcy_settlement g i p creditor :
  players g !! i = Some p →
  (∀ pos, pos ∈ properties p → is_Some (ownership g !! pos)) →
  (∀ c, creditor = Some c → is_Some (players g !! c)) →
  ∃ g', _bankrupt i creditor g = Ok (tt, g') ∧
    (∃ p', players g' !! i = Some p' ∧ bankrupt p' = true ∧
           properties p' = [] ∧ money p' = 0) ∧
    bankrupt_order (stats g') = bankrupt_order (stats g) ++ [id p] ∧
    (∀ c cp, creditor = Some c → c ≠ i → players g !! c = Some cp →
             bankrupt cp = false →
       (∃ cp', players g' !! c = Some cp' ∧ money cp' = money cp + money p ∧
               properties cp' = properties cp ++ properties p) ∧
       (∀ pos ow, pos ∈ properties p → ownership g !! pos = Some ow →
          ownership g' !! pos = Some (mkOwnership (Some (id cp)) (buildings ow) true))) ∧
    (creditor = None →
       ∀ pos, pos ∈ properties p →
              ownership g' !! pos = Some (mkOwnership None 0 false)).
Proof.
  intros Hp Hdom Hcred.
  pose proof (bankrupt_exact g i p creditor Hp Hdom Hcred) as Hwp.
  apply wp_ok in Hwp as ([] & g' & Hrun & Hst & Hrest & Hcase).
  exists g'. split; [done|].
  assert (∃ p', players g' !! i = Some p' ∧ bankrupt p' = true ∧
                properties p' = [] ∧ money p' = 0) as Hp'.
  { exists (wiped p). split; [|done].
    destruct (taker g i creditor) as [c|].
    - destruct Hcase as (cp & Hcp & _ & Hne & -> & _).
      by rewrite list_lookup_alter_eq, list_lookup_alter_ne, Hp.
    - destruct Hcase as [-> _]. by rewrite list_lookup_alter_eq, Hp. }
  split; [done|]. split; [by rewrite Hst|]. split.
  - intros c cp -> Hne Hcp Hsolv.
    unfold taker in Hcase. rewrite decide_False, Hcp, Hsolv in Hcase by done.
    destruct Hcase as (cp' & Hcp' & _ & _ & Hpl & Hown).
    assert (cp' = cp) as -> by congruence. split.
    + exists (inherits p cp). split; [|done].
      by rewrite Hpl, list_lookup_alter_ne, list_lookup_alter_eq, Hcp.
    + intros pos ow Hin How. by rewrite Hown, decide_True, How.
  - intros ->. simpl in Hcase. destruct Hcase as [_ Hown].
    intros pos Hin. rewrite Hown, decide_True by done.
    destruct (Hdom pos Hin) as [ow ->]. done.
Qed.

Lemma stats_ok_set_bankrupt_order n s l :
  stats_ok n (set_bankrupt_order l s) ↔ stats_ok n s.
Proof. done. Qed.

Lemma taker_solvent g i creditor c :
  taker g i creditor = Some c →
  ∃ cp, players g !! c = Some cp ∧ bankrupt cp = false ∧ c ≠ i.
Proof.
  unfold taker. destruct creditor as [c'|]; [|done].
  case_decide; [done|]. destruct (players g !! c') as [cp|] eqn:Hcp; [|done].
  destruct (bankrupt cp) eqn:Hb; [done|]. intros [= <-]. eauto.
Qed.

(** The effect of [_bankrupt] in a well-formed game, seat by seat and
    square by square. *)
Lemma bankrupt_shape g i p creditor :
  (∀ j q, players g !! j = Some q → id q = j) →
  players g !! i = Some p →
  (∀ pos, pos ∈ properties p → is_Some (ownership g !! pos)) →
  (∀ c, creditor = Some c → is_Some (players g !! c)) →
  wp (_bankrupt i creditor)
     (λ _ g',
        stats g' = set_bankrupt_order (bankrupt_order (stats g) ++ [id p]) (stats g) ∧
        same_rest g g' ∧
        players g' = imap (settle g i p creditor) (players g) ∧
        ∀ pos, ownership g' !! pos =
               if decide (pos ∈ properties p)
               then settle_record g i creditor <$> ownership g !! pos
               else ownership g !! pos) g.
Proof.
  intros Hids Hp Hdom Hcred.
  wp_apply bankrupt_exact; [done..|].
  intros _ g' (Hst & Hrest & Hcase). split_and!; [done | done | |].
  - unfold settle. apply list_eq. intros j. rewrite list_lookup_imap.
    destruct (taker g i creditor) as [c|] eqn:Htk.
    + destruct Hcase as (cp & Hcp & Hsolv & Hne & -> & _).
      destruct (decide (j = i)) as [->|Hji].
      * rewrite list_lookup_alter_eq, list_lookup_alter_ne by done.
        by destruct (players g !! i).
      * rewrite list_lookup_alter_ne by done.
        destruct (decide (j = c)) as [->|Hjc].
        -- rewrite list_lookup_alter_eq. by destruct (players g !! c).
        -- rewrite list_lookup_alter_ne by done. by destruct (players g !! j).
    + destruct Hcase as [-> _].
      destruct (decide (j = i)) as [->|Hji].
      * rewrite list_lookup_alter_eq. by destruct (players g !! i).
      * rewrite list_lookup_alter_ne by done. by destruct (players g !! j).
  - intros pos. unfold settle_record.
    destruct (taker g i creditor) as [c|] eqn:Htk.
    + destruct Hcase as (cp & Hcp & _ & _ & _ & ->).
      by rewrite (Hids _ _ Hcp).
    + by destruct Hcase as [_ ->].
Qed.

(** [_bankrupt] on a liquidated player keeps the game well formed. *)
Lemma bankrupt_spec g i creditor :
  inv g → seat g i → (∀ c, creditor = Some c → seat g c) → liquidated g i →
  wp (_bankrupt i creditor) (keeps g) g.
Proof.
  intros Hinv Hi Hcred Hliq.
  destruct (proj1 (seat_lookup _ _) Hi) as [p Hp].
  destruct Hinv as [Hids Hdm Hprops Howner Hrec Hrange Hcash Hstats Hc Hm].
  assert (Hmine : ∀ pos, pos ∈ properties p →
            ∃ ow, ownership g !! pos = Some ow ∧ owner ow = Some i ∧ buildings ow = 0).
  { intros pos Hin. destruct (Hprops _ _ _ Hp Hin) as (ow & How & Ho).
    exists ow. split_and!; [done | done |]. by eapply Hliq. }
  wp_apply bankrupt_shape; [done | done | |  |].
  { intros pos Hin. destruct (Hmine _ Hin) as (ow & -> & _). done. }
  { intros c Hcr. apply lookup_lt_is_Some. by apply Hcred. }
  intros ? g' (Hst & Hrest & Hpl & Hown). unfold keeps.
  destruct Hrest as (Hcd & Hmd & Hrc & Htc & Hsm & Hnp & Hrng).
  assert (Hlook : ∀ j q', players g' !! j = Some q' ↔
                          ∃ q, players g !! j = Some q ∧ q' = settle g i p creditor j q).
  { intros j q'. rewrite Hpl, list_lookup_imap.
    destruct (players g !! j) as [q|]; simpl; split.
    - intros [= <-]. eauto.
    - by intros (? & [= <-] & ->).
    - done.
    - by intros (? & ? & _). }
  (* what [settle] keeps of a player other than [i] *)
  assert (Hkeep : ∀ j q, j ≠ i →
            id (settle g i p creditor j q) = id q ∧
            bankrupt (settle g i p creditor j q) = bankrupt q ∧
            (∀ pos, pos ∈ properties q → pos ∈ properties (settle g i p creditor j q)) ∧
            (∀ pos, pos ∈ properties (settle g i p creditor j q) →
                    pos ∈ properties q ∨
                    pos ∈ properties p ∧ taker g i creditor = Some j) ∧
            (0 ≤ money q → 0 ≤ money p → 0 ≤ money (settle g i p creditor j q))).
  { intros j q Hji. unfold settle. rewrite decide_False by done.
    destruct (taker g i creditor) as [c|]; [|by split_and!; auto].
    case_decide; [subst c|by split_and!; auto]. simpl. split_and!; try done.
    - intros pos Hin. apply elem_of_app. by left.
    - intros pos [Hin|Hin]%elem_of_app; auto.
    - lia. }
  split.
  - split.
    + intros j q' (q & Hq & ->)%Hlook. destruct (decide (j = i)) as [->|Hji].
      * unfold settle. rewrite decide_True by done. simpl. eauto.
      * destruct (Hkeep j q Hji) as (-> & _). eauto.
    + intros pos. rewrite Hown, <- Hdm. case_decide; [|done]. by rewrite fmap_is_Some.
    + intros j q' pos (q & Hq & ->)%Hlook Hin.
      destruct (decide (j = i)) as [->|Hji].
      { unfold settle in Hin. rewrite decide_True in Hin by done.
        by apply elem_of_nil in Hin. }
      destruct (Hkeep j q Hji) as (_ & _ & _ & Hfrom & _).
      rewrite Hown. destruct (Hfrom _ Hin) as [Hold|[Hmy Htk]].
      * destruct (Hprops _ _ _ Hq Hold) as (ow & How & Ho).
        rewrite decide_False; [by eauto|].
        intros Hmy. destruct (Hmine _ Hmy) as (ow' & How' & Ho' & _). congruence.
      * destruct (Hmine _ Hmy) as (ow & How & _).
        rewrite decide_True, How by done. simpl. eexists. split; [done|].
        unfold settle_record. by rewrite Htk.
    + intros pos ow' o. rewrite Hown.
      destruct (decide (pos ∈ properties p)) as [Hmy|Hnot].
      * destruct (Hmine _ Hmy) as (ow & How & _). rewrite How. simpl.
        intros [= <-]. unfold settle_record.
        destruct (taker g i creditor) as [c|] eqn:Htk; [|done]. simpl.
        intros [= <-].
        destruct (taker_solvent _ _ _ _ Htk) as (cp & Hcp & Hsolv & Hne).
        exists (settle g i p creditor c cp). split; [apply Hlook; eauto|].
        unfold settle. rewrite decide_False, Htk, decide_True by done.
        split; [done|]. simpl. apply elem_of_app. by right.
      * intros How' Ho'. destruct (Howner _ _ _ How' Ho') as (q & Hq & Hb & Hin).
        assert (o ≠ i) as Hoi.
        { intros ->. assert (q = p) as -> by congruence. done. }
        destruct (Hkeep o q Hoi) as (_ & Hbk & Hsub & _).
        exists (settle g i p creditor o q).
        split_and!; [apply Hlook; eauto | congruence | auto].
    + intros pos ow'. rewrite Hown.
      destruct (decide (pos ∈ properties p)) as [Hmy|Hnot]; [|by eauto].
      destruct (Hmine _ Hmy) as (ow & How & Ho & Hb). rewrite How. simpl.
      intros [= <-]. unfold settle_record.
      destruct (taker g i creditor); split; simpl; intros; try done; lia.
    + intros pos ow'. rewrite Hown.
      destruct (decide (pos ∈ properties p)) as [Hmy|Hnot]; [|by eauto].
      destruct (Hmine _ Hmy) as (ow & How & Ho & Hb). rewrite How. simpl.
      intros [= <-]. unfold settle_record.
      destruct (taker g i creditor); simpl; lia.
    + rewrite Hsm. intros Hsm0 j q' (q & Hq & ->)%Hlook.
      destruct (decide (j = i)) as [->|Hji].
      * unfold settle. rewrite decide_True by done. simpl. lia.
      * destruct (Hkeep j q Hji) as (_ & _ & _ & _ & Hmoney). eauto.
    + rewrite Hst, stats_ok_set_bankrupt_order, Hpl, length_imap. done.
    + by rewrite Hcd.
    + by rewrite Hmd.
  - split; try done.
    + rewrite Hpl. apply list_eq. intros j.
      rewrite !list_lookup_fmap, list_lookup_imap.
      destruct (players g !! j) as [q|]; simpl; [|done]. f_equal.
      unfold settle. repeat case_decide; try done.
      destruct (taker g i creditor); [case_decide|]; done.
    + by rewrite Hst.
Qed.

(** * Charging *)

Lemma charge_spec g i amount creditor :
  inv g → seat g i → (∀ c, creditor = Some c → seat g c) →
  (0 ≤ starting_money g → 0 ≤ amount) →
  wp (_charge i amount creditor) (keeps g) g.
Proof.
  intros Hinv Hi Hcred Ham. unfold _charge.
  destruct (proj1 (seat_lookup _ _) Hi) as [p Hp].
  do 3 wp_step.
  assert (wp (if money p <? amount then _raise_funds i amount else ret tt)
             (λ _ g1, inv g1 ∧ frame g g1 ∧
                (∀ p1, players g1 !! i = Some p1 → money p1 < amount →
                       liquidated g1 i)) g) as Hraise.
  { destruct (money p <? amount) eqn:Hlt.
    - wp_apply raise_funds_spec; [done | done |].
      intros _ g1 (? & ? & _ & ?). done.
    - wp_step. split_and!; [done | apply frame_refl |].
      intros p1 Hp1 Hlt1. apply Z.ltb_ge in Hlt.
      assert (p1 = p) as -> by congruence. lia. }
  eapply wp_mono; [exact Hraise|]. cbv beta. clear Hraise.
  intros _ g1 (Hinv1 & Hfr1 & Hliq1).
  assert (Hi1 : seat g1 i) by by eapply seat_frame.
  destruct (proj1 (seat_lookup _ _) Hi1) as [p1 Hp1].
  do 2 wp_step. destruct (amount <=? money p1) eqn:Hpay.
  - apply Z.leb_le in Hpay. do 2 wp_step.
    apply upd_player_keeps; [done | |].
    { intros q Hq. simpl. split_and!; try done.
      assert (q = p1) as -> by congruence. lia. }
    intros g2 Hinv2 Hfr2 Hpl2 _ _.
    assert (Hseat2 : ∀ j, seat g j → seat g2 j).
    { intros j Hj. eapply seat_frame; [done|]. by eapply seat_frame. }
    assert (Hsm2 : starting_money g2 = starting_money g).
    { destruct Hfr1, Hfr2. congruence. }
    wp_step. apply solvent_creditor_spec.
    { intros c Hc. apply lookup_lt_is_Some, Hseat2. by apply Hcred. }
    assert (frame g g2) as Hfr by (eapply frame_trans; done).
    destruct creditor as [c|]; [|by do 2 wp_step].
    destruct (proj1 (seat_lookup _ _) (Hseat2 c (Hcred c eq_refl))) as [cp Hcp].
    rewrite Hcp. destruct (bankrupt cp); [by do 2 wp_step|].
    repeat wp_step.
    destruct (seat_id _ _ _ Hinv2 Hcp) as [Hid Hc2].
    apply stat_add_spec; [apply sf_rent_received | done | by rewrite Hid |].
    intros s' Hs' Hto. wp_step.
    apply upd_player_keeps; [by apply inv_set_stats | |].
    { intros q Hq. simpl. split_and!; try done. rewrite Hsm2. lia. }
    intros g3 Hinv3 Hfr3 Hpl3 _ _.
    apply update_peak_spec; [done | | ].
    { eapply seat_frame; [done|]. done. }
    intros s'' Hs'' Hto'. wp_step. split; [by apply inv_set_stats|].
    eapply frame_trans; [exact Hfr|].
    eapply frame_trans; [by apply frame_set_stats|].
    eapply frame_trans; [done|]. by apply frame_set_stats.
  - apply Z.leb_gt in Hpay. wp_step.
    wp_apply bankrupt_spec; [done | done | | by eauto |].
    { intros c Hc. eapply seat_frame; [done|]. by apply Hcred. }
    intros ? g2 [Hinv2 Hfr2]. wp_step. split; [done|]. by eapply frame_trans.
Qed.

(** C3.  A player with cash 1,000 whose only asset is one unmortgaged
    square without buildings, of mortgage value 3,000, is charged a rent
    of 6,000 owed to a solvent creditor: the charge fails, the player ends
    bankrupt with cash 0 and no square and is appended to the bankruptcy
    order, the square belongs to the creditor and is flagged mortgaged,
    and the creditor's cash grows by exactly 4,000. *)
Theorem rent_bankruptcy_scenario g i c p cp pos ow sq :
  i ≠ c →
  players g !! i = Some p → players g !! c = Some cp →
  id p = i → id cp = c → bankrupt cp = false →
  money p = 1000 → properties p = [pos] →
  ownership g !! pos = Some ow →
  buildings ow = 0 → mortgaged ow = false →
  BOARD pos = Some sq → sq_mortgage sq = Some 3000 →
  ∃ g', _charge i 6000 (Some c) g = Ok (false, g') ∧
    (∃ p', players g' !! i = Some p' ∧ money p' = 0 ∧ bankrupt p' = true ∧
           properties p' = []) ∧
    ownership g' !! pos = Some (mkOwnership (Some c) 0 true) ∧
    bankrupt_order (stats g') = bankrupt_order (stats g) ++ [i] ∧
    (∃ cp', players g' !! c = Some cp' ∧ money cp' = money cp + 4000 ∧
            properties cp' = properties cp ++ [pos]).
Proof.
  intros Hne Hp Hcp Hidp Hidc Hsolv Hmoney Hprops How Hb Hmort Hsq Hm.
  apply wp_result.
  unfold _charge. repeat wp_step. rewrite Hmoney. simpl.
  unfold _raise_funds. repeat wp_step. rewrite Hprops. simpl.
  repeat wp_step. rewrite Hmoney. simpl. repeat wp_step.
  assert (wp (match sq with
              | Sq_property grp _ _ _ =>
                  if 0 <? buildings ow
                  then upd_player i
                         (λ p0, set_money
                            (money p0 + (buildings ow * house_cost (GROUPS grp)) `div` 2) p0);;
                       upd_own pos (set_buildings 0)
                  else ret ()
              | _ => ret ()
              end) (λ _ g', g' = g) g) as Hsell.
  { rewrite Hb. destruct sq; simpl; by wp_step. }
  eapply wp_mono; [exact Hsell|]. cbv beta. intros _ ? ->. clear Hsell.
  repeat wp_step. rewrite Hprops. simpl. repeat wp_step.
  rewrite Hmoney. simpl. repeat wp_step. rewrite Hmort, Hb. simpl.
  repeat wp_step. simpl. rewrite Hmoney. simpl. repeat wp_step.
  set (g2 := set_ownership _ _).
  assert (Hp2 : players g2 !! i = Some (set_money 4000 p)).
  { subst g2. simpl. rewrite list_lookup_alter_eq, Hp. simpl. by rewrite Hmoney. }
  assert (Hcp2 : players g2 !! c = Some cp).
  { subst g2. simpl. by rewrite list_lookup_alter_ne. }
  assert (How2 : ownership g2 !! pos = Some (set_mortgaged true ow)).
  { subst g2. simpl. by rewrite lookup_alter_eq, How. }
  assert (Hst2 : stats g2 = stats g) by done.
  clearbody g2.
  wp_apply (bankrupt_exact g2 i (set_money 4000 p)); [done | | |].
  { simpl. rewrite Hprops. intros q ->%list_elem_of_singleton. by rewrite How2. }
  { intros ? [= <-]. by rewrite Hcp2. }
  intros ? g3 (Hst3 & _ & Hcase). unfold taker in Hcase.
  rewrite decide_False, Hcp2, Hsolv in Hcase by done.
  destruct Hcase as (cp' & Hcp' & _ & _ & Hpl3 & Hown3).
  assert (cp' = cp) as -> by congruence.
  wp_step. split_and!; [done | | | |].
  - exists (wiped (set_money 4000 p)). split; [|done].
    by rewrite Hpl3, list_lookup_alter_eq, list_lookup_alter_ne, Hp2.
  - rewrite Hown3. simpl. rewrite Hprops, decide_True, How2 by constructor.
    unfold transferred. simpl. by rewrite Hidc, Hb.
  - rewrite Hst3, Hst2. simpl. by rewrite Hidp.
  - exists (inherits (set_money 4000 p) cp). split.
    + by rewrite Hpl3, list_lookup_alter_ne, list_lookup_alter_eq, Hcp2.
    + simpl. by rewrite Hprops.
Qed.

(** * Read-only helpers and rent *)

Lemma all_owned_spec g pid ps :
  (∀ pos, pos ∈ ps → is_Some (ownership g !! pos)) →
  wp (all_owned pid ps) (reads g (λ r, r = all_owned_b g pid ps)) g.
Proof.
  induction ps as [|pos ps IH]; intros Hdom; simpl.
  { by wp_step. }
  destruct (Hdom pos) as [ow How]; [constructor|].
  repeat wp_step. unfold all_owned_b, owned_by at 1. simpl. rewrite How.
  destruct (owned_unmortgaged pid ow); simpl.
  - apply IH. intros q Hq. apply Hdom. by constructor.
  - by wp_step.
Qed.

Lemma group_in_ledger g grp pos :
  inv g → pos ∈ positions (GROUPS grp) → is_Some (ownership g !! pos).
Proof.
  intros Hinv Hpos. apply (inv_dom _ Hinv). by eapply group_purchasable.
Qed.

Lemma owns_group_spec g i p grp :
  inv g → players g !! i = Some p →
  wp (_owns_group i grp)
     (reads g (λ r, r = all_owned_b g i (positions (GROUPS grp)))) g.
Proof.
  intros Hinv Hp. unfold _owns_group. repeat wp_step.
  rewrite (inv_ids _ Hinv _ _ Hp).
  apply all_owned_spec. intros pos Hpos. by eapply group_in_ledger.
Qed.

Lemma count_owned_wp g pid ps :
  (∀ pos, pos ∈ ps → is_Some (ownership g !! pos)) →
  wp (count_owned pid ps) (reads g (λ r, r = unmortgaged_owned g pid ps)) g.
Proof.
  intros Hdom. apply wp_ok. eexists _, _.
  split; [by apply count_owned_spec|]. done.
Qed.

Lemma unmortgaged_owned_bounds g pid ps :
  0 ≤ unmortgaged_owned g pid ps ≤ Z.of_nat (length ps).
Proof.
  unfold unmortgaged_owned. split; [lia|].
  apply inj_le, length_filter.
Qed.

Lemma unmortgaged_owned_pos g pid ps pos ow :
  pos ∈ ps → ownership g !! pos = Some ow → owned_unmortgaged pid ow = true →
  1 ≤ unmortgaged_owned g pid ps.
Proof.
  intros Hin How Hown. unfold unmortgaged_owned.
  assert (pos ∈ filter
            (λ q, match ownership g !! q with
                  | Some ow => owned_unmortgaged pid ow
                  | None => false
                  end = true) ps) as Hf.
  { apply list_elem_of_filter. split; [|done]. by rewrite How. }
  destruct (filter _ ps) as [|x l]; [by apply elem_of_nil in Hf|]. simpl. lia.
Qed.

Lemma py_index_in_range {A} (l : list A) (i : Z) :
  0 ≤ i < Z.of_nat (length l) → ∃ x, py_index l i = Some x ∧ x ∈ l.
Proof.
  intros Hi. unfold py_index. rewrite (proj2 (Z.leb_le 0 i)) by lia.
  destruct (lookup_lt_is_Some_2 l (Z.to_nat i)) as [x Hx]; [lia|].
  exists x. split; [done|]. by eapply list_elem_of_lookup_2.
Qed.

(** In a well-formed game the rent of a purchasable square is computed
    without error, changes nothing and is not negative. *)
Lemma rent_spec g pos dice double_station :
  inv g → purchasable pos = true → 0 ≤ dice →
  wp (_rent pos dice double_station) (reads g (λ r, 0 ≤ r)) g.
Proof.
  intros Hinv Hpurch Hdice. unfold _rent.
  destruct (purchasable_square _ Hpurch) as (sq & price & m & Hsq & _).
  destruct (proj2 (inv_dom _ Hinv pos) Hpurch) as [ow How].
  repeat wp_step. destruct (owner ow) as [o|] eqn:Ho; [|by wp_step].
  destruct (mortgaged ow) eqn:Hmort; [by wp_step|].
  destruct (inv_owner _ Hinv _ _ _ How Ho) as (op & Hop & Hsolv & Hin).
  pose proof (inv_ids _ Hinv _ _ Hop) as Hid.
  repeat wp_step.
  pose proof (BOARD_fine _ _ Hsq) as Hfine.
  destruct sq as [t|a|grp pr mo rents|pr mo rents|pr mo]; simpl in Hfine.
  - by wp_step.
  - by wp_step.
  - destruct (property_square _ _ _ _ _ Hsq) as (_ & _ & _ & _ & Hlen & Hpos).
    pose proof (inv_range _ Hinv _ _ How) as Hrange.
    destruct (py_index_in_range rents (buildings ow)) as (r & Hr & Hrin);
      [rewrite Hlen; lia|].
    rewrite Forall_forall in Hpos. specialize (Hpos _ Hrin).
    repeat wp_step. destruct (buildings ow =? 0).
    + wp_step. wp_apply owns_group_spec; [done | done |].
      intros full ? [-> _]. wp_step. split; [done|]. destruct full; lia.
    + wp_step. split; [done|]. lia.
  - repeat (apply andb_prop in Hfine as [Hfine ?]).
    repeat match goal with
           | H : bool_decide _ = true |- _ => apply bool_decide_eq_true in H
           end.
    subst rents. unfold _stations_owned. repeat wp_step. rewrite Hid.
    wp_apply count_owned_wp.
    { intros q Hq. apply (inv_dom _ Hinv). by apply station_square. }
    intros count ? [-> ->].
    pose proof (unmortgaged_owned_bounds g o STATION_POS) as Hb.
    assert (1 ≤ unmortgaged_owned g o STATION_POS) as Hb1.
    { eapply unmortgaged_owned_pos; [done | done |].
      unfold owned_unmortgaged. rewrite Ho, Hmort.
      by rewrite bool_decide_eq_true_2. }
    simpl in Hb.
    destruct (py_index_in_range station_rent (unmortgaged_owned g o STATION_POS - 1))
      as (r & Hr & Hrin); [simpl; lia|].
    repeat wp_step. split; [done|].
    assert (0 < r).
    { unfold station_rent in Hrin. set_unfold in Hrin.
      destruct Hrin as [->|[->|[->|[->|[]]]]]; lia. }
    destruct double_station; lia.
  - unfold _utilities_owned. repeat wp_step. rewrite Hid.
    wp_apply count_owned_wp.
    { intros q Hq. apply (inv_dom _ Hinv). by apply utility_square. }
    intros count ? [-> ->]. wp_step. split; [done|].
    destruct (2 <=? _); lia.
Qed.

(** * Building *)

Lemma foldl_min_le (l : list Z) (x : Z) :
  foldl Z.min x l ≤ x ∧ (∀ y, y ∈ l → foldl Z.min x l ≤ y) ∧
  (foldl Z.min x l = x ∨ foldl Z.min x l ∈ l).
Proof.
  revert x. induction l as [|z l IH]; intros x; simpl.
  { split_and!; [lia | by intros y ?%elem_of_nil | by left]. }
  destruct (IH (Z.min x z)) as (H1 & H2 & H3). split_and!.
  - lia.
  - intros y [->|Hy]%elem_of_cons; [lia | by apply H2].
  - destruct H3 as [H3|H3].
    + rewrite H3. destruct (Z.min_spec x z) as [[_ ->]|[_ ->]]; [by left|].
      right. constructor.
    + right. by constructor.
Qed.

Lemma py_min_spec (l : list Z) :
  l ≠ [] → ∃ m, py_min l = Some m ∧ m ∈ l ∧ ∀ y, y ∈ l → m ≤ y.
Proof.
  destruct l as [|x l]; [done|]. intros _. simpl. eexists. split; [done|].
  destruct (foldl_min_le l x) as (H1 & H2 & H3). split.
  - destruct H3 as [->|H3]; by constructor.
  - intros y [->|Hy]%elem_of_cons; auto.
Qed.

Lemma buildings_of_spec g ps :
  (∀ pos, pos ∈ ps → is_Some (ownership g !! pos)) →
  wp (buildings_of ps)
     (reads g (λ bs, length bs = length ps ∧
                     ∀ b, b ∈ bs ↔ ∃ pos ow, pos ∈ ps ∧
                                     ownership g !! pos = Some ow ∧
                                     buildings ow = b)) g.
Proof.
  induction ps as [|pos ps IH]; intros Hdom; simpl.
  { wp_step. split; [done|]. split; [done|]. intros b. split.
    - by intros ?%elem_of_nil.
    - by intros (? & ? & ?%elem_of_nil & _). }
  destruct (Hdom pos) as [ow How]; [constructor|].
  repeat wp_step. wp_apply IH.
  { intros q Hq. apply Hdom. by constructor. }
  intros bs ? (-> & Hlen & Hbs). wp_step. split; [done|]. split; [simpl; lia|].
  intros b. rewrite elem_of_cons, Hbs. split.
  - intros [->|(q & ow' & Hq & How' & Hb)].
    + exists pos, ow. split_and!; [constructor | done | done].
    + exists q, ow'. split_and!; [by constructor | done | done].
  - intros (q & ow' & [->|Hq]%elem_of_cons & How' & Hb).
    + left. congruence.
    + right. eauto.
Qed.

Lemma ledger_grown_refl g : ledger_grown g g.
Proof. intros pos ow How. exists ow. split_and!; [done | lia | done | done]. Qed.

Lemma ledger_grown_trans g1 g2 g3 :
  ledger_grown g1 g2 → ledger_grown g2 g3 → ledger_grown g1 g3.
Proof.
  intros H1 H2 pos ow How. destruct (H1 _ _ How) as (ow2 & How2 & ? & ? & ?).
  destruct (H2 _ _ How2) as (ow3 & How3 & ? & ? & ?).
  exists ow3. split_and!; [done | lia | congruence | congruence].
Qed.

Lemma int_ratio_nonneg x r :
  0 ≤ x → 0 ≤ fst r → 0 < snd r → 0 ≤ int_ratio x r.
Proof. intros. unfold int_ratio. apply Z.quot_pos; nia. Qed.

(** One pass of the even-development loop over the squares [ps] of a
    group whose squares are all properties, unmortgaged and owned. *)
Lemma build_pass_spec i hc reserve min_b ps :
  ∀ g improved,
    inv g → seat g i → 0 < hc → min_b < 5 →
    (0 ≤ starting_money g → 0 ≤ reserve) →
    (∀ pos, pos ∈ ps → is_property pos = true ∧
            ∃ ow, ownership g !! pos = Some ow ∧ mortgaged ow = false ∧
                  min_b ≤ buildings ow) →
    wp (build_pass i hc reserve min_b ps improved)
       (λ r g', inv g' ∧ frame g g' ∧ ledger_grown g g' ∧
                (r = true → ∀ pos ow', pos ∈ ps → ownership g' !! pos = Some ow' →
                            min_b < buildings ow')) g.
Proof.
  induction ps as [|pos ps IH]; intros g improved Hinv Hi Hhc Hmin Hres Hps; simpl.
  { wp_step. split_and!; [done | apply frame_refl | apply ledger_grown_refl |].
    by intros _ pos ow' ?%elem_of_nil. }
  destruct (Hps pos) as (Hisp & ow & How & Hmort & Hge); [constructor|].
  assert (∀ g1 imp, inv g1 → frame g g1 → ledger_grown g g1 →
            (∀ ow1, ownership g1 !! pos = Some ow1 → min_b < buildings ow1) →
            wp (build_pass i hc reserve min_b ps imp)
               (λ r g', inv g' ∧ frame g g' ∧ ledger_grown g g' ∧
                  (r = true → ∀ pos0 ow', pos0 ∈ pos :: ps →
                              ownership g' !! pos0 = Some ow' →
                              min_b < buildings ow')) g1) as Hrest.
  { intros g1 imp Hinv1 Hfr1 Hgr1 Hpos1.
    wp_apply IH; [done | by eapply seat_frame | done | done | | |].
    - by rewrite (fr_start _ _ Hfr1).
    - intros q Hq. destruct (Hps q) as (? & owq & Howq & ? & ?); [by constructor|].
      split; [done|]. destruct (Hgr1 _ _ Howq) as (owq' & ? & ? & ? & ?).
      exists owq'. split_and!; [done | congruence | lia].
    - intros r g' (Hinv' & Hfr' & Hgr' & Hall').
      split_and!; [done | by eapply frame_trans | by eapply ledger_grown_trans |].
      intros Hr q ow' [->|Hq]%elem_of_cons How'; [|by eauto].
      destruct (Hgr1 _ _ How) as (ow1 & How1 & _).
      destruct (Hgr' _ _ How1) as (ow2 & How2 & Hle & _).
      assert (ow2 = ow') as -> by congruence.
      specialize (Hpos1 _ How1). lia. }
  repeat wp_step.
  destruct ((buildings ow =? min_b) && (buildings ow <? 5)) eqn:Hcond.
  - apply andb_prop in Hcond as [Heq%Z.eqb_eq Hlt%Z.ltb_lt].
    destruct (proj1 (seat_lookup _ _) Hi) as [p Hp].
    repeat wp_step. destruct (reserve <=? money p - hc) eqn:Hafford.
    + apply Z.leb_le in Hafford. repeat wp_step.
      set (g1 := set_players _ g).
      assert (Hinv1 : inv g1).
      { apply inv_alter_player; [done|]. intros q Hq. simpl. split_and!; try done.
        intros Hsm _. assert (q = p) as -> by congruence.
        specialize (Hres Hsm). lia. }
      assert (Hfr1 : frame g g1) by by apply frame_alter_player.
      pose proof (inv_range _ Hinv _ _ How) as Hrange.
      apply Hrest.
      * apply inv_alter_own; [done|]. intros ow0 How0. simpl.
        assert (ow0 = ow) as -> by (simpl in How0; congruence).
        split_and!; [done | | lia..].
        pose proof (inv_record _ Hinv _ _ How) as [? ? Hmo].
        split; simpl; [done | done | done].
      * eapply frame_trans; [done|]. apply frame_set_ownership.
      * intros q owq Howq. simpl. rewrite lookup_alter.
        case_decide; [subst q|].
        -- rewrite How. simpl. eexists. split; [done|]. simpl.
           assert (owq = ow) as -> by congruence. split_and!; [lia | done | done].
        -- exists owq. split_and!; [done | lia | done | done].
      * intros ow1. simpl. rewrite lookup_alter_eq, How. simpl.
        intros [= <-]. simpl. lia.
    + wp_step. split_and!; [done | apply frame_refl | apply ledger_grown_refl | done].
  - apply Hrest; [done | apply frame_refl | apply ledger_grown_refl |].
    intros ow1 How1. assert (ow1 = ow) as -> by congruence.
    apply andb_false_iff in Hcond as [Hne%Z.eqb_neq|Hge5%Z.ltb_ge]; lia.
Qed.

Lemma build_while_spec fuel i hc reserve ps :
  ∀ g, inv g → seat g i → 0 < hc → ps ≠ [] →
       (0 ≤ starting_money g → 0 ≤ reserve) →
       (∀ pos, pos ∈ ps → is_property pos = true ∧
               ∃ ow, ownership g !! pos = Some ow ∧ mortgaged ow = false ∧
                     5 - Z.of_nat fuel < buildings ow) →
       wp (build_while fuel i hc reserve ps) (keeps g) g.
Proof.
  induction fuel as [|n IH]; intros g Hinv Hi Hhc Hne Hres Hps.
  { exfalso. destruct ps as [|pos ps]; [done|].
    destruct (Hps pos) as (_ & ow & How & _ & Hb); [constructor|].
    pose proof (inv_range _ Hinv _ _ How). simpl in Hb. lia. }
  cbn [build_while]. wp_step.
  wp_apply buildings_of_spec.
  { intros pos Hpos. destruct (Hps pos Hpos) as (_ & ow & -> & _). done. }
  intros bs ? (-> & Hlen & Hbs).
  destruct (py_min_spec bs) as (m & Hm & Hmin & Hle).
  { intros ->. destruct ps; [done|]. simpl in Hlen. lia. }
  repeat wp_step. destruct (5 <=? m) eqn:Hfive.
  { wp_step. split; [done | apply frame_refl]. }
  apply Z.leb_gt in Hfive. wp_step.
  wp_apply build_pass_spec; [done | done | done | done | done | |].
  { intros pos Hpos. destruct (Hps pos Hpos) as (Hisp & ow & How & Hmort & _).
    split; [done|]. exists ow. split_and!; [done | done |].
    apply Hle, Hbs. eauto. }
  intros r g' (Hinv' & Hfr' & Hgr' & Hall). destruct r; [|wp_step; by split].
  wp_apply IH; [done | by eapply seat_frame | done | done | | |].
  - by rewrite (fr_start _ _ Hfr').
  - intros pos Hpos. destruct (Hps pos Hpos) as (Hisp & ow & How & Hmort & Hb).
    split; [done|]. destruct (Hgr' _ _ How) as (ow' & How' & _ & Hmort' & _).
    exists ow'. split_and!; [done | congruence |].
    specialize (Hall eq_refl _ _ Hpos How').
    apply Hbs in Hmin as (q & owq & Hq & Howq & Hbq).
    destruct (Hps q Hq) as (_ & owq' & Howq' & _ & Hbq').
    assert (owq' = owq) as -> by congruence. lia.
  - intros ? g'' [Hinv'' Hfr'']. split; [done|]. by eapply frame_trans.
Qed.

Lemma group_facts grp :
  positions (GROUPS grp) ≠ [] ∧ 0 < house_cost (GROUPS grp).
Proof. by destruct grp. Qed.

Lemma all_owned_b_true g pid ps pos :
  all_owned_b g pid ps = true → pos ∈ ps →
  ∃ ow, ownership g !! pos = Some ow ∧ owner ow = Some pid ∧ mortgaged ow = false.
Proof.
  unfold all_owned_b. rewrite forallb_forall. intros Hall Hpos.
  specialize (Hall pos). rewrite <- list_elem_of_In in Hall.
  specialize (Hall Hpos). unfold owned_by in Hall.
  destruct (ownership g !! pos) as [ow|]; [|done]. exists ow.
  unfold owned_unmortgaged in Hall. apply andb_prop in Hall as [Ho Hm].
  apply bool_decide_eq_true in Ho. apply negb_true_iff in Hm. done.
Qed.

Lemma build_groups_spec i reserve groups :
  ∀ g, inv g → seat g i → (0 ≤ starting_money g → 0 ≤ reserve) →
       wp (build_groups i reserve groups) (keeps g) g.
Proof.
  induction groups as [|grp groups IH]; intros g Hinv Hi Hres; simpl.
  { wp_step. split; [done | apply frame_refl]. }
  destruct (proj1 (seat_lookup _ _) Hi) as [p Hp].
  wp_step. wp_apply owns_group_spec; [done | done |].
  intros full ? [-> ->]. wp_step.
  assert (wp (if all_owned_b g i (positions (GROUPS grp))
              then build_while build_fuel i (house_cost (GROUPS grp)) reserve
                     (positions (GROUPS grp))
              else ret tt) (keeps g) g) as Hgroup.
  { destruct (all_owned_b g i (positions (GROUPS grp))) eqn:Hfull.
    - destruct (group_facts grp) as [Hne Hhc].
      apply build_while_spec; [done | done | done | done | done |].
      intros pos Hpos. split; [by eapply group_purchasable|].
      destruct (all_owned_b_true _ _ _ _ Hfull Hpos) as (ow & How & _ & Hmort).
      exists ow. split_and!; [done | done |].
      pose proof (inv_range _ Hinv _ _ How). unfold build_fuel. lia.
    - wp_step. split; [done | apply frame_refl]. }
  eapply wp_mono; [exact Hgroup|]. cbv beta.
  intros ? g1 [Hinv1 Hfr1].
  wp_apply IH; [done | by eapply seat_frame | by rewrite (fr_start _ _ Hfr1) |].
  intros ? g2 [Hinv2 Hfr2]. split; [done|]. by eapply frame_trans.
Qed.

Lemma try_build_spec g i :
  inv g → seat g i → wp (_try_build i) (keeps g) g.
Proof.
  intros Hinv Hi. unfold _try_build. repeat wp_step.
  apply build_groups_spec; [done | done |].
  intros Hsm. by apply int_ratio_nonneg.
Qed.

(** * Cards *)

Lemma chance_square pos sq :
  BOARD pos = Some sq → sq_type sq = chance → pos ∈ CHANCE_POS.
Proof.
  intros Hsq Ht.
  assert (match sq_type sq with chance => bool_decide (pos ∈ CHANCE_POS) | _ => true end
          = true) as H.
  { clear Ht. revert pos sq Hsq. apply (board_forall (λ pos sq,
      match sq_type sq with chance => bool_decide (pos ∈ CHANCE_POS) | _ => true end)).
    by vm_compute. }
  rewrite Ht in H. by apply bool_decide_eq_true in H.
Qed.

Lemma community_square pos sq :
  BOARD pos = Some sq → sq_type sq = community → pos ∈ COMMUNITY_POS.
Proof.
  intros Hsq Ht.
  assert (match sq_type sq with community => bool_decide (pos ∈ COMMUNITY_POS) | _ => true end
          = true) as H.
  { clear Ht. revert pos sq Hsq. apply (board_forall (λ pos sq,
      match sq_type sq with community => bool_decide (pos ∈ COMMUNITY_POS) | _ => true end)).
    by vm_compute. }
  rewrite Ht in H. by apply bool_decide_eq_true in H.
Qed.

Lemma lands_off_cards_spec cards squares c pos l :
  lands_off_cards cards squares = true → c ∈ cards → pos ∈ squares →
  landing c pos = Some l → is_card_square l = false.
Proof.
  unfold lands_off_cards. rewrite forallb_forall. intros Hall Hc Hpos Hl.
  specialize (Hall c). rewrite <- list_elem_of_In in Hall. specialize (Hall Hc).
  rewrite forallb_forall in Hall. specialize (Hall pos).
  rewrite <- list_elem_of_In in Hall. specialize (Hall Hpos).
  rewrite Hl in Hall. by apply negb_true_iff in Hall.
Qed.

Lemma chance_lands_off_cards : lands_off_cards CHANCE_CARDS CHANCE_POS = true.
Proof. by vm_compute. Qed.

Lemma community_lands_off_cards :
  lands_off_cards COMMUNITY_CARDS COMMUNITY_POS = true.
Proof. by vm_compute. Qed.

Lemma deck_card_fine c : c ∈ CHANCE_CARDS ++ COMMUNITY_CARDS → card_fine c = true.
Proof.
  intros Hc.
  assert (forallb card_fine (CHANCE_CARDS ++ COMMUNITY_CARDS) = true) as Hall
    by by vm_compute.
  rewrite forallb_forall in Hall. apply Hall. by apply list_elem_of_In.
Qed.

Lemma should_buy_spec g i p price :
  players g !! i = Some p →
  wp (_should_buy i price)
     (reads g (λ r, r = (int_ratio (starting_money g) BUY_RESERVE_RATIO
                         <=? money p - price))) g.
Proof. intros Hp. unfold _should_buy. repeat wp_step. done. Qed.

Lemma active_others_spec g i p :
  players g !! i = Some p →
  wp (active_others i)
     (reads g (λ others, ∀ j, j ∈ others → seat g j)) g.
Proof.
  intros Hp. unfold active_others. repeat wp_step. split; [done|].
  intros j [_ Hj]%list_elem_of_filter. apply elem_of_seq in Hj. unfold seat. lia.
Qed.

Lemma pay_each_loop_spec i value others :
  ∀ g, inv g → seat g i → (0 ≤ starting_money g → 0 ≤ value) →
       wp (pay_each_loop i value others) (keeps g) g.
Proof.
  induction others as [|o others IH]; intros g Hinv Hi Hval; simpl.
  { wp_step. split; [done | apply frame_refl]. }
  destruct (proj1 (seat_lookup _ _) Hi) as [p Hp].
  repeat wp_step. destruct (bankrupt p).
  { wp_step. split; [done | apply frame_refl]. }
  wp_step.
  apply upd_player_keeps; [done | |].
  { intros q Hq. simpl. split_and!; try done. assert (q = p) as -> by congruence. lia. }
  intros g1 Hinv1 Hfr1 _ _ _. wp_step.
  apply upd_player_keeps; [done | |].
  { intros q Hq. simpl. split_and!; try done. rewrite (fr_start _ _ Hfr1).
    intros Hsm ?. specialize (Hval Hsm).
    pose proof (inv_cash _ Hinv Hsm _ _ Hp). lia. }
  intros g2 Hinv2 Hfr2 _ _ _.
  assert (frame g g2) as Hfr by by eapply frame_trans.
  wp_apply IH; [done | by eapply seat_frame | by rewrite (fr_start _ _ Hfr) |].
  intros ? g3 [Hinv3 Hfr3]. split; [done|]. by eapply frame_trans.
Qed.

Lemma receive_from_each_loop_spec i value others :
  ∀ g, inv g → seat g i → (0 ≤ starting_money g → 0 ≤ value) →
       (∀ j, j ∈ others → seat g j) →
       wp (receive_from_each_loop i value others) (keeps g) g.
Proof.
  induction others as [|o others IH]; intros g Hinv Hi Hval Hseats; simpl.
  { wp_step. split; [done | apply frame_refl]. }
  destruct (proj1 (seat_lookup _ _) (Hseats o ltac:(constructor))) as [q Hq].
  repeat wp_pure.
  apply upd_player_keeps; [done | |].
  { intros q' Hq'. simpl. split_and!; try done.
    assert (q' = q) as -> by congruence. lia. }
  intros g1 Hinv1 Hfr1 _ _ _. wp_step.
  apply upd_player_keeps; [done | |].
  { intros p Hp. simpl. split_and!; try done. rewrite (fr_start _ _ Hfr1).
    intros Hsm ?. specialize (Hval Hsm).
    pose proof (inv_cash _ Hinv Hsm _ _ Hq). lia. }
  intros g2 Hinv2 Hfr2 _ _ _.
  assert (frame g g2) as Hfr by by eapply frame_trans.
  wp_apply IH; [done | by eapply seat_frame | by rewrite (fr_start _ _ Hfr) | |].
  { intros j Hj. eapply seat_frame; [done|]. apply Hseats. by constructor. }
  intros ? g3 [Hinv3 Hfr3]. split; [done|]. by eapply frame_trans.
Qed.

Lemma repairs_total_spec g house_fee hotel_fee props :
  ∀ total, inv g → 0 ≤ house_fee → 0 ≤ hotel_fee → 0 ≤ total →
    (∀ pos, pos ∈ props → is_Some (ownership g !! pos)) →
    wp (repairs_total house_fee hotel_fee props total) (reads g (λ r, 0 ≤ r)) g.
Proof.
  induction props as [|pos props IH]; intros total Hinv Hh Hk Htot Hdom; simpl.
  { by wp_step. }
  destruct (Hdom pos) as [ow How]; [constructor|].
  repeat wp_step. apply IH; [done | done | done | |].
  - pose proof (inv_range _ Hinv _ _ How).
    destruct (BOARD pos) as [[]|]; try done. destruct (buildings ow =? 5); nia.
  - intros q Hq. apply Hdom. by constructor.
Qed.

Lemma min_by_elem {A} (key : A → Z) (l : list A) x :
  min_by key l = Some x → x ∈ l.
Proof.
  destruct l as [|y l]; [done|]. simpl. intros [= <-].
  revert y. induction l as [|z l IH]; intros y; simpl; [constructor|].
  specialize (IH (if key z <? key y then z else y)).
  apply elem_of_cons in IH as [->|Hin].
  - destruct (key z <? key y); [right; constructor | constructor].
  - by do 2 right.
Qed.

Lemma nearest_station_spec pos :
  ∃ s, nearest_station_from pos = Some s ∧ s ∈ STATION_POS.
Proof.
  unfold nearest_station_from.
  destruct (min_by _ STATION_POS) as [s|] eqn:Hs; [|done].
  exists s. split; [done|]. by eapply min_by_elem.
Qed.

(** * Resolving cards and squares *)

Section Resolve.

Variable rand : N → N.

(** Recording a payment in a statistic and charging it. *)
Lemma pay_spec g i pid field set amount creditor (K : unit → Game → Prop) :
  stat_field field set → inv g → seat g i → seat g pid →
  (∀ c, creditor = Some c → seat g c) → 0 ≤ amount →
  (∀ g', inv g' → frame g g' → K tt g') →
  wp (stat_add field set pid amount)
     (λ _ g', wp (_charge i amount creditor ;; ret tt) K g') g.
Proof.
  intros Hsf Hinv Hi Hpid Hcred Ham HK.
  apply stat_add_spec; [done | done | done |].
  intros s' Hs' Hto. wp_step.
  wp_apply charge_spec; [by apply inv_set_stats | done | done | done |].
  intros ? g1 [Hinv1 Hfr1]. wp_step. apply HK; [done|].
  eapply frame_trans; [by apply frame_set_stats | done].
Qed.

Lemma keeps_jail_of_keeps {A} i g (a : A) g' : keeps g a g' → keeps_jail i g a g'.
Proof. intros [? ?]. split; [done | by apply frame_to_jail]. Qed.

Lemma apply_card_spec (f : nat → Z → M unit) (Ppos : Z → Prop) g i card dice :
  inv g → seat g i → 0 ≤ dice → card_fine card = true →
  (∀ g1, inv g1 → seat g1 i →
         (∀ p1, players g1 !! i = Some p1 → Ppos (position p1)) →
         wp (f i dice) (keeps_jail i g1) g1) →
  (∀ p l, players g !! i = Some p → landing card (position p) = Some l → Ppos l) →
  wp (apply_card_with f i card dice) (keeps_jail i g) g.
Proof.
  intros Hinv Hi Hdice Hfine Hf Hland. unfold apply_card_with.
  destruct (proj1 (seat_lookup _ _) Hi) as [p Hp].
  destruct (seat_id _ _ _ Hinv Hp) as [Hid _].
  wp_step. wp_apply active_others_spec; [done|].
  intros others ? [-> Hothers].
  (* moving to a square and resolving it *)
  assert (∀ g1 p1, inv g1 → frame g g1 → players g1 !! i = Some p1 →
            Ppos (position p1) →
            wp (let* p := player i in
                if negb (bankrupt p) then f i dice else ret tt)
               (keeps_jail i g) g1) as Hresolve.
  { intros g1 p1 Hinv1 Hfr1 Hp1 Hpos1. repeat wp_pure.
    destruct (negb (bankrupt p1)).
    - wp_apply Hf; [done | by eapply seat_frame | |].
      + intros p2 Hp2. assert (p2 = p1) as -> by congruence. done.
      + intros ? g2 [Hinv2 Hfr2]. split; [done|]. by eapply frame_jail_trans_l.
    - wp_step. split; [done | by apply frame_to_jail]. }
  destruct card as [target|n| | | |v|v|v|v|house_fee hotel_fee]; simpl in Hfine.
  - wp_step. wp_apply move_to_spec; [done | done |].
    intros ? g1 (Hinv1 & Hfr1 & _ & Hmoved).
    destruct (Hmoved _ Hp) as (p1 & Hp1 & Hpos1 & _).
    eapply Hresolve; [done | done | done |]. rewrite Hpos1. by eapply Hland.
  - repeat wp_pure.
    apply upd_player_keeps; [done | by intros q Hq; simpl |].
    intros g1 Hinv1 Hfr1 Hpl1 _ _.
    eapply (Hresolve _ (set_position ((position p - n) mod BOARD_SIZE) p));
      [done | done | by rewrite Hpl1, list_lookup_alter_eq, Hp |].
    by eapply Hland.
  - destruct (nearest_station_spec (position p)) as (s & Hs & Hsin).
    repeat wp_pure. wp_apply move_to_spec; [done | done |].
    intros ? g1 (Hinv1 & Hfr1 & Hown1 & Hmoved).
    destruct (Hmoved _ Hp) as (p1 & Hp1 & _ & _ & _ & Hid1).
    destruct (station_square _ Hsin) as [Hsq Hpurch].
    destruct (proj2 (inv_dom _ Hinv1 s) Hpurch) as [ow How].
    repeat wp_pure. destruct (owner ow) as [o|] eqn:Ho;
      [|wp_step; split; [done | by apply frame_to_jail]].
    destruct (bool_decide (o ≠ id p1) && negb (mortgaged ow));
      [|wp_step; split; [done | by apply frame_to_jail]].
    destruct (inv_owner _ Hinv1 _ _ _ How Ho) as (op & Hop & _ & _).
    repeat wp_pure. wp_apply rent_spec; [done | done | done |].
    intros rent ? [-> Hrent]. destruct (negb (rent =? 0));
      [|wp_step; split; [done | by apply frame_to_jail]].
    wp_step.
    apply pay_spec; [apply sf_rent_paid | done | by eapply seat_frame | |
                     | done |].
    + rewrite Hid1, Hid. by eapply seat_frame.
    + intros c [= <-]. apply seat_lookup. eauto.
    + intros g2 Hinv2 Hfr2. split; [done|].
      apply frame_to_jail. by eapply frame_trans.
  - by apply send_to_jail_spec.
  - apply upd_player_keeps; [done | by intros q Hq; simpl |].
    intros g1 Hinv1 Hfr1 _ _ _. split; [done | by apply frame_to_jail].
  - wp_apply credit_spec; [done | done | intros; lia |].
    intros ? g1 (Hinv1 & Hfr1 & _). split; [done | by apply frame_to_jail].
  - repeat wp_pure. rewrite Hid.
    apply pay_spec; [apply sf_total_tax_paid | done | done | done | done | lia |].
    intros g1 Hinv1 Hfr1. split; [done | by apply frame_to_jail].
  - wp_apply pay_each_loop_spec; [done | done | intros; lia |].
    intros ? g1 Hk. by apply keeps_jail_of_keeps.
  - wp_apply receive_from_each_loop_spec; [done | done | intros; lia | done |].
    intros ? g1 Hk. by apply keeps_jail_of_keeps.
  - apply andb_prop in Hfine as [Hh Hk]. repeat wp_pure.
    wp_apply repairs_total_spec; [done | lia | lia | lia | |].
    { intros pos Hin. destruct (inv_props _ Hinv _ _ _ Hp Hin) as (ow & -> & _).
      done. }
    intros total ? [-> Htotal]. destruct (0 <? total);
      [|wp_step; split; [done | by apply frame_to_jail]].
    rewrite Hid. wp_step.
    apply pay_spec; [apply sf_total_tax_paid | done | done | done | done | lia |].
    intros g1 Hinv1 Hfr1. split; [done | by apply frame_to_jail].
Qed.

(** Buying an unowned square. *)
Lemma inv_buy g i p pos ow :
  inv g → players g !! i = Some p → bankrupt p = false →
  ownership g !! pos = Some ow → owner ow = None →
  inv (set_players
         (alter (λ q, set_properties (properties q ++ [pos]) q) i (players g))
         (set_ownership (alter (set_owner (Some i)) pos (ownership g)) g)).
Proof.
  intros [Hids Hdom Hprops Howner Hrec Hrange Hcash Hstats Hc Hm] Hp Hsolv How Ho.
  split; simpl; try done.
  - intros j q (q0 & Hq0 & ->)%alter_lookup_Some. case_decide; [subst j|by eauto].
    simpl. eauto.
  - intros q. rewrite <- Hdom, lookup_alter. case_decide; [subst q|done].
    by rewrite fmap_is_Some.
  - intros j q pos' (q0 & Hq0 & ->)%alter_lookup_Some Hin.
    rewrite lookup_alter. destruct (decide (pos = pos')) as [<-|Hne].
    + rewrite How. simpl. eexists. split; [done|]. simpl.
      case_decide; [by subst j|].
      destruct (Hprops _ _ _ Hq0 Hin) as (ow' & How' & Ho'). congruence.
    + apply (Hprops j q0); [done|]. case_decide; [subst j|done].
      simpl in Hin. apply elem_of_app in Hin as [|Hin%list_elem_of_singleton]; done.
  - intros pos' ow' o. rewrite lookup_alter.
    destruct (decide (pos = pos')) as [<-|Hne].
    + rewrite How. simpl. intros [= <-]. simpl. intros [= <-].
      exists (set_properties (properties p ++ [pos]) p). split_and!.
      * apply alter_lookup_Some. exists p. by rewrite decide_True.
      * done.
      * simpl. apply elem_of_app. right. constructor.
    + intros How' Ho'. destruct (Howner _ _ _ How' Ho') as (q & Hq & Hb & Hin).
      exists (if decide (i = o) then set_properties (properties q ++ [pos]) q else q).
      split; [apply alter_lookup_Some; eauto|].
      case_decide; [|done]. simpl. split; [done|]. apply elem_of_app. by left.
  - intros pos' ow'. rewrite lookup_alter. case_decide; [subst pos'|by eauto].
    rewrite How. simpl. intros [= <-].
    destruct (Hrec _ _ How) as [? ? ?]. split; simpl; done.
  - intros pos' ow'. rewrite lookup_alter. case_decide; [subst pos'|by eauto].
    rewrite How. simpl. intros [= <-]. simpl. by eapply Hrange.
  - intros Hsm j q (q0 & Hq0 & ->)%alter_lookup_Some.
    case_decide; simpl; eauto.
  - by rewrite length_alter.
Qed.

(** A game that differs from a well-formed one only in its decks, random
    position or counters. *)
Lemma inv_same g g' :
  inv g → players g' = players g → ownership g' = ownership g →
  stats g' = stats g → starting_money g' = starting_money g →
  cycle_rest CHANCE_CARDS (chance_deck g') →
  cycle_rest COMMUNITY_CARDS (community_deck g') → inv g'.
Proof.
  intros [] Hpl Hown Hst Hsm Hc Hm.
  split; rewrite ?Hpl, ?Hown, ?Hst, ?Hsm; done.
Qed.

(** Landing on a purchasable square: buy it when unowned and affordable,
    pay rent when another player holds it unmortgaged. *)
Ltac purchasable_case Hinv Hi Hdice Hp Hid Hsolv Hsq Htype Hret :=
  let Hpurch := fresh "Hpurch" in
  let ow := fresh "ow" in
  let How := fresh "How" in
  let o := fresh "o" in
  let Ho := fresh "Ho" in
  let sq' := fresh "sq'" in
  let price := fresh "price" in
  let Hprice := fresh "Hprice" in
  lazymatch type of Hp with
  | players ?g !! ?i = Some ?p =>
    assert (Hpurch : purchasable (position p) = true)
      by (unfold purchasable; by rewrite Hsq, Htype);
    destruct (proj2 (inv_dom _ Hinv (position p)) Hpurch) as [ow How];
    destruct (purchasable_square _ Hpurch)
      as (sq' & price & ? & ? & Hprice & _ & ? & _);
    (lazymatch type of Hsq with
     | BOARD _ = Some ?sq => assert (sq' = sq) by congruence
     end);
    subst sq';
    repeat wp_pure;
    destruct (owner ow) as [o|] eqn:Ho;
    [ destruct (bool_decide (o ≠ id p) && negb (mortgaged ow)); [|exact Hret];
      let op := fresh "op" in
      let Hop := fresh "Hop" in
      destruct (inv_owner _ Hinv _ _ _ How Ho) as (op & Hop & _ & _);
      repeat wp_pure; destruct (negb (bankrupt op)); [|exact Hret];
      wp_step;
      wp_apply rent_spec; [exact Hinv | exact Hpurch | exact Hdice |];
      let rent := fresh "rent" in
      let Hrent := fresh "Hrent" in
      intros rent ? [-> Hrent]; destruct (0 <? rent); [|exact Hret];
      rewrite Hid; wp_step;
      apply pay_spec;
      [ apply sf_rent_paid | exact Hinv | exact Hi | exact Hi
      | intros ? [= <-]; apply seat_lookup; eauto
      | exact Hrent
      | intros ? ? ?; split; [assumption | by apply frame_to_jail] ]
    | repeat wp_pure;
      wp_apply should_buy_spec; [exact Hp|];
      let Hbuy := fresh "Hbuy" in
      intros ? ? [-> ->];
      destruct (_ <=? _) eqn:Hbuy; [|exact Hret];
      apply Z.leb_le in Hbuy;
      wp_step;
      apply upd_player_keeps;
      [ exact Hinv
      | let q := fresh "q" in
        let Hq := fresh "Hq" in
        let Hsm := fresh "Hsm" in
        intros q Hq; simpl; split_and!; try done;
        assert (q = p) as -> by congruence; intros Hsm _;
        pose proof (int_ratio_nonneg (starting_money g) BUY_RESERVE_RATIO
                      Hsm ltac:(done) ltac:(done)); lia
      | let g1 := fresh "g1" in
        let Hinv1 := fresh "Hinv1" in
        let Hfr1 := fresh "Hfr1" in
        let Hpl1 := fresh "Hpl1" in
        let Hown1 := fresh "Hown1" in
        let Hbuy1 := fresh "Hbuy1" in
        intros g1 Hinv1 Hfr1 Hpl1 Hown1 _;
        repeat wp_step; rewrite Hid;
        assert (Hbuy1 : inv (set_players
                  (alter (λ q, set_properties (properties q ++ [position p]) q) i
                         (players g1))
                  (set_ownership (alter (set_owner (Some i)) (position p)
                                        (ownership g1)) g1)))
          by (apply (inv_buy g1 i (set_money (money p - price) p) (position p) ow);
              [ exact Hinv1 | by rewrite Hpl1, list_lookup_alter_eq, Hp
              | exact Hsolv | by rewrite Hown1 | exact Ho ]);
        apply stat_add_spec;
        [ apply sf_props_bought | exact Hbuy1
        | unfold seat; simpl; rewrite length_alter; by eapply seat_frame
        | intros ? ? ?; split;
          [ by apply inv_set_stats
          | apply frame_to_jail; eapply frame_trans; [exact Hfr1|];
            split; simpl; try done; by apply fmap_alter_same ] ] ] ]
  end.

Lemma apply_square_with_spec resolve g i dice :
  inv g → seat g i → 0 ≤ dice →
  (∀ p, players g !! i = Some p → bankrupt p = false →
        position p ∈ CHANCE_POS →
        wp (resolve (_draw_chance rand) i dice) (keeps_jail i g) g) →
  (∀ p, players g !! i = Some p → bankrupt p = false →
        position p ∈ COMMUNITY_POS →
        wp (resolve (_draw_community rand) i dice) (keeps_jail i g) g) →
  wp (apply_square_with rand resolve i dice) (keeps_jail i g) g.
Proof.
  intros Hinv Hi Hdice Hchance Hcommunity. unfold apply_square_with.
  destruct (proj1 (seat_lookup _ _) Hi) as [p Hp].
  destruct (seat_id _ _ _ Hinv Hp) as [Hid _].
  assert (wp (ret tt) (keeps_jail i g) g) as Hret.
  { wp_step. split; [done | apply frame_to_jail, frame_refl]. }
  repeat wp_pure. destruct (bankrupt p) eqn:Hsolv; [done|].
  destruct (BOARD (position p)) as [sq|] eqn:Hsq; [|done].
  pose proof (BOARD_fine _ _ Hsq) as Hfine.
  destruct (sq_type sq) eqn:Htype.
  - (* go *)
    wp_apply credit_spec; [done | done | by unfold GO_REWARD |].
    intros ? g1 (Hinv1 & Hfr1 & _). split; [done | by apply frame_to_jail].
  - purchasable_case Hinv Hi Hdice Hp Hid Hsolv Hsq Htype Hret.
  - purchasable_case Hinv Hi Hdice Hp Hid Hsolv Hsq Htype Hret.
  - purchasable_case Hinv Hi Hdice Hp Hid Hsolv Hsq Htype Hret.
  - by eapply Hchance, chance_square.
  - by eapply Hcommunity, community_square.
  - (* tax *)
    destruct sq as [t|a|? ? ? ?|? ? ?|? ?]; try done.
    { simpl in Htype, Hfine. subst t. done. }
    simpl in Hfine. repeat wp_pure. rewrite Hid.
    apply pay_spec; [apply sf_total_tax_paid | done | done | done | done | lia |].
    intros g1 Hinv1 Hfr1. split; [done | by apply frame_to_jail].
  - done.
  - by apply send_to_jail_spec.
  - done.
Qed.

Lemma card_squares_are_cards pos :
  pos ∈ CHANCE_POS ++ COMMUNITY_POS → is_card_square pos = true.
Proof.
  intros Hpos. set_unfold in Hpos.
  repeat (destruct Hpos as [->|Hpos]); try done.
Qed.

Lemma frame_same g g' :
  players g' = players g → stats g' = stats g →
  round_count g' = round_count g → turn_count g' = turn_count g →
  starting_money g' = starting_money g → frame g g'.
Proof. intros Hpl Hst ? ? ?. split; try done; by rewrite ?Hpl, ?Hst. Qed.

(** Resolving the square a player stands on keeps the game well formed,
    whatever the depth bound, except that with no depth left the square
    must not be a card square. *)
Lemma apply_square_spec depth :
  ∀ g i dice, inv g → seat g i → 0 ≤ dice →
    (depth = 0%nat →
     ∀ p, players g !! i = Some p → is_card_square (position p) = false) →
    wp (_apply_square rand depth i dice) (keeps_jail i g) g.
Proof.
  induction depth as [|d IH]; intros g i dice Hinv Hi Hdice Hdepth;
    cbn [_apply_square]; apply apply_square_with_spec; try done.
  - intros p Hp _ Hpos. exfalso. specialize (Hdepth eq_refl p Hp).
    rewrite card_squares_are_cards in Hdepth; [done|].
    apply elem_of_app. by left.
  - intros p Hp _ Hpos. exfalso. specialize (Hdepth eq_refl p Hp).
    rewrite card_squares_are_cards in Hdepth; [done|].
    apply elem_of_app. by right.
  - intros p Hp Hsolv Hpos. wp_step.
    wp_apply draw_chance_spec; [by apply inv_chance|].
    intros card g1 (Hdraw & Hcyc1 & Hpl & Hown & Hst & Hcomm & Hrc & Htc & Hsm).
    assert (Hinv1 : inv g1).
    { eapply inv_same; try done. rewrite Hcomm. by apply inv_community. }
    assert (Hfr1 : frame g g1) by by apply frame_same.
    assert (Hcard : card ∈ CHANCE_CARDS).
    { eapply draw_ok_elem; [|done]. by apply inv_chance. }
    wp_apply (apply_card_spec _ (λ l, is_card_square l = false));
      [done | by eapply seat_frame | done | | | |].
    + apply deck_card_fine, elem_of_app. by left.
    + intros g2 Hinv2 Hi2 Hpos2. apply IH; [done | done | done |].
      intros _ p2 Hp2. by apply Hpos2.
    + intros p1 l Hp1 Hl. rewrite Hpl in Hp1.
      assert (p1 = p) as -> by congruence.
      by eapply (lands_off_cards_spec _ _ _ _ _ chance_lands_off_cards).
    + intros ? g2 [Hinv2 Hfr2]. split; [done|]. by eapply frame_jail_trans_l.
  - intros p Hp Hsolv Hpos. wp_step.
    wp_apply draw_community_spec; [by apply inv_community|].
    intros card g1 (Hdraw & Hcyc1 & Hpl & Hown & Hst & Hch & Hrc & Htc & Hsm).
    assert (Hinv1 : inv g1).
    { eapply inv_same; try done. rewrite Hch. by apply inv_chance. }
    assert (Hfr1 : frame g g1) by by apply frame_same.
    assert (Hcard : card ∈ COMMUNITY_CARDS).
    { eapply draw_ok_elem; [|done]. by apply inv_community. }
    wp_apply (apply_card_spec _ (λ l, is_card_square l = false));
      [done | by eapply seat_frame | done | | | |].
    + apply deck_card_fine, elem_of_app. by right.
    + intros g2 Hinv2 Hi2 Hpos2. apply IH; [done | done | done |].
      intros _ p2 Hp2. by apply Hpos2.
    + intros p1 l Hp1 Hl. rewrite Hpl in Hp1.
      assert (p1 = p) as -> by congruence.
      by eapply (lands_off_cards_spec _ _ _ _ _ community_lands_off_cards).
    + intros ? g2 [Hinv2 Hfr2]. split; [done|]. by eapply frame_jail_trans_l.
Qed.

Lemma apply_card_depth_spec depth g i card dice :
  inv g → seat g i → 0 ≤ dice → card ∈ CHANCE_CARDS ++ COMMUNITY_CARDS →
  (depth ≠ 0)%nat →
  wp (_apply_card rand depth i card dice) (keeps_jail i g) g.
Proof.
  intros Hinv Hi Hdice Hcard Hdepth. unfold _apply_card.
  apply (apply_card_spec _ (λ _, True)); try done.
  - by apply deck_card_fine.
  - intros g1 Hinv1 Hi1 _. apply apply_square_spec; done.
Qed.

End Resolve.

(** * Jail, turns and rounds *)

Lemma frame_round_refl g : frame_round g g.
Proof. by split. Qed.

Lemma frame_round_trans g1 g2 g3 :
  frame_round g1 g2 → frame_round g2 g3 → frame_round g1 g3.
Proof. intros [] []. split; congruence. Qed.

Lemma frame_turn_refl g : frame_turn g g.
Proof. split; [apply frame_round_refl | done]. Qed.

Lemma frame_turn_trans g1 g2 g3 :
  frame_turn g1 g2 → frame_turn g2 g3 → frame_turn g1 g3.
Proof.
  intros [] []. split; [by eapply frame_round_trans | congruence].
Qed.

Lemma frame_jail_turn i g g' : frame_jail i g g' → frame_turn g g'.
Proof. intros []. by repeat split. Qed.

Lemma frame_frame_turn g g' : frame g g' → frame_turn g g'.
Proof. intros H. by apply (frame_jail_turn 0), frame_to_jail. Qed.

Lemma seat_frame_turn g g' i : frame_turn g g' → seat g i → seat g' i.
Proof. unfold seat. intros [[-> _ _ _] _]. done. Qed.

Lemma seat_frame_round g g' i : frame_round g g' → seat g i → seat g' i.
Proof. unfold seat. intros [-> _ _ _]. done. Qed.

Section Turn.

Variable rand : N → N.

Lemma randint_spec g a b :
  inv g → a ≤ b →
  wp (randint rand a b)
     (λ r g', inv g' ∧ frame g g' ∧ players g' = players g ∧ a ≤ r ≤ b) g.
Proof.
  intros Hinv Hab. unfold wp, randint, randbelow. simpl.
  pose proof (Z.mod_pos_bound (Z.of_N (rand (rng_pos g))) (b - a + 1)).
  split_and!; try done; try lia; try apply inv_set_rng_pos;
    try apply frame_set_rng_pos; done.
Qed.

Lemma roll_spec g :
  inv g →
  wp (roll rand)
     (λ d g', inv g' ∧ frame g g' ∧ players g' = players g ∧
              1 ≤ d.1 ≤ 6 ∧ 1 ≤ d.2 ≤ 6) g.
Proof.
  intros Hinv. unfold roll. wp_step.
  wp_apply randint_spec; [done | lia |].
  intros d1 g1 (Hinv1 & Hfr1 & Hpl1 & Hd1). wp_step.
  wp_apply randint_spec; [done | lia |].
  intros d2 g2 (Hinv2 & Hfr2 & Hpl2 & Hd2). wp_step. simpl.
  split_and!; first [done | by eapply frame_trans | congruence | lia].
Qed.

Lemma jail_turn_spec g i :
  inv g → seat g i → wp (_jail_turn rand i) (jail_result i g) g.
Proof.
  intros Hinv Hi. unfold _jail_turn.
  destruct (proj1 (seat_lookup _ _) Hi) as [p Hp].
  wp_step.
  apply upd_player_keeps; [done | by intros q Hq; simpl |].
  intros g1 Hinv1 Hfr1 Hpl1 _ _.
  assert (Hp1 : players g1 !! i = Some (set_jail_turns (jail_turns p + 1) p)).
  { by rewrite Hpl1, list_lookup_alter_eq, Hp. }
  (* leaving jail and rolling, from a state where only the cash, the
     cards and the jail counters of player [i] have changed *)
  assert (∀ g2 p2, inv g2 → frame_turn g g2 → players g2 !! i = Some p2 →
            consec_doubles p2 = consec_doubles p → bankrupt p2 = bankrupt p →
            wp (leave_jail i;; let* d := roll rand in ret (Some d))
               (jail_result i g) g2) as Hleave.
  { intros g2 p2 Hinv2 Hfr2 Hp2 Hcd2 Hb2. unfold leave_jail. repeat wp_step.
    set (g3 := set_players _ _).
    assert (Hinv3 : inv g3).
    { subst g3. repeat (apply inv_alter_player; [|by intros q Hq; simpl]). done. }
    assert (Hp3 : players g3 !! i = Some (set_jail_turns 0 (set_in_jail false p2))).
    { subst g3. simpl. by rewrite !list_lookup_alter_eq, Hp2. }
    assert (Hfr3 : frame_turn g g3).
    { eapply frame_turn_trans; [done|]. subst g3.
      repeat split; simpl; try done. by rewrite !length_alter. }
    clearbody g3.
    wp_apply roll_spec; [done|].
    intros d g4 (Hinv4 & Hfr4 & Hpl4 & Hd1 & Hd2). wp_step.
    split_and!; [done | | |].
    - eapply frame_turn_trans; [done|]. by apply frame_frame_turn.
    - intros q Hq. assert (q = p) as -> by congruence.
      eexists. rewrite Hpl4, Hp3. split; [done|]. simpl. done.
    - by intros ? [= <-]. }
  repeat wp_pure. simpl. destruct (0 <? get_out_cards p).
  { wp_step.
    apply upd_player_keeps; [done | by intros q Hq; simpl |].
    intros g2 Hinv2 Hfr2 Hpl2 _ _.
    eapply Hleave; [done | | by rewrite Hpl2, list_lookup_alter_eq, Hp1 | done | done].
    apply frame_frame_turn. by eapply frame_trans. }
  repeat wp_pure.
  destruct (((3 <=? jail_turns p + 1) ||
             (int_ratio (starting_money g1) BAIL_RICH_RATIO <? money p))
            && (JAIL_BAIL <=? money p)) eqn:Hbail.
  { apply andb_prop in Hbail as [_ Hcash%Z.leb_le]. wp_step.
    apply upd_player_keeps; [done | |].
    { intros q Hq. simpl. split_and!; try done.
      assert (q = set_jail_turns (jail_turns p + 1) p) as -> by congruence.
      simpl. lia. }
    intros g2 Hinv2 Hfr2 Hpl2 _ _.
    eapply Hleave; [done | | by rewrite Hpl2, list_lookup_alter_eq, Hp1 | done | done].
    apply frame_frame_turn. by eapply frame_trans. }
  wp_step. wp_apply roll_spec; [done|].
  intros [d1 d2] g2 (Hinv2 & Hfr2 & Hpl2 & Hd1 & Hd2). simpl in Hd1, Hd2.
  destruct (d1 =? d2).
  - unfold leave_jail. repeat wp_step.
    split_and!.
    + repeat (apply inv_alter_player; [|by intros q Hq; simpl]). done.
    + eapply frame_turn_trans; [apply frame_frame_turn; by eapply frame_trans|].
      repeat split; simpl; try done. by rewrite !length_alter.
    + intros q Hq. assert (q = p) as -> by congruence.
      eexists. simpl. rewrite !list_lookup_alter_eq, Hpl2, Hp1. simpl.
      split; [done|]. done.
    + intros ? [= <-]. done.
  - wp_step. split_and!; [done | | |].
    + apply frame_frame_turn. by eapply frame_trans.
    + intros q Hq. assert (q = p) as -> by congruence.
      eexists. rewrite Hpl2, Hp1. split; [done|]. simpl.
      split_and!; [done | done |]. by intros [? ?].
    + done.
Qed.

Lemma view_lookup g g' i p p' :
  turn_view <$> players g' = turn_view <$> players g →
  players g !! i = Some p → players g' !! i = Some p' →
  in_jail p' = in_jail p ∧ consec_doubles p' = consec_doubles p.
Proof.
  intros Hv Hp Hp'.
  assert ((turn_view <$> players g') !! i = (turn_view <$> players g) !! i) as H
    by by rewrite Hv.
  rewrite !list_lookup_fmap, Hp, Hp' in H. simpl in H.
  by injection H as -> ->.
Qed.

(** The turn loop ends within the bound: every repeat follows a double,
    which raises the doubles counter, and the third double ends the
    turn. *)
Lemma turn_loop_spec fuel i :
  ∀ g, inv g → seat g i →
       (∀ p, players g !! i = Some p →
             0 ≤ consec_doubles p ≤ 2 ∧ 3 - Z.of_nat fuel ≤ consec_doubles p) →
       wp (turn_loop rand fuel i) (λ _ g', inv g' ∧ frame_turn g g') g.
Proof.
  induction fuel as [|n IH]; intros g Hinv Hi Hcd.
  { exfalso. destruct (proj1 (seat_lookup _ _) Hi) as [p Hp].
    specialize (Hcd p Hp). simpl in Hcd. lia. }
  destruct (proj1 (seat_lookup _ _) Hi) as [p Hp].
  destruct (Hcd p Hp) as [Hk Hfuel].
  cbn [turn_loop]. repeat wp_pure.
  assert (wp (if in_jail p then _jail_turn rand i
              else let* d := roll rand in ret (Some d))
             (jail_result i g) g) as Hresult.
  { destruct (in_jail p) eqn:Hjail; [by apply jail_turn_spec|].
    wp_step. wp_apply roll_spec; [done|].
    intros d g1 (Hinv1 & Hfr1 & Hpl1 & Hd1 & Hd2). wp_step.
    split_and!; [done | by apply frame_frame_turn | |].
    - intros q Hq. assert (q = p) as -> by congruence.
      exists p. by rewrite Hpl1.
    - by intros ? [= <-]. }
  eapply wp_mono; [exact Hresult|]. cbv beta. clear Hresult.
  intros result g1 (Hinv1 & Hfr1 & Hp1 & Hdice).
  destruct (Hp1 p Hp) as (p1 & Hp1' & Hcd1 & _ & Hout). clear Hp1.
  destruct result as [[d1 d2]|]; [|by wp_step].
  specialize (Hout ltac:(done)). destruct (Hdice _ eq_refl) as [Hd1 Hd2].
  simpl in Hd1, Hd2. clear Hdice.
  assert (Hi1 : seat g1 i) by by eapply seat_frame_turn.
  repeat wp_pure. rewrite Hout. rewrite andb_true_r.
  (* the doubles counter after the roll *)
  assert (wp (if d1 =? d2
              then upd_player i
                     (λ p0, set_consec_doubles (consec_doubles p0 + 1) p0);;
                   let* p0 := player i in
                   if consec_doubles p0 =? 3
                   then _send_to_jail i;; ret true
                   else ret false
              else ret false)
             (λ third g2, inv g2 ∧ frame_turn g g2 ∧
                (third = false →
                 ∃ p2, players g2 !! i = Some p2 ∧ in_jail p2 = false ∧
                       0 ≤ consec_doubles p2 ≤ 2 ∧
                       ((d1 =? d2) = true →
                        consec_doubles p2 = consec_doubles p + 1))) g1)
    as Hthird.
  { destruct (d1 =? d2) eqn:Hdouble.
    - repeat wp_step. simpl. destruct (consec_doubles p1 + 1 =? 3) eqn:H3.
      + wp_step.
        wp_apply send_to_jail_spec.
        { apply inv_alter_player; [done | by intros q Hq; simpl]. }
        { unfold seat. simpl. by rewrite length_alter. }
        intros ? g2 [Hinv2 Hfr2]. wp_step. split_and!; [done | | done].
        eapply frame_turn_trans; [done|].
        eapply frame_turn_trans; [|by eapply frame_jail_turn].
        repeat split; simpl; try done. by rewrite length_alter.
      + wp_step. apply Z.eqb_neq in H3. split_and!.
        * apply inv_alter_player; [done | by intros q Hq; simpl].
        * eapply frame_turn_trans; [done|].
          repeat split; simpl; try done. by rewrite length_alter.
        * intros _. eexists. simpl. rewrite list_lookup_alter_eq, Hp1'. simpl.
          split; [done|]. simpl. split_and!; [done | lia | lia | lia].
    - wp_step. split_and!; [done | done |]. intros _.
      exists p1. split_and!; [done | done | lia | lia | done]. }
  eapply wp_mono; [exact Hthird|]. cbv beta. clear Hthird.
  intros third g2 (Hinv2 & Hfr2 & Hnot). destruct third; [by wp_step|].
  destruct (Hnot eq_refl) as (p2 & Hp2 & Hjail2 & Hcd2 & Hdbl2). clear Hnot.
  assert (Hi2 : seat g2 i) by by eapply seat_frame_turn.
  repeat wp_pure. rewrite Hjail2. cbn [negb].
  wp_apply move_steps_spec; [done | done |].
  intros ? g3 (Hinv3 & Hfr3 & _ & _). wp_step.
  wp_apply apply_square_spec; [done | by eapply seat_frame | lia | done |].
  intros ? g4 [Hinv4 Hfr4].
  assert (Hi4 : seat g4 i).
  { eapply seat_frame_jail; [done|]. by eapply seat_frame. }
  destruct (proj1 (seat_lookup _ _) Hi4) as [p4 Hp4].
  assert (Hfr04 : frame_turn g g4).
  { eapply frame_turn_trans; [done|].
    eapply frame_turn_trans; [by apply frame_frame_turn|].
    by eapply frame_jail_turn. }
  repeat wp_pure. destruct (bankrupt p4); [by wp_step|].
  wp_step. wp_apply try_build_spec; [done | done |].
  intros ? g5 [Hinv5 Hfr5].
  assert (Hi5 : seat g5 i) by by eapply seat_frame.
  destruct (proj1 (seat_lookup _ _) Hi5) as [p5 Hp5].
  assert (Hfr05 : frame_turn g g5).
  { eapply frame_turn_trans; [done|]. by apply frame_frame_turn. }
  repeat wp_pure.
  destruct (negb (d1 =? d2) || in_jail p5) eqn:Hstop; [by wp_step|].
  apply orb_false_elim in Hstop as [Hdouble%negb_false_iff Hjail5].
  wp_apply IH; [done | done | |].
  - intros q Hq. assert (q = p5) as -> by congruence.
    destruct (view_lookup _ _ _ _ _ (fr_view _ _ Hfr5) Hp4 Hp5) as [Hj45 Hc45].
    destruct (fj_view _ _ _ Hfr4) as [Hv34|(q4 & Hq4 & Hj4)];
      [|assert (q4 = p4) as -> by congruence; congruence].
    destruct (frame_lookup _ _ _ _ Hfr3 Hp2) as (p3 & Hp3 & Hv23).
    destruct (view_lookup _ _ _ _ _ Hv34 Hp3 Hp4) as [_ Hc34].
    unfold turn_view in Hv23. injection Hv23 as _ Hc23.
    specialize (Hdbl2 Hdouble). lia.
  - intros ? g6 [Hinv6 Hfr6]. split; [done|]. by eapply frame_turn_trans.
Qed.

Lemma play_turn_spec g i :
  inv g → seat g i →
  wp (_play_turn rand i) (λ _ g', inv g' ∧ frame_round g g') g.
Proof.
  intros Hinv Hi. unfold _play_turn.
  destruct (proj1 (seat_lookup _ _) Hi) as [p Hp].
  repeat wp_pure. destruct (bankrupt p).
  { wp_step. split; [done | apply frame_round_refl]. }
  repeat wp_step.
  wp_apply turn_loop_spec.
  { apply inv_alter_player; [done | by intros q Hq; simpl]. }
  { unfold seat. simpl. by rewrite length_alter. }
  { intros q. simpl. rewrite list_lookup_alter_eq, Hp. simpl. intros [= <-].
    simpl. unfold turn_fuel. lia. }
  intros ? g1 [Hinv1 [Hfr1 _]]. wp_step. split; [by apply inv_set_turn_count|].
  eapply frame_round_trans; [|eapply frame_round_trans; [exact Hfr1|]].
  - split; simpl; try done. by rewrite length_alter.
  - by split.
Qed.

Lemma play_round_spec seats :
  ∀ g, inv g → (∀ j, j ∈ seats → seat g j) →
       wp (play_round rand seats) (λ _ g', inv g' ∧ frame_round g g') g.
Proof.
  induction seats as [|i seats IH]; intros g Hinv Hseats; simpl.
  { wp_step. split; [done | apply frame_round_refl]. }
  assert (Hi : seat g i) by (apply Hseats; constructor).
  destruct (proj1 (seat_lookup _ _) Hi) as [p Hp].
  repeat wp_pure.
  assert (wp (if negb (bankrupt p) then _play_turn rand i else ret tt)
             (λ _ g', inv g' ∧ frame_round g g') g) as Hturn.
  { destruct (negb (bankrupt p)); [by apply play_turn_spec|].
    wp_step. split; [done | apply frame_round_refl]. }
  eapply wp_mono; [exact Hturn|]. cbv beta.
  intros ? g1 [Hinv1 Hfr1].
  wp_apply IH; [done | |].
  { intros j Hj. eapply seat_frame_round; [done|]. apply Hseats. by constructor. }
  intros ? g2 [Hinv2 Hfr2]. split; [done|]. by eapply frame_round_trans.
Qed.

End Turn.

(** * The game loop *)

Lemma net_worth_loop_spec g props :
  ∀ worth, inv g → (∀ pos, pos ∈ props → purchasable pos = true) →
    wp (net_worth_loop props worth) (reads g (λ _, True)) g.
Proof.
  induction props as [|pos props IH]; intros worth Hinv Hprops; simpl.
  { by wp_step. }
  assert (Hpurch : purchasable pos = true) by (apply Hprops; constructor).
  destruct (proj2 (inv_dom _ Hinv pos) Hpurch) as [ow How].
  destruct (purchasable_square _ Hpurch) as (sq & price & m & Hsq & Hprice & Hm & _).
  repeat wp_pure.
  assert (∀ w, wp (net_worth_loop props w) (reads g (λ _, True)) g) as Hrest.
  { intros w. apply IH; [done|]. intros q Hq. apply Hprops. by constructor. }
  destruct (mortgaged ow).
  - repeat wp_pure. apply Hrest.
  - repeat wp_pure. destruct sq; try (wp_step; apply Hrest).
    destruct (0 <? buildings ow); wp_step; apply Hrest.
Qed.

Lemma net_worth_spec g i :
  inv g → seat g i → wp (net_worth i) (reads g (λ _, True)) g.
Proof.
  intros Hinv Hi. unfold net_worth.
  destruct (proj1 (seat_lookup _ _) Hi) as [p Hp]. repeat wp_pure.
  apply net_worth_loop_spec; [done|]. intros pos Hin.
  destruct (inv_props _ Hinv _ _ _ Hp Hin) as (ow & How & _).
  apply (inv_dom _ Hinv). eauto.
Qed.

Lemma max_net_worth_spec g l :
  ∀ best w, inv g → seat g best → (∀ j, j ∈ l → seat g j) →
    wp (max_net_worth best w l) (reads g (λ r, seat g r)) g.
Proof.
  induction l as [|j l IH]; intros best w Hinv Hbest Hl; simpl.
  { by wp_step. }
  wp_step. wp_apply net_worth_spec; [done | apply Hl; constructor |].
  intros wj ? [-> _].
  destruct (w <? wj); apply IH; try done; try (apply Hl; constructor);
    intros k Hk; apply Hl; by constructor.
Qed.

Lemma active_seats_seat g j : j ∈ active_seats g → seat g j.
Proof.
  unfold active_seats. intros [_ Hj]%list_elem_of_filter.
  apply elem_of_seq in Hj. unfold seat. lia.
Qed.

Section Run.

Variable rand : N → N.

Lemma run_loop_spec fuel :
  ∀ g, inv g → 0 ≤ round_count g < MAX_ROUNDS →
       timed_out (stats g) = false →
       MAX_ROUNDS - round_count g ≤ Z.of_nat fuel →
       wp (run_loop rand fuel) (λ _ g', run_result g g') g.
Proof.
  induction fuel as [|n IH]; intros g Hinv Hrc Hto Hfuel.
  { simpl in Hfuel. lia. }
  cbn [run_loop]. repeat wp_step.
  set (g1 := set_round_count (round_count g + 1) g).
  assert (Hinv1 : inv g1) by by apply inv_set_round_count.
  wp_apply play_round_spec; [done | |].
  { intros j Hj. apply elem_of_seq in Hj. unfold seat, g1 in *. simpl in *. lia. }
  intros ? g2 [Hinv2 [Hlen2 Hrc2 Hto2 Hsm2]]. simpl in Hrc2, Hto2.
  repeat wp_pure.
  destruct (length (active_seats g2) <=? 1)%nat eqn:Hactive.
  - apply Nat.leb_le in Hactive.
    assert (∀ w, wp (set_winner_stat w) (λ _ g', run_result g g') g2) as Hwin.
    { intros w. unfold set_winner_stat. wp_step. split_and!.
      - apply inv_set_stats; [done|]. by apply inv_stats.
      - simpl. lia.
      - simpl. lia.
      - simpl. rewrite Hto2, Hto. split; [done|].
        intros [_ Hlt]. unfold active_seats, is_active in *. simpl in Hlt. lia. }
    destruct (active_seats g2) as [|w0 rest] eqn:Hseats; [apply Hwin|].
    assert (Ha : seat g2 w0).
    { apply active_seats_seat. rewrite Hseats. constructor. }
    destruct (proj1 (seat_lookup _ _) Ha) as [pa Hpa].
    repeat wp_pure. apply Hwin.
  - apply Nat.leb_gt in Hactive.
    destruct (MAX_ROUNDS <=? round_count g2) eqn:Hmax.
    + apply Z.leb_le in Hmax.
      destruct (active_seats g2) as [|w0 rest] eqn:Hseats; [simpl in Hactive; lia|].
      assert (Hall : ∀ j, j ∈ w0 :: rest → seat g2 j).
      { intros j Hj. apply active_seats_seat. by rewrite Hseats. }
      wp_step. wp_apply net_worth_spec; [done | apply Hall; constructor |].
      intros w ? [-> _]. wp_step.
      wp_apply max_net_worth_spec; [done | apply Hall; constructor | |].
      { intros j Hj. apply Hall. by constructor. }
      intros best ? [-> Hbest].
      destruct (proj1 (seat_lookup _ _) Hbest) as [pb Hpb].
      unfold set_winner_stat. repeat wp_step. split_and!.
      * apply inv_set_stats; [by apply inv_set_stats; [|apply inv_stats]|].
        simpl. by apply inv_stats.
      * simpl. lia.
      * simpl. lia.
      * simpl. split; [|done]. intros _. split; [lia|].
        unfold active_seats, is_active in *. simpl. rewrite Hseats. done.
    + apply Z.leb_gt in Hmax.
      wp_apply IH; [done | lia | congruence | lia |].
      intros ? g3 (Hinv3 & Hrc3 & Hto3). split_and!; [done | lia | lia | done].
Qed.

End Run.

(** * Reachable games are well formed *)

Lemma wp_ok_inv {A} (m : M A) Q g a g' :
  wp m Q g → m g = Ok (a, g') → Q a g'.
Proof. unfold wp. intros H Hrun. by rewrite Hrun in H. Qed.

Lemma initial_lookup pos :
  initial_ownership !! pos =
  if purchasable pos then Some (mkOwnership None 0 false) else None.
Proof.
  destruct (decide (0 ≤ pos < 40)) as [Hin|Hout].
  - assert (forallb (λ q, bool_decide
              (initial_ownership !! q =
               if purchasable q then Some (mkOwnership None 0 false) else None))
              (seqZ 0 40) = true) as Hall by by vm_compute.
    rewrite forallb_forall in Hall. specialize (Hall pos).
    eapply bool_decide_eq_true_1, Hall, list_elem_of_In, elem_of_seqZ. lia.
  - assert (purchasable pos = false) as ->.
    { unfold purchasable. destruct (BOARD pos) as [sq|] eqn:Hsq; [|done].
      apply BOARD_range in Hsq. lia. }
    apply not_elem_of_list_to_map_1. intros Hpos.
    apply list_elem_of_fmap in Hpos as ([q ow] & -> & Hq).
    apply list_elem_of_omap in Hq as (q' & Hq' & Hsome). simpl in Hout.
    destruct (BOARD q') as [sq|] eqn:Hsq; [|done].
    destruct (purchasable_type (sq_type sq)); [|done].
    injection Hsome as -> _. apply BOARD_range in Hsq. lia.
Qed.

Section Reach.

Variable rand : N → N.

Lemma init_inv n sm pos g : __init__ rand n sm pos = Ok g → inv g.
Proof.
  destruct (init_ok rand n sm pos) as (d1 & d2 & pos' & -> & Hc & Hm).
  intros [= <-]. split; simpl; try done.
  - intros i p Hp. rewrite list_lookup_fmap in Hp.
    destruct (seq 0 (Z.to_nat n) !! i) as [j|] eqn:Hj; [|done].
    apply lookup_seq in Hj as [-> _]. simpl in Hp. by injection Hp as <-.
  - intros q. rewrite initial_lookup. destruct (purchasable q); [|by split; [intros []|]].
    split; [done | by eexists].
  - intros i p q Hp Hin. rewrite list_lookup_fmap in Hp.
    destruct (seq 0 (Z.to_nat n) !! i) as [j|]; [|done].
    simpl in Hp. injection Hp as <-. by apply elem_of_nil in Hin.
  - intros q ow o. rewrite initial_lookup. destruct (purchasable q); [|done].
    by intros [= <-].
  - intros q ow. rewrite initial_lookup. destruct (purchasable q); [|done].
    intros [= <-]. by split.
  - intros q ow. rewrite initial_lookup. destruct (purchasable q); [|done].
    intros [= <-]. simpl. lia.
  - intros Hsm i p Hp. rewrite list_lookup_fmap in Hp.
    destruct (seq 0 (Z.to_nat n) !! i) as [j|]; [|done].
    simpl in Hp. by injection Hp as <-.
  - unfold stats_ok. simpl. rewrite !length_replicate, length_fmap, length_seq. done.
Qed.

Theorem reachable_inv g : reachable rand g → inv g.
Proof.
  induction 1 as
    [ n sm pos g Hinit
    | g _ IH | g w _ IH | g b _ IH | g v _ IH | g v _ IH
    | g i a g' _ IH Hi Hrun | g i a g' _ IH Hi Hrun
    | g i steps a g' _ IH Hi Hrun
    | g depth i dice a g' _ IH Hi Hd Hdice Hrun
    | g depth i card dice a g' _ IH Hi Hd Hdice Hcard Hrun
    | g a g' _ IH Hrun | g a g' _ IH Hrun
    | g i amount source a g' _ IH Hi Ham Hrun
    | g i amount creditor a g' _ IH Hi Ham Hcred Hrun
    | g i needed a g' _ IH Hi Hrun
    | g i creditor a g' _ IH Hi Hliq Hcred Hrun
    | g i a g' _ IH Hi Hrun ].
  - by eapply init_inv.
  - by apply inv_set_round_count.
  - apply inv_set_stats; [done | by apply inv_stats].
  - apply inv_set_stats; [done | by apply inv_stats].
  - apply inv_set_stats; [done | by apply inv_stats].
  - apply inv_set_stats; [done | by apply inv_stats].
  - by destruct (wp_ok_inv _ _ _ _ _ (play_turn_spec rand g i IH Hi) Hrun).
  - by destruct (wp_ok_inv _ _ _ _ _ (jail_turn_spec rand g i IH Hi) Hrun).
  - by destruct (wp_ok_inv _ _ _ _ _ (move_steps_spec g i steps IH Hi) Hrun).
  - assert (wp (_apply_square rand depth i dice) (keeps_jail i g) g) as Hwp.
    { by apply apply_square_spec. }
    by destruct (wp_ok_inv _ _ _ _ _ Hwp Hrun).
  - assert (wp (_apply_card rand depth i card dice) (keeps_jail i g) g) as Hwp.
    { by apply apply_card_depth_spec. }
    by destruct (wp_ok_inv _ _ _ _ _ Hwp Hrun).
  - pose proof (draw_chance_spec rand g (inv_chance _ IH)) as Hwp.
    destruct (wp_ok_inv _ _ _ _ _ Hwp Hrun)
      as (_ & Hcyc & Hpl & Hown & Hst & Hm & _ & _ & Hsm).
    eapply inv_same; try done. rewrite Hm. by apply inv_community.
  - pose proof (draw_community_spec rand g (inv_community _ IH)) as Hwp.
    destruct (wp_ok_inv _ _ _ _ _ Hwp Hrun)
      as (_ & Hcyc & Hpl & Hown & Hst & Hc & _ & _ & Hsm).
    eapply inv_same; try done. rewrite Hc. by apply inv_chance.
  - assert (wp (_credit i amount source)
               (λ _ g', inv g' ∧ frame g g' ∧ ownership g' = ownership g ∧
                  players g' = alter (λ p, set_money (money p + amount) p) i (players g))
               g) as Hwp by by apply credit_spec.
    by destruct (wp_ok_inv _ _ _ _ _ Hwp Hrun).
  - assert (wp (_charge i amount creditor) (keeps g) g) as Hwp
      by by apply charge_spec.
    by destruct (wp_ok_inv _ _ _ _ _ Hwp Hrun).
  - by destruct (wp_ok_inv _ _ _ _ _ (raise_funds_spec g i needed IH Hi) Hrun).
  - by destruct (wp_ok_inv _ _ _ _ _ (bankrupt_spec g i creditor IH Hi Hcred Hliq) Hrun).
  - by destruct (wp_ok_inv _ _ _ _ _ (try_build_spec g i IH Hi) Hrun).
Qed.

End Reach.

(** * Further properties of the engine *)

Lemma bind_ok_inv {A B} (m : M A) (f : A → M B) g b g2 :
  bind m f g = Ok (b, g2) → ∃ a g1, m g = Ok (a, g1) ∧ f a g1 = Ok (b, g2).
Proof.
  unfold bind. destruct (m g) as [[a g1]| |]; [eauto | done | done].
Qed.

Lemma reachable_play_round rand seats :
  ∀ g g', reachable rand g → (∀ j, j ∈ seats → seat g j) →
          play_round rand seats g = Ok (tt, g') → reachable rand g'.
Proof.
  induction seats as [|i rest IH]; intros g g' Hr Hseats Hrun.
  - by injection Hrun as <-.
  - cbn [play_round] in Hrun.
    apply bind_ok_inv in Hrun as (p & g1 & Hp & Hrun).
    unfold player, lift in Hp. destruct (players g !! i); [|done].
    injection Hp as -> <-.
    apply bind_ok_inv in Hrun as ([] & g2 & Hturn & Hrun).
    assert (seat g i) as Hi by (apply Hseats; by left).
    destruct (negb (bankrupt p)).
    + pose proof (play_turn_spec rand g i (reachable_inv rand g Hr) Hi) as Hwp.
      destruct (wp_ok_inv _ _ _ _ _ Hwp Hturn) as [_ Hfr].
      eapply (IH g2); [by eapply reach_play_turn | | done].
      intros j Hj. eapply seat_frame_round; [done|]. apply Hseats. by right.
    + injection Hturn as <-. eapply (IH g); [done | | done].
      intros j Hj. apply Hseats. by right.
Qed.

Lemma seq_seat g j : j ∈ seq 0 (length (players g)) → seat g j.
Proof. intros Hj%elem_of_seq. unfold seat. lia. Qed.

Lemma reachable_play_rounds rand n :
  ∀ g g', reachable rand g → play_rounds rand n g = Ok (tt, g') →
          reachable rand g'.
Proof.
  induction n as [|n IH]; intros g g' Hr Hrun.
  - by injection Hrun as <-.
  - cbn [play_rounds] in Hrun.
    apply bind_ok_inv in Hrun as (g0 & g1 & Hg & Hrun).
    injection Hg as <- <-.
    apply bind_ok_inv in Hrun as ([] & g2 & Hround & Hrun).
    eapply IH; [|done].
    eapply reachable_play_round; [done | apply seq_seat | done].
Qed.

Lemma example_start_reachable : reachable rand_two_utilities example_start.
Proof. by apply (reach_init _ 2 30000 0%N). Qed.

Lemma example_game_reachable : reachable rand_two_utilities example_game.
Proof.
  eapply (reachable_play_rounds _ 4); [apply example_start_reachable|].
  by vm_compute.
Qed.

(** ** Decks and dice *)

Lemma normal_jail_Permutation cards :
  normal_cards cards ++ jail_cards cards ≡ₚ cards.
Proof.
  unfold normal_cards, jail_cards. induction cards as [|c cards IH]; [done|].
  rewrite !filter_cons. destruct (is_jail_card c) eqn:Hc.
  - rewrite decide_False, decide_True by done.
    rewrite <- Permutation_middle. by constructor.
  - rewrite decide_True, decide_False by done. simpl. by constructor.
Qed.

(** X1.  A new deck holds exactly the cards of the list it is made from: none
    is lost and none is added, whatever the random source. *)
Theorem make_deck_permutation rand cards pos :
  (_make_deck rand cards pos).1 ≡ₚ cards.
Proof.
  destruct (make_deck_cycle rand cards pos) as (sh & Hsh & ->).
  rewrite Hsh. apply normal_jail_Permutation.
Qed.

(** X2.  [roll] returns two dice between 1 and 6 whatever the random source
    yields; it takes two numbers from the source and touches nothing else
    of the game. *)
Theorem roll_in_range rand g :
  ∃ d1 d2, roll rand g = Ok ((d1, d2), set_rng_pos (rng_pos g + 2) g) ∧
           1 ≤ d1 ≤ 6 ∧ 1 ≤ d2 ≤ 6.
Proof.
  unfold roll, bind, randint, randbelow, ret. simpl.
  eexists _, _. split.
  - do 2 f_equal. unfold set_rng_pos. simpl. f_equal. lia.
  - change (6 - 1 + 1) with 6.
    pose proof (Z.mod_pos_bound (Z.of_N (rand (rng_pos g))) 6).
    pose proof (Z.mod_pos_bound (Z.of_N (rand (rng_pos g + 1)%N)) 6).
    lia.
Qed.

(** ** Movement *)

Section Movement.

Variable rand : N → N.

(** X3.  [_move_steps] puts the player on the square [(old + steps) mod 40],
    always a square of the board, and pays the start bonus exactly when
    the move wraps past the start square without stopping on it; a move
    that stops on the start square is paid nothing here.  No other player
    and no ownership record changes. *)
Theorem move_steps_bonus g i p steps :
  reachable rand g → players g !! i = Some p →
  let new := (position p + steps) mod BOARD_SIZE in
  let bonus :=
    if (new <? position p) && negb (new =? 0) then GO_REWARD else 0 in
  0 ≤ new < BOARD_SIZE ∧
  ∃ g' p', _move_steps i steps g = Ok (tt, g') ∧
    players g' !! i = Some p' ∧
    position p' = new ∧ money p' = money p + bonus ∧
    (∀ j, j ≠ i → players g' !! j = players g !! j) ∧
    ownership g' = ownership g.
Proof.
  intros Hr Hp new bonus.
  pose proof (reachable_inv rand g Hr) as Hinv.
  destruct (seat_id g i p Hinv Hp) as [_ Hi].
  split; [apply Z.mod_pos_bound; by unfold BOARD_SIZE|].
  assert (wp (_move_steps i steps)
             (λ _ g', ∃ p', players g' !! i = Some p' ∧
                position p' = new ∧ money p' = money p + bonus ∧
                (∀ j, j ≠ i → players g' !! j = players g !! j) ∧
                ownership g' = ownership g) g) as Hwp.
  { unfold _move_steps. wp_step. wp_step. fold new.
    destruct (new <? position p) eqn:Hlt; destruct (new =? 0) eqn:Hz;
      simpl; subst bonus; simpl.
    - destruct (0 <? steps); simpl; repeat wp_step;
        (eexists; split; [solve_lookup|]); simpl;
        (split_and!; [done | lia | | done]);
        intros j Hj; by rewrite list_lookup_alter_ne.
    - wp_step. wp_apply credit_spec; [done | done | by unfold GO_REWARD |].
      intros ? g1 (_ & _ & Hown & Hpl). wp_step.
      exists (set_position new (set_money (money p + GO_REWARD) p)).
      simpl. rewrite Hpl, Hown.
      split_and!; [solve_lookup | done | done | | done].
      intros j Hj. by rewrite !list_lookup_alter_ne.
    - destruct (0 <? steps); simpl; repeat wp_step;
        (eexists; split; [solve_lookup|]); simpl;
        (split_and!; [done | lia | | done]);
        intros j Hj; by rewrite list_lookup_alter_ne.
    - repeat wp_step. eexists; split; [solve_lookup|]. simpl.
      split_and!; [done | lia | | done].
      intros j Hj. by rewrite list_lookup_alter_ne. }
  apply wp_ok in Hwp as ([] & g' & Hrun & p' & Hrest). eauto.
Qed.

End Movement.

(** ** Rent *)

Section Rent.

Variable rand : N → N.

(** X7.  The rent of a property that has an owner and is not mortgaged is the
    entry of its rent table for its number of buildings, doubled exactly
    when it carries no building and its owner holds every square of its
    colour group unmortgaged.  The dice and the station flag play no part,
    and the game is left as it was. *)
Theorem property_rent g pos grp price m rents ow o dice double_station :
  reachable rand g →
  BOARD pos = Some (Sq_property grp price m rents) →
  ownership g !! pos = Some ow → owner ow = Some o → mortgaged ow = false →
  ∃ base, rents !! Z.to_nat (buildings ow) = Some base ∧ 0 < base ∧
    _rent pos dice double_station g =
    Ok (if (buildings ow =? 0) && all_owned_b g o (positions (GROUPS grp))
        then base * 2 else base, g).
Proof.
  intros Hr Hsq How Ho Hmort.
  pose proof (reachable_inv rand g Hr) as Hinv.
  destruct (inv_owner _ Hinv _ _ _ How Ho) as (op & Hop & Hsolv & Hin).
  destruct (property_square _ _ _ _ _ Hsq) as (_ & _ & _ & _ & Hlen & Hpos).
  pose proof (inv_range _ Hinv _ _ How) as Hrange.
  destruct (lookup_lt_is_Some_2 rents (Z.to_nat (buildings ow))) as [base Hbase];
    [lia|].
  exists base. split; [done|].
  assert (0 < base) as Hb.
  { rewrite Forall_forall in Hpos. apply Hpos.
    by eapply list_elem_of_lookup_2. }
  split; [done|].
  apply wp_eq. unfold _rent. repeat wp_step. rewrite Ho, Hmort.
  repeat wp_step.
  assert (py_index rents (buildings ow) = Some base) as Hidx.
  { unfold py_index. by rewrite (proj2 (Z.leb_le 0 (buildings ow))) by lia. }
  rewrite Hidx. simpl. wp_step. destruct (buildings ow =? 0); simpl.
  - wp_step. wp_apply owns_group_spec; [done | done |].
    intros full ? [-> ->]. by wp_step.
  - by wp_step.
Qed.

(** X8.  The rent of a station that has an owner and is not mortgaged depends
    on how many unmortgaged stations the owner holds, between one and
    four: 3,000 for one and twice as much for each further one, and twice
    that again when the station was reached by the "nearest station" card. *)
Theorem station_rent_doubles g pos ow o dice double_station :
  reachable rand g → pos ∈ STATION_POS →
  ownership g !! pos = Some ow → owner ow = Some o → mortgaged ow = false →
  let n := unmortgaged_owned g o STATION_POS in
  1 ≤ n ≤ 4 ∧
  _rent pos dice double_station g =
  Ok (3000 * 2 ^ (n - 1) * (if double_station then 2 else 1), g).
Proof.
  intros Hr Hpos How Ho Hmort n.
  pose proof (reachable_inv rand g Hr) as Hinv.
  destruct (inv_owner _ Hinv _ _ _ How Ho) as (op & Hop & Hsolv & Hin).
  pose proof (inv_ids _ Hinv _ _ Hop) as Hid.
  destruct (station_square _ Hpos) as [Hsq _].
  pose proof (unmortgaged_owned_bounds g o STATION_POS) as Hb. simpl in Hb.
  assert (1 ≤ n) as Hb1.
  { eapply unmortgaged_owned_pos; [done | done |].
    unfold owned_unmortgaged. rewrite Ho, Hmort.
    by rewrite bool_decide_eq_true_2. }
  split; [subst n; lia|].
  apply wp_eq. unfold _rent. repeat wp_step. rewrite Ho, Hmort.
  repeat wp_step. unfold _stations_owned. repeat wp_step. rewrite Hid.
  wp_apply count_owned_wp.
  { intros q Hq. apply (inv_dom _ Hinv). by apply station_square. }
  intros count ? [-> ->]. fold n.
  assert (n = 1 ∨ n = 2 ∨ n = 3 ∨ n = 4) as Hn by (subst n; lia).
  destruct Hn as [-> | [-> | [-> | ->]]]; simpl; by repeat wp_step.
Qed.

(** X9.  On every purchasable square the rent is computed without error and
    without changing the game; with a positive dice sum it is 0 exactly
    when the square has no owner or is mortgaged, and positive otherwise. *)
Theorem rent_zero_iff g pos ow dice double_station :
  reachable rand g → ownership g !! pos = Some ow → 0 < dice →
  ∃ r, _rent pos dice double_station g = Ok (r, g) ∧ 0 ≤ r ∧
       (r = 0 ↔ owner ow = None ∨ mortgaged ow = true).
Proof.
  intros Hr How Hdice.
  pose proof (reachable_inv rand g Hr) as Hinv.
  assert (purchasable pos = true) as Hpurch by (apply (inv_dom _ Hinv); eauto).
  destruct (purchasable_square _ Hpurch) as (sq & price & m & Hsq & _).
  assert (wp (_rent pos dice double_station)
             (reads g (λ r, 0 ≤ r ∧
                (r = 0 ↔ owner ow = None ∨ mortgaged ow = true))) g) as Hwp.
  { unfold _rent. repeat wp_step.
    destruct (owner ow) as [o|] eqn:Ho; [|wp_step; split; [done|]; split; [done|]; split; [by left | done]].
    destruct (mortgaged ow) eqn:Hmort; [wp_step; split; [done|]; split; [done|]; split; [by right | done]|].
    assert (∀ r : Z, 0 < r → 0 ≤ r ∧ (r = 0 ↔ Some o = None ∨ false = true))
      as Hpositive.
    { intros r Hr0. split; [lia|]. split; [lia|]. by intros [?|?]. }
    destruct (inv_owner _ Hinv _ _ _ How Ho) as (op & Hop & Hsolv & Hin).
    pose proof (inv_ids _ Hinv _ _ Hop) as Hid.
    repeat wp_step.
    pose proof (BOARD_fine _ _ Hsq) as Hfine.
    destruct sq as [t|a|grp pr mo rents|pr mo rents|pr mo]; simpl in Hfine.
    - unfold purchasable in Hpurch. rewrite Hsq in Hpurch. simpl in Hpurch.
      rewrite Hpurch in Hfine. done.
    - unfold purchasable in Hpurch. rewrite Hsq in Hpurch. done.
    - destruct (property_square _ _ _ _ _ Hsq) as (_ & _ & _ & _ & Hlen & Hpos).
      pose proof (inv_range _ Hinv _ _ How) as Hrange.
      destruct (py_index_in_range rents (buildings ow)) as (r & Hri & Hrin);
        [rewrite Hlen; lia|].
      rewrite Forall_forall in Hpos. specialize (Hpos _ Hrin).
      repeat wp_step. destruct (buildings ow =? 0).
      + wp_step. wp_apply owns_group_spec; [done | done |].
        intros full ? [-> ->]. wp_step. split; [done|].
        apply Hpositive. destruct (all_owned_b _ _ _); lia.
      + wp_step. split; [done|]. by apply Hpositive.
    - repeat (apply andb_prop in Hfine as [Hfine ?]).
      repeat match goal with
             | H : bool_decide _ = true |- _ => apply bool_decide_eq_true in H
             end.
      subst rents. unfold _stations_owned. repeat wp_step. rewrite Hid.
      wp_apply count_owned_wp.
      { intros q Hq. apply (inv_dom _ Hinv). by apply station_square. }
      intros count ? [-> ->].
      pose proof (unmortgaged_owned_bounds g o STATION_POS) as Hb.
      assert (1 ≤ unmortgaged_owned g o STATION_POS) as Hb1.
      { eapply unmortgaged_owned_pos; [done | done |].
        unfold owned_unmortgaged. rewrite Ho, Hmort.
        by rewrite bool_decide_eq_true_2. }
      simpl in Hb.
      destruct (py_index_in_range station_rent
                  (unmortgaged_owned g o STATION_POS - 1))
        as (r & Hri & Hrin); [simpl; lia|].
      repeat wp_step. split; [done|]. apply Hpositive.
      assert (0 < r).
      { unfold station_rent in Hrin. set_unfold in Hrin.
        destruct Hrin as [->|[->|[->|[->|[]]]]]; lia. }
      destruct double_station; lia.
    - unfold _utilities_owned. repeat wp_step. rewrite Hid.
      wp_apply count_owned_wp.
      { intros q Hq. apply (inv_dom _ Hinv). by apply utility_square. }
      intros count ? [-> ->]. wp_step. split; [done|]. apply Hpositive.
      destruct (2 <=? _); lia. }
  apply wp_ok in Hwp as (r & g' & Hrun & -> & Hpost). eauto.
Qed.

End Rent.

(** ** Buying *)

Section Buying.

Variable rand : N → N.


End Buying.

(** ** Cash moves between players *)

Lemma total_cash_alter (l : list Player) i p f :
  l !! i = Some p →
  foldr Z.add 0 (money <$> alter f i l) =
  foldr Z.add 0 (money <$> l) + (money (f p) - money p).
Proof.
  revert i. induction l as [|q l IH]; intros [|i] Hp; try done.
  - injection Hp as ->.
    change (alter f 0%nat (p :: l)) with (f p :: l).
    rewrite !fmap_cons. cbn [foldr]. lia.
  - change (alter f (S i) (q :: l)) with (q :: alter f i l).
    rewrite !fmap_cons. cbn [foldr]. rewrite (IH i Hp). lia.
Qed.

Lemma total_cash_transfer (l : list Player) a b amt :
  (a < length l)%nat → (b < length l)%nat →
  foldr Z.add 0
    (money <$> alter (λ q, set_money (money q + amt) q) b
                 (alter (λ q, set_money (money q - amt) q) a l)) =
  foldr Z.add 0 (money <$> l).
Proof.
  intros Ha Hb.
  destruct (lookup_lt_is_Some_2 l a Ha) as [p Hp].
  destruct (lookup_lt_is_Some_2 (alter (λ q, set_money (money q - amt) q) a l) b)
    as [q Hq]; [by rewrite length_alter|].
  rewrite (total_cash_alter _ b q) by done.
  rewrite (total_cash_alter _ a p) by done. simpl. lia.
Qed.

Section Transfers.

Variable rand : N → N.

(** X5.  A charge the player can pay from the cash in hand, owed to another
    player that is not bankrupt, succeeds and moves exactly the amount
    from the one to the other: nobody else's cash changes, no ownership
    record changes, and the cash in the game stays the same. *)
Theorem charge_from_cash g i c p cp amount :
  reachable rand g →
  players g !! i = Some p → players g !! c = Some cp → i ≠ c →
  bankrupt cp = false → amount ≤ money p →
  ∃ g', _charge i amount (Some c) g = Ok (true, g') ∧
    players g' !! i = Some (set_money (money p - amount) p) ∧
    players g' !! c = Some (set_money (money cp + amount) cp) ∧
    (∀ j, j ≠ i → j ≠ c → players g' !! j = players g !! j) ∧
    ownership g' = ownership g ∧ total_cash g' = total_cash g.
Proof.
  intros Hr Hp Hcp Hne Hsolv Hpay.
  pose proof (reachable_inv rand g Hr) as Hinv.
  destruct (seat_id g i p Hinv Hp) as [Hidp Hi].
  destruct (seat_id g c cp Hinv Hcp) as [Hidc Hc].
  destruct (inv_stats _ Hinv) as (Hpk & _ & _ & Hrr & _).
  destruct (lookup_lt_is_Some_2 (rent_received (stats g)) c) as [rr Hrrv];
    [by rewrite Hrr|].
  destruct (lookup_lt_is_Some_2 (peak_cash (stats g)) c) as [pk Hpkv];
    [by rewrite Hpk|].
  apply wp_result. unfold _charge. repeat wp_step.
  rewrite (proj2 (Z.ltb_ge (money p) amount)) by lia. repeat wp_step.
  rewrite (proj2 (Z.leb_le amount (money p))) by lia.
  repeat wp_step. unfold solvent_creditor. repeat wp_step.
  rewrite Hsolv. simpl. repeat wp_step. rewrite Hidc.
  apply (proj2 (wp_stat_add _ _ _ _ _ _)). exists rr. split; [done|].
  repeat wp_step. unfold update_peak. repeat wp_step. simpl. rewrite Hidc.
  apply (proj2 (wp_stat_get _ _ _ _)). exists pk. split; [done|].
  destruct (pk <? _) eqn:Hpeak.
  - apply (proj2 (wp_stat_set _ _ _ _ _ _)). split; [by eapply lookup_lt_Some|].
    repeat wp_step. split; [done|]. simpl.
    split_and!; [solve_lookup | solve_lookup | | done | ].
    + intros j Hji Hjc. by rewrite !list_lookup_alter_ne.
    + unfold total_cash. simpl. by apply total_cash_transfer.
  - repeat wp_step. split; [done|]. simpl.
    split_and!; [solve_lookup | solve_lookup | | done | ].
    + intros j Hji Hjc. by rewrite !list_lookup_alter_ne.
    + unfold total_cash. simpl. by apply total_cash_transfer.
Qed.

Lemma fmap_alter_field {B} (h : Player → B) f i (l : list Player) :
  (∀ p, h (f p) = h p) → h <$> alter f i l = h <$> l.
Proof.
  intros Hf. revert i. induction l as [|q l IH]; intros [|i]; try done.
  - change (alter f 0%nat (q :: l)) with (f q :: l).
    by rewrite !fmap_cons, Hf.
  - change (alter f (S i) (q :: l)) with (q :: alter f i l).
    by rewrite !fmap_cons, IH.
Qed.

Lemma peer_transfer_refl value g : peer_transfer value g g.
Proof. by split_and!. Qed.

Lemma peer_transfer_step value g a b amt g' :
  seat g a → seat g b →
  (0 ≤ value → ∀ p, players g !! a = Some p → 0 ≤ money p →
                    0 ≤ amt ≤ money p) →
  peer_transfer value
    (set_players
       (alter (λ q, set_money (money q + amt) q) b
          (players (set_players
                      (alter (λ q, set_money (money q - amt) q) a (players g))
                      g)))
       (set_players (alter (λ q, set_money (money q - amt) q) a (players g)) g))
    g' →
  peer_transfer value g g'.
Proof.
  intros Ha Hb Hamt (Htot & Hown & Hst & Hbk & Hpos).
  split_and!.
  - rewrite Htot. unfold total_cash. simpl. by apply total_cash_transfer.
  - by rewrite Hown.
  - by rewrite Hst.
  - rewrite Hbk. simpl. by rewrite !fmap_alter_field.
  - intros Hval Hall. apply Hpos; [done|]. simpl.
    apply Forall_alter.
    + apply Forall_alter; [done|].
      intros p Hp Hp0. simpl. specialize (Hamt Hval p Hp Hp0). lia.
    + intros q Hq Hq0. simpl.
      destruct (proj1 (seat_lookup _ _) Ha) as [p Hp].
      rewrite Forall_lookup in Hall.
      specialize (Hamt Hval p Hp (Hall _ _ Hp)). lia.
Qed.

Lemma pay_each_loop_transfer i value others :
  ∀ g, seat g i → (∀ o, o ∈ others → seat g o) →
       wp (pay_each_loop i value others) (λ _ g', peer_transfer value g g') g.
Proof.
  induction others as [|o others IH]; intros g Hi Hothers; simpl.
  { wp_step. apply peer_transfer_refl. }
  destruct (proj1 (seat_lookup _ _) Hi) as [p Hp].
  repeat wp_step. destruct (bankrupt p); [wp_step; apply peer_transfer_refl|].
  repeat wp_step.
  assert (seat g o) as Ho by (apply Hothers; by left).
  wp_apply IH.
  - unfold seat. simpl. by rewrite !length_alter.
  - intros o' Ho'. unfold seat. simpl. rewrite !length_alter.
    apply Hothers. by right.
  - intros ? g' Hpeer. eapply (peer_transfer_step _ _ i o); [done | done | | done].
    intros Hval q Hq Hq0. assert (q = p) as -> by congruence. lia.
Qed.

Lemma receive_from_each_loop_transfer i value others :
  ∀ g, seat g i → (∀ o, o ∈ others → seat g o) →
       wp (receive_from_each_loop i value others)
          (λ _ g', peer_transfer value g g') g.
Proof.
  induction others as [|o others IH]; intros g Hi Hothers; simpl.
  { wp_step. apply peer_transfer_refl. }
  assert (seat g o) as Ho by (apply Hothers; by left).
  destruct (proj1 (seat_lookup _ _) Ho) as [q Hq].
  repeat wp_step.
  wp_apply IH.
  - unfold seat. simpl. by rewrite !length_alter.
  - intros o' Ho'. unfold seat. simpl. rewrite !length_alter.
    apply Hothers. by right.
  - intros ? g' Hpeer. eapply (peer_transfer_step _ _ o i); [done | done | | done].
    intros Hval q' Hq' Hq0. assert (q' = q) as -> by congruence. lia.
Qed.


End Transfers.

(** ** Jail *)

(** Reading a field of a player that was just written. *)
Ltac psimpl :=
  cbn [id money position in_jail jail_turns get_out_cards bankrupt properties
       consec_doubles set_money set_position set_in_jail set_jail_turns
       set_get_out_cards set_bankrupt set_properties set_consec_doubles
       starting_money set_players andb orb negb].

Section Jail.

Variable rand : N → N.

Lemma roll_wp g (Q : Z * Z → Game → Prop) :
  Q (1 + Z.of_N (rand (rng_pos g)) mod 6,
     1 + Z.of_N (rand (rng_pos g + 1)%N) mod 6)
    (set_rng_pos (rng_pos g + 2) g) →
  wp (roll rand) Q g.
Proof.
  intros HQ. unfold wp.
  assert (roll rand g =
          Ok ((1 + Z.of_N (rand (rng_pos g)) mod 6,
               1 + Z.of_N (rand (rng_pos g + 1)%N) mod 6),
              set_rng_pos (rng_pos g + 2) g)) as ->; [|done].
  unfold roll, bind, randint, randbelow, ret. simpl.
  do 2 f_equal. unfold set_rng_pos. simpl. f_equal. lia.
Qed.


End Jail.

(** ** Turns *)

Section Turns.

Variable rand : N → N.


End Turns.

(** ** Net worth and the end of the game *)

Lemma net_worth_loop_bound g props :
  ∀ worth, inv g → (∀ pos, pos ∈ props → purchasable pos = true) →
    wp (net_worth_loop props worth) (reads g (λ r, worth ≤ r)) g.
Proof.
  induction props as [|pos props IH]; intros worth Hinv Hprops; simpl.
  { by wp_step. }
  assert (Hpurch : purchasable pos = true) by (apply Hprops; constructor).
  destruct (proj2 (inv_dom _ Hinv pos) Hpurch) as [ow How].
  destruct (purchasable_square _ Hpurch)
    as (sq & price & m & Hsq & Hprice & Hm & Hprice0 & Hm0).
  repeat wp_pure.
  assert (∀ w, worth ≤ w →
               wp (net_worth_loop props w) (reads g (λ r, worth ≤ r)) g) as Hrest.
  { intros w Hw. eapply wp_mono.
    - apply IH; [done|]. intros q Hq. apply Hprops. by constructor.
    - intros r g' [-> Hr]. split; [done | lia]. }
  destruct (mortgaged ow).
  - repeat wp_pure. apply Hrest. lia.
  - repeat wp_pure.
    destruct sq as [t|a|grp pr mo rents|pr mo rents|pr mo];
      try (wp_step; apply Hrest; lia).
    destruct (property_square _ _ _ _ _ Hsq) as (_ & _ & _ & Hhc & _).
    pose proof (inv_range _ Hinv _ _ How) as Hrange.
    destruct (0 <? buildings ow); wp_step; apply Hrest; [|lia].
    assert (0 ≤ (buildings ow * house_cost (GROUPS grp)) `div` 2)
      by (apply Z.div_pos; nia).
    lia.
Qed.

Lemma max_net_worth_elem g l :
  ∀ best w, inv g → seat g best → (∀ j, j ∈ l → seat g j) →
    wp (max_net_worth best w l) (reads g (λ r, r ∈ best :: l)) g.
Proof.
  induction l as [|j l IH]; intros best w Hinv Hbest Hl; simpl.
  { wp_step. split; [done | by left]. }
  wp_step. wp_apply net_worth_spec; [done | apply Hl; constructor |].
  intros wj ? [-> _].
  assert (∀ j', j' ∈ l → seat g j') as Hl' by (intros; apply Hl; by constructor).
  destruct (w <? wj).
  - eapply wp_mono; [apply IH; [done | apply Hl; constructor | done]|].
    intros r g' [-> Hr]. split; [done|].
    apply elem_of_cons in Hr as [-> | Hr]; [right; by left | by do 2 right].
  - eapply wp_mono; [apply IH; [done | done | done]|].
    intros r g' [-> Hr]. split; [done|].
    apply elem_of_cons in Hr as [-> | Hr]; [by left | by do 2 right].
Qed.

Section GameEnd.

Variable rand : N → N.

(** X16.  The net worth of a player is computed without error in every
    reachable game, changes nothing, and is never less than the player's
    cash. *)
Theorem net_worth_at_least_cash g i p :
  reachable rand g → players g !! i = Some p →
  ∃ w, net_worth i g = Ok (w, g) ∧ money p ≤ w.
Proof.
  intros Hr Hp.
  pose proof (reachable_inv rand g Hr) as Hinv.
  assert (wp (net_worth i) (reads g (λ r, money p ≤ r)) g) as Hwp.
  { unfold net_worth. repeat wp_pure.
    apply net_worth_loop_bound; [done|]. intros pos Hin.
    destruct (inv_props _ Hinv _ _ _ Hp Hin) as (ow & How & _).
    apply (inv_dom _ Hinv). eauto. }
  apply wp_ok in Hwp as (w & g' & Hrun & -> & Hw). eauto.
Qed.

Lemma run_loop_outcome fuel :
  ∀ g, inv g → 0 ≤ round_count g < MAX_ROUNDS →
       timed_out (stats g) = false →
       MAX_ROUNDS - round_count g ≤ Z.of_nat fuel →
       wp (run_loop rand fuel) (λ _ g', run_outcome g g') g.
Proof.
  induction fuel as [|n IH]; intros g Hinv Hrc Hto Hfuel.
  { simpl in Hfuel. lia. }
  cbn [run_loop]. repeat wp_step.
  set (g1 := set_round_count (round_count g + 1) g).
  assert (Hinv1 : inv g1) by by apply inv_set_round_count.
  wp_apply play_round_spec; [done | |].
  { intros j Hj. apply elem_of_seq in Hj. unfold seat, g1 in *. simpl in *. lia. }
  intros ? g2 [Hinv2 [Hlen2 Hrc2 Hto2 Hsm2]]. simpl in Hlen2, Hrc2, Hto2.
  repeat wp_pure.
  destruct (length (active_seats g2) <=? 1)%nat eqn:Hactive.
  - apply Nat.leb_le in Hactive.
    assert (∀ w, (w = -1 ∧ active_seats g2 = [] ∨
                  ∃ a, w = Z.of_nat a ∧ a ∈ active_seats g2) →
                 wp (set_winner_stat w) (λ _ g', run_outcome g g') g2) as Hwin.
    { intros w Hw. unfold set_winner_stat. wp_step. split_and!.
      - apply inv_set_stats; [done|]. by apply inv_stats.
      - done.
      - simpl. lia.
      - simpl. lia.
      - done.
      - intros _. done.
      - simpl. rewrite Hto2, Hto. done. }
    destruct (active_seats g2) as [|w0 rest] eqn:Hseats; [apply Hwin; by left|].
    assert (Ha : seat g2 w0).
    { apply active_seats_seat. rewrite Hseats. constructor. }
    destruct (proj1 (seat_lookup _ _) Ha) as [pa Hpa].
    repeat wp_pure. apply Hwin. right. exists w0.
    rewrite (inv_ids _ Hinv2 _ _ Hpa). split; [done | by left].
  - apply Nat.leb_gt in Hactive.
    destruct (MAX_ROUNDS <=? round_count g2) eqn:Hmax.
    + apply Z.leb_le in Hmax.
      destruct (active_seats g2) as [|w0 rest] eqn:Hseats; [simpl in Hactive; lia|].
      assert (Hall : ∀ j, j ∈ w0 :: rest → seat g2 j).
      { intros j Hj. apply active_seats_seat. by rewrite Hseats. }
      wp_step. wp_apply net_worth_spec; [done | apply Hall; constructor |].
      intros w ? [-> _]. wp_step.
      wp_apply max_net_worth_elem; [done | apply Hall; constructor | |].
      { intros j Hj. apply Hall. by constructor. }
      intros best ? [-> Hbest].
      destruct (proj1 (seat_lookup _ _) (Hall _ Hbest)) as [pb Hpb].
      unfold set_winner_stat. repeat wp_step. split_and!.
      * apply inv_set_stats; [by apply inv_set_stats; [|apply inv_stats]|].
        simpl. by apply inv_stats.
      * done.
      * simpl. lia.
      * simpl. lia.
      * right. exists best. simpl. rewrite (inv_ids _ Hinv2 _ _ Hpb).
        split; [done|]. unfold active_seats, is_active in *. simpl.
        by rewrite Hseats.
      * simpl. done.
      * simpl. intros _. split; [lia|].
        unfold active_seats, is_active in *. simpl. rewrite Hseats. done.
    + apply Z.leb_gt in Hmax.
      wp_apply IH; [done | lia | congruence | lia |].
      intros ? g3 (Hinv3 & Hlen3 & Hrc3 & Hw3 & Hto3 & Hti3).
      split_and!; [done | congruence | lia | lia | done | done | done].
Qed.

Lemma run_new_game n sm pos :
  ∃ g0 s g', __init__ rand n sm pos = Ok g0 ∧ run rand g0 = Ok (s, g') ∧
    inv g' ∧
    s = stats g' ∧ rounds s = round_count g' ∧ turns s = turn_count g' ∧
    1 ≤ rounds s ≤ MAX_ROUNDS ∧
    length (players g') = Z.to_nat n ∧
    (winner s = -1 ∧ active_seats g' = [] ∨
     ∃ w p, winner s = Z.of_nat w ∧ players g' !! w = Some p ∧
            bankrupt p = false) ∧
    (timed_out s = true ↔ (1 < length (active_seats g'))%nat).
Proof.
  destruct (init_ok rand n sm pos) as (d1 & d2 & pos' & Hinit & _).
  pose proof (init_inv rand n sm pos _ Hinit) as Hinv0.
  eexists.
  assert (∃ s g', run rand (mkGame n sm ((λ i, new_player i sm) <$> seq 0 (Z.to_nat n))
                     initial_ownership d1 d2 0 0 (initial_stats (Z.to_nat n)) pos')
                  = Ok (s, g') ∧
            inv g' ∧
            s = stats g' ∧ rounds s = round_count g' ∧ turns s = turn_count g' ∧
            1 ≤ rounds s ≤ MAX_ROUNDS ∧
            length (players g') = Z.to_nat n ∧
            (winner s = -1 ∧ active_seats g' = [] ∨
             ∃ w p, winner s = Z.of_nat w ∧ players g' !! w = Some p ∧
                    bankrupt p = false) ∧
            (timed_out s = true ↔ (1 < length (active_seats g'))%nat)) as Hrun.
  { apply wp_ok. unfold run. wp_step.
    wp_apply run_loop_outcome; [done | by simpl | done | simpl; unfold MAX_ROUNDS; lia |].
    intros ? g1 (Hinv1 & Hlen1 & Hrc1 & Hw1 & Hto1 & Hti1).
    simpl in Hlen1, Hrc1. rewrite length_fmap, length_seq in Hlen1.
    repeat wp_step. simpl.
    split_and!; [ | done | done | done | lia | lia | done | |].
    - apply inv_set_stats; [by apply inv_set_stats; [|apply inv_stats]|].
      simpl. by apply inv_stats.
    - destruct Hw1 as [[Hw Hnone] | (w & Hw & Hin)]; [by left | right].
      unfold active_seats in Hin.
      apply list_elem_of_filter in Hin as [Hact _].
      unfold is_active in Hact.
      destruct (players g1 !! w) as [p|] eqn:Hp; [|done].
      exists w, p. split_and!; [done | done |].
      by destruct (bankrupt p).
    - change (active_seats _) with (active_seats g1).
      destruct (timed_out (stats g1)).
      + split; [intros _; by apply Hti1 | done].
      + split; [done|]. intros Hlt. specialize (Hto1 eq_refl). lia. }
  destruct Hrun as (s & g' & Hrun & Hrest).
  exists s, g'. split; [exact Hinit|]. split; [exact Hrun | exact Hrest].
Qed.


End GameEnd.

(** ** The simulation runner *)

Lemma append_stat_ok np k done table values :
  table_ok np k done table → length values = np → (done < np)%nat →
  ∃ table', append_stat table values done = Some table' ∧
            table_ok np k (S done) table'.
Proof.
  intros [Hlen Hrows] Hvalues Hdone. unfold append_stat.
  destruct (lookup_lt_is_Some_2 table done) as [row Hrow]; [lia|].
  destruct (lookup_lt_is_Some_2 values done) as [v Hv]; [lia|].
  rewrite Hrow, Hv. eexists. split; [done|]. split.
  - by rewrite length_insert.
  - intros j row' Hj. destruct (decide (j = done)) as [->|Hne].
    + rewrite list_lookup_insert_eq in Hj by lia. injection Hj as <-.
      rewrite length_app. simpl. rewrite (Hrows _ _ Hrow).
      rewrite decide_False, decide_True by lia. lia.
    + rewrite list_lookup_insert_ne in Hj by done.
      rewrite (Hrows _ _ Hj). repeat case_decide; lia.
Qed.

Lemma record_players_ok s np k :
  stats_ok np s →
  ∀ todo done res,
    (done + todo = np)%nat →
    Forall (table_ok np k done) (res_tables res) →
    ∃ res', record_players s res (seq done todo) = Some res' ∧
            Forall (table_ok np k np) (res_tables res') ∧
            res_rounds res' = res_rounds res ∧ res_turns res' = res_turns res ∧
            res_winners res' = res_winners res ∧
            res_timed_out res' = res_timed_out res ∧
            res_num_players res' = res_num_players res ∧
            res_num_games res' = res_num_games res ∧
            res_starting_money res' = res_starting_money res.
Proof.
  intros (Hpc & Hpb & Hrp & Hrr & Hgr & Htp).
  induction todo as [|todo IH]; intros done res Hsum Htables.
  { simpl. exists res. rewrite Nat.add_0_r in Hsum. subst done. by split_and!. }
  cbn [seq record_players]. unfold res_tables in Htables.
  repeat match goal with
         | H : Forall _ (_ :: _) |- _ => apply Forall_cons in H as [? H]
         end.
  unfold record_player.
  destruct (append_stat_ok np k done (res_props_bought res) (props_bought s))
    as (t1 & -> & Ht1); [done | done | lia |].
  destruct (append_stat_ok np k done (res_rent_paid res) (rent_paid s))
    as (t2 & -> & Ht2); [done | done | lia |].
  destruct (append_stat_ok np k done (res_rent_received res) (rent_received s))
    as (t3 & -> & Ht3); [done | done | lia |].
  destruct (append_stat_ok np k done (res_go_rewards res) (go_rewards s))
    as (t4 & -> & Ht4); [done | done | lia |].
  destruct (append_stat_ok np k done (res_peak_cash res) (peak_cash s))
    as (t5 & -> & Ht5); [done | done | lia |].
  destruct (append_stat_ok np k done (res_tax_paid res) (total_tax_paid s))
    as (t6 & -> & Ht6); [done | done | lia |].
  destruct (IH (S done)
              (mkSimResult (res_num_players res) (res_num_games res)
                 (res_starting_money res) (res_rounds res) (res_turns res)
                 (res_winners res) (res_timed_out res) t1 t2 t3 t4 t5 t6))
    as (res' & Hres' & Hrest);
    [lia | unfold res_tables; simpl;
           repeat (constructor; [assumption|]); constructor |].
  exists res'. split; [done|]. exact Hrest.
Qed.

Lemma table_ok_next np k table : table_ok np k np table → table_ok np (S k) 0 table.
Proof.
  intros [Hlen Hrows]. split; [done|]. intros j row Hj.
  rewrite (Hrows _ _ Hj). pose proof (lookup_lt_Some _ _ _ Hj).
  rewrite decide_True by lia. by rewrite decide_False by lia.
Qed.

Section RunnerFacts.

Variable rand : N → N.

Lemma sim_loop_ok np sm todo :
  ∀ k res pos,
    sim_ok (Z.to_nat np) k res →
    ∃ res' pos', sim_loop rand todo np sm res pos = Ok (res', pos') ∧
                 sim_ok (Z.to_nat np) (k + todo) res' ∧
                 res_num_players res' = res_num_players res ∧
                 res_num_games res' = res_num_games res ∧
                 res_starting_money res' = res_starting_money res.
Proof.
  induction todo as [|todo IH]; intros k res pos Hok.
  { simpl. exists res, pos. rewrite Nat.add_0_r. by split_and!. }
  cbn [sim_loop].
  destruct (run_new_game rand np sm pos)
    as (g0 & s & g' & -> & -> & Hinv & -> & Hrounds & _ & Hbound & Hlen & Hwin & _).
  destruct Hok as (Hr & Ht & Hw & Hto & Hrs & Hws & Htables).
  destruct (record_players_ok (stats g') (Z.to_nat np) k) with
    (todo := Z.to_nat np) (done := 0%nat) (res := record_game (stats g') res)
    as (res1 & -> & Htab1 & Hr1 & Ht1 & Hw1 & Hto1 & Hnp1 & Hng1 & Hsm1);
    [by rewrite <- Hlen; apply inv_stats | lia | done |].
  destruct (IH (S k) res1 (rng_pos g')) as (res' & pos' & Hrun & Hok' & Hrest).
  { unfold sim_ok. split_and!.
    - rewrite Hr1. simpl. rewrite length_app. simpl. lia.
    - rewrite Ht1. simpl. rewrite length_app. simpl. lia.
    - rewrite Hw1. simpl. rewrite length_app. simpl. lia.
    - rewrite Hto1. simpl. destruct (timed_out (stats g')); lia.
    - rewrite Hto1. simpl. destruct (timed_out (stats g')); lia.
    - rewrite Hr1. simpl. apply Forall_app. split; [done|].
      constructor; [lia | constructor].
    - rewrite Hw1. simpl. apply Forall_app. split; [done|].
      constructor; [|constructor].
      destruct Hwin as [[-> _] | (w & p & -> & Hp & _)]; [lia|].
      apply lookup_lt_Some in Hp. lia.
    - eapply Forall_impl; [exact Htab1|]. intros table. apply table_ok_next. }
  exists res', pos'. split; [done|].
  replace (k + S todo)%nat with (S k + todo)%nat by lia.
  split; [done|]. destruct Hrest as (-> & -> & ->).
  rewrite Hnp1, Hng1, Hsm1. done.
Qed.


End RunnerFacts.

(** ** What every reachable game satisfies *)

Section Bookkeeping.

Variable rand : N → N.

(** X19.  The two records of who owns what never disagree: in every reachable
    game a square is in a player's list of properties exactly when the
    ledger names that player's seat as its owner. *)
Theorem ledger_matches_property_lists g i p pos :
  reachable rand g → players g !! i = Some p →
  pos ∈ properties p ↔
  ∃ ow, ownership g !! pos = Some ow ∧ owner ow = Some i.
Proof.
  intros Hr Hp. pose proof (reachable_inv rand g Hr) as Hinv. split.
  - intros Hin. by apply (inv_props _ Hinv _ _ _ Hp).
  - intros (ow & How & Ho).
    destruct (inv_owner _ Hinv _ _ _ How Ho) as (p' & Hp' & _ & Hin).
    by assert (p' = p) as -> by congruence.
Qed.

(** X20.  The ledger keeps its shape: in every reachable game it has a record
    for exactly the purchasable squares of the board (properties, stations
    and utilities), and no record ever counts fewer than 0 or more than 5
    buildings. *)
Theorem ledger_shape_is_kept g pos :
  reachable rand g →
  (is_Some (ownership g !! pos) ↔ purchasable pos = true) ∧
  (∀ ow, ownership g !! pos = Some ow → 0 ≤ buildings ow ≤ 5).
Proof.
  intros Hr. pose proof (reachable_inv rand g Hr) as Hinv. split.
  - apply (inv_dom _ Hinv).
  - intros ow How. by apply (inv_range _ Hinv pos).
Qed.


(** X4.  [_credit] adds the amount to the player's cash, raises the player's
    recorded peak to the new cash if that is higher, and counts the
    amount among the start bonuses only when its source is the start
    square. *)
Theorem credit_records g i p amount source :
  reachable rand g → players g !! i = Some p →
  ∃ g' pk go, _credit i amount source g = Ok (tt, g') ∧
    players g' = alter (set_money (money p + amount)) i (players g) ∧
    peak_cash (stats g) !! i = Some pk ∧
    peak_cash (stats g') !! i = Some (Z.max pk (money p + amount)) ∧
    go_rewards (stats g) !! i = Some go ∧
    go_rewards (stats g') !! i =
      Some (match source with src_go => go + amount | src_bank => go end) ∧
    ownership g' = ownership g.
Proof.
  intros Hr Hp. pose proof (reachable_inv rand g Hr) as Hinv.
  destruct (seat_id g i p Hinv Hp) as [Hid Hi].
  destruct (inv_stats _ Hinv) as (Hpk & _ & _ & _ & Hgo & _).
  destruct (lookup_lt_is_Some_2 (peak_cash (stats g)) i) as [pk Hpkv];
    [by rewrite Hpk|].
  destruct (lookup_lt_is_Some_2 (go_rewards (stats g)) i) as [go Hgov];
    [by rewrite Hgo|].
  assert (alter (λ q, set_money (money q + amount) q) i (players g) =
          alter (set_money (money p + amount)) i (players g)) as Halter.
  { apply list_eq. intros j. destruct (decide (j = i)) as [->|Hne].
    - by rewrite !list_lookup_alter_eq, Hp.
    - by rewrite !list_lookup_alter_ne. }
  assert (wp (_credit i amount source)
             (λ _ g',
                players g' = alter (set_money (money p + amount)) i (players g) ∧
                peak_cash (stats g') !! i = Some (Z.max pk (money p + amount)) ∧
                go_rewards (stats g') !! i =
                  Some (match source with
                        | src_go => go + amount | src_bank => go end) ∧
                ownership g' = ownership g) g) as Hwp.
  { unfold _credit, update_peak. repeat wp_step. psimpl. rewrite Hid.
    destruct source.
    - repeat wp_step. psimpl. rewrite ?Hid.
      apply (proj2 (wp_stat_get _ _ _ _)). exists pk. split; [exact Hpkv|]. psimpl.
      destruct (pk <? money p + amount) eqn:Hlt.
      + apply (proj2 (wp_stat_set _ _ _ _ _ _)).
        split; [by eapply lookup_lt_Some|]. simpl.
        split_and!; [done | | done | done].
        rewrite list_lookup_insert_eq by by eapply lookup_lt_Some.
        apply Z.ltb_lt in Hlt. f_equal. lia.
      + wp_step. simpl. split_and!; [done | | done | done].
        apply Z.ltb_ge in Hlt. rewrite Hpkv. f_equal. lia.
    - apply (proj2 (wp_stat_add _ _ _ _ _ _)). exists go. split; [exact Hgov|].
      repeat wp_step. psimpl. rewrite ?Hid.
      apply (proj2 (wp_stat_get _ _ _ _)). exists pk. split; [exact Hpkv|]. psimpl.
      destruct (pk <? money p + amount) eqn:Hlt.
      + apply (proj2 (wp_stat_set _ _ _ _ _ _)).
        split; [by eapply lookup_lt_Some|]. simpl.
        split_and!; [done | | | done].
        * rewrite list_lookup_insert_eq by by eapply lookup_lt_Some.
          apply Z.ltb_lt in Hlt. f_equal. lia.
        * apply list_lookup_insert_eq. by eapply lookup_lt_Some.
      + wp_step. simpl. split_and!; [done | | | done].
        * apply Z.ltb_ge in Hlt. rewrite Hpkv. f_equal. lia.
        * apply list_lookup_insert_eq. by eapply lookup_lt_Some. }
  apply wp_ok in Hwp as ([] & g' & Hrun & Hpl & Hpeak & Hgor & Hown).
  exists g', pk, go. by split_and!.
Qed.

End Bookkeeping.

(** ** Liquidation *)

Lemma wp_and {A} (m : M A) (Q1 Q2 : A → Game → Prop) g :
  wp m Q1 g → wp m Q2 g → wp m (λ a g', Q1 a g' ∧ Q2 a g') g.
Proof. unfold wp. destruct (m g) as [[a g']| |]; tauto. Qed.

Lemma liquidation_refl i g : liquidation i g g.
Proof.
  split_and!; [by eauto 10 | done | done |].
  intros p p' Hp Hp'. assert (p' = p) as -> by congruence. lia.
Qed.

Lemma liquidation_trans i g1 g2 g3 :
  liquidation i g1 g2 → liquidation i g2 g3 → liquidation i g1 g3.
Proof.
  intros (Hl1 & Hd1 & Hn1 & Hm1) (Hl2 & Hd2 & Hn2 & Hm2). split_and!.
  - intros pos ow3 How3.
    destruct (Hl2 _ _ How3) as (ow2 & How2 & Ho2 & Hb2 & Hmo2).
    destruct (Hl1 _ _ How2) as (ow1 & How1 & Ho1 & Hb1 & Hmo1).
    exists ow1. split_and!; [done | congruence | | by auto].
    destruct Hb2 as [-> | ->]; [done | by right].
  - by auto.
  - congruence.
  - intros p p3 Hp Hp3.
    destruct (lookup_lt_is_Some_2 (players g2) i) as [p2 Hp2].
    { rewrite Hn1. by eapply lookup_lt_Some. }
    specialize (Hm1 _ _ Hp Hp2). specialize (Hm2 _ _ Hp2 Hp3). lia.
Qed.

Lemma liquidation_update i g f h pos :
  (∀ p, money p ≤ money (f p)) →
  (∀ ow, owner (h ow) = owner ow ∧
         (buildings (h ow) = buildings ow ∨ buildings (h ow) = 0) ∧
         (mortgaged ow = true → mortgaged (h ow) = true)) →
  liquidation i g
    (set_ownership
       (alter h pos (ownership (set_players (alter f i (players g)) g)))
       (set_players (alter f i (players g)) g)).
Proof.
  intros Hf Hh. split_and!; simpl.
  - intros q ow'. rewrite lookup_alter. case_decide; [subst q|by eauto 10].
    destruct (ownership g !! pos) as [ow|]; [|done]. simpl.
    intros [= <-]. exists ow. destruct (Hh ow) as (? & ? & ?). by split_and!.
  - intros q. rewrite lookup_alter. case_decide; [subst q|done].
    intros [ow ->]. by eexists.
  - by rewrite length_alter.
  - intros p p' Hp. rewrite list_lookup_alter_eq, Hp. simpl.
    intros [= <-]. apply Hf.
Qed.

Lemma sell_buildings_liquidation i needed props :
  ∀ g, seat g i →
       (∀ pos, pos ∈ props → is_Some (BOARD pos) ∧ is_Some (ownership g !! pos)) →
       wp (sell_buildings i needed props) (λ _ g', liquidation i g g') g.
Proof.
  induction props as [|pos rest IH]; intros g Hi Hprops; simpl.
  { wp_step. apply liquidation_refl. }
  destruct (proj1 (seat_lookup _ _) Hi) as [p Hp].
  do 2 wp_step. destruct (needed <=? money p).
  { wp_step. apply liquidation_refl. }
  destruct (Hprops pos) as [[sq Hsq] [ow How]]; [by left|].
  do 5 wp_step.
  assert (wp (ret tt;; sell_buildings i needed rest)
             (λ _ g', liquidation i g g') g) as Hskip.
  { repeat wp_step. apply IH; [done|]. intros q Hq. apply Hprops. by right. }
  destruct sq as [t|a|grp pr mo rents|pr mo rents|pr mo]; try exact Hskip.
  destruct (0 <? buildings ow) eqn:Hb; [|exact Hskip].
  apply Z.ltb_lt in Hb. repeat wp_step.
  destruct (group_facts grp) as [_ Hhc].
  eapply wp_mono.
  - apply IH.
    + unfold seat. simpl. by rewrite length_alter.
    + intros q Hq. destruct (Hprops q) as [? [owq Howq]]; [by right|].
      split; [done|]. simpl. rewrite lookup_alter. case_decide; [subst q|by eauto].
      rewrite Howq. by eexists.
  - intros ? g' Hliq. eapply liquidation_trans; [|exact Hliq].
    apply (liquidation_update i g
             (λ p0, set_money
                      (money p0 + (buildings ow * house_cost (GROUPS grp)) `div` 2)
                      p0)
             (set_buildings 0)).
    + intros q. simpl.
      assert (0 ≤ (buildings ow * house_cost (GROUPS grp)) `div` 2)
        by (apply Z.div_pos; nia).
      lia.
    + intros ow0. simpl. split_and!; [done | by right | done].
Qed.

Lemma mortgage_properties_liquidation i needed props :
  ∀ g, seat g i →
       (∀ pos, pos ∈ props →
               (∃ sq m, BOARD pos = Some sq ∧ sq_mortgage sq = Some m ∧ 0 ≤ m) ∧
               is_Some (ownership g !! pos)) →
       wp (mortgage_properties i needed props)
          (λ _ g', liquidation i g g' ∧
             ∀ p', players g' !! i = Some p' → money p' < needed →
                   ∀ pos ow ow', pos ∈ props →
                                 ownership g !! pos = Some ow →
                                 ownership g' !! pos = Some ow' →
                                 mortgaged ow' = true ∨ buildings ow ≠ 0) g.
Proof.
  induction props as [|pos rest IH]; intros g Hi Hprops; simpl.
  { wp_step. split; [apply liquidation_refl|].
    intros p' _ _ pos ow ow' Hin. by apply elem_of_nil in Hin. }
  destruct (proj1 (seat_lookup _ _) Hi) as [p Hp].
  do 2 wp_step. destruct (needed <=? money p) eqn:Hneed.
  { wp_step. split; [apply liquidation_refl|].
    intros p' Hp' Hlt. assert (p' = p) as -> by congruence.
    apply Z.leb_le in Hneed. lia. }
  destruct (Hprops pos) as [(sq & m & Hsq & Hm & Hm0) [ow How]]; [by left|].
  do 5 wp_step.
  destruct (negb (mortgaged ow) && (buildings ow =? 0)) eqn:Hcond.
  - wp_step. rewrite Hm. simpl. repeat wp_step.
    eapply wp_mono.
    + apply IH.
      * unfold seat. simpl. by rewrite length_alter.
      * intros q Hq. destruct (Hprops q) as [? [owq Howq]]; [by right|].
        split; [done|]. simpl. rewrite lookup_alter.
        case_decide; [subst q|by eauto]. rewrite Howq. by eexists.
    + intros ? g' [Hliq Hall].
      assert (liquidation i g
                (set_ownership
                   (alter (set_mortgaged true) pos
                      (ownership
                         (set_players
                            (alter (λ p0, set_money (money p0 + m) p0) i
                               (players g)) g)))
                   (set_players
                      (alter (λ p0, set_money (money p0 + m) p0) i (players g))
                      g))) as Hstep.
      { apply (liquidation_update i g (λ p0, set_money (money p0 + m) p0)
                 (set_mortgaged true)).
        - intros q. simpl. lia.
        - intros ow0. simpl. by split_and!; [done | left | done]. }
      split; [by eapply liquidation_trans|].
      intros p' Hp' Hlt q owq owq' Hin Howq Howq'.
      apply elem_of_cons in Hin as [-> | Hin].
      * left. destruct Hliq as (Hl & _).
        destruct (Hl _ _ Howq') as (ow1 & How1 & _ & _ & Hmono).
        apply Hmono. simpl in How1.
        rewrite lookup_alter_eq, How in How1. simpl in How1.
        by injection How1 as <-.
      * simpl in Hall.
        destruct (decide (q = pos)) as [-> | Hne].
        -- eapply (Hall p' Hp' Hlt pos (set_mortgaged true ow)) in Hin;
             [|by rewrite lookup_alter_eq, How | done].
           assert (owq = ow) as -> by congruence. done.
        -- eapply (Hall p' Hp' Hlt q owq); [done | | done].
           by rewrite lookup_alter_ne.
  - repeat wp_step. eapply wp_mono.
    + apply IH; [done|]. intros q Hq. apply Hprops. by right.
    + intros ? g' [Hliq Hall]. split; [done|].
      intros p' Hp' Hlt q owq owq' Hin Howq Howq'.
      apply elem_of_cons in Hin as [-> | Hin]; [|by eauto].
      assert (owq = ow) as -> by congruence.
      apply andb_false_iff in Hcond as [Hmo | Hb].
      * left. destruct Hliq as (Hl & _).
        destruct (Hl _ _ Howq') as (ow1 & How1 & _ & _ & Hmono).
        assert (ow1 = ow) as -> by congruence.
        apply Hmono. by destruct (mortgaged ow).
      * right. by apply Z.eqb_neq in Hb.
Qed.

Section Liquidation.

Variable rand : N → N.


End Liquidation.

(** ** Building *)

Lemma built_refl i reserve allowed g : built i reserve allowed g g.
Proof.
  split_and!; [apply ledger_grown_refl | apply cash_of_refl | |].
  - intros p p' Hp Hp'. assert (p' = p) as -> by congruence. lia.
  - intros pos ow ow' How How'. assert (ow' = ow) as -> by congruence. lia.
Qed.

Lemma built_weaken i reserve (allowed allowed' : Z → Prop) g g' :
  (∀ pos, allowed pos → allowed' pos) →
  built i reserve allowed g g' → built i reserve allowed' g g'.
Proof. intros Himp (? & ? & ? & Hgrow). split_and!; by eauto. Qed.

Lemma built_trans i reserve allowed g1 g2 g3 :
  built i reserve allowed g1 g2 → built i reserve allowed g2 g3 →
  built i reserve allowed g1 g3.
Proof.
  intros (Hl1 & Hc1 & Hm1 & Hg1) (Hl2 & Hc2 & Hm2 & Hg2). split_and!.
  - by eapply ledger_grown_trans.
  - by eapply cash_of_trans.
  - intros p p3 Hp Hp3.
    destruct (cash_of_lookup_fwd _ _ _ _ _ Hc1 Hp) as (p2 & Hp2 & _).
    destruct (Hm1 _ _ Hp Hp2) as [Hle1 Hres1].
    destruct (Hm2 _ _ Hp2 Hp3) as [Hle2 Hres2].
    split; [lia|]. intros Hlt.
    destruct (decide (money p3 < money p2)) as [Hlt2|Hge2]; [by auto|].
    assert (money p3 = money p2) as -> by lia. apply Hres1. lia.
  - intros pos ow ow3 How How3 Hlt.
    destruct (Hl1 _ _ How) as (ow2 & How2 & Hle & _).
    destruct (decide (buildings ow < buildings ow2)) as [Hlt1|Hge1].
    + by eapply Hg1.
    + eapply (Hg2 pos ow2 ow3); [done | done | lia].
Qed.

Lemma build_pass_built i hc reserve min_b ps :
  ∀ g improved,
    seat g i → 0 < hc →
    (∀ pos, pos ∈ ps → is_Some (ownership g !! pos)) →
    wp (build_pass i hc reserve min_b ps improved)
       (λ _ g', built i reserve (λ pos, pos ∈ ps) g g') g.
Proof.
  induction ps as [|pos ps IH]; intros g improved Hi Hhc Hps; simpl.
  { wp_step. apply built_refl. }
  destruct (Hps pos) as [ow How]; [by left|].
  assert (∀ g1 imp, seat g1 i →
            (∀ q, q ∈ ps → is_Some (ownership g1 !! q)) →
            built i reserve (λ q, q ∈ pos :: ps) g g1 →
            wp (build_pass i hc reserve min_b ps imp)
               (λ _ g', built i reserve (λ q, q ∈ pos :: ps) g g') g1) as Hrest.
  { intros g1 imp Hi1 Hps1 Hbuilt1. eapply wp_mono; [by apply IH|].
    intros ? g' Hbuilt'. eapply built_trans; [exact Hbuilt1|].
    eapply built_weaken; [|exact Hbuilt']. intros q Hq. by right. }
  repeat wp_step.
  destruct ((buildings ow =? min_b) && (buildings ow <? 5)).
  - destruct (proj1 (seat_lookup _ _) Hi) as [p Hp].
    repeat wp_step. destruct (reserve <=? money p - hc) eqn:Hafford.
    + apply Z.leb_le in Hafford. repeat wp_step. apply Hrest.
      * unfold seat. simpl. by rewrite length_alter.
      * intros q Hq. simpl. rewrite lookup_alter.
        destruct (Hps q) as [owq Howq]; [by right|].
        case_decide; [subst q|by eauto]. rewrite Howq. by eexists.
      * unfold built, ledger_grown. split_and!; simpl.
        -- intros q owq Howq. rewrite lookup_alter.
           case_decide; [subst q|].
           ++ rewrite Howq. simpl. eexists. split; [done|]. simpl.
              split_and!; [lia | done | done].
           ++ exists owq. split_and!; [done | lia | done | done].
        -- by apply (cash_of_alter _ _ _ (λ p0, money p0 - hc)).
        -- intros q q' Hq. rewrite list_lookup_alter_eq, Hq. simpl.
           intros [= <-]. simpl. assert (q = p) as -> by congruence.
           split; lia.
        -- intros q owq owq' Howq. rewrite lookup_alter.
           case_decide; [subst q; by left|].
           rewrite Howq. intros [= <-]. lia.
    + wp_step. apply built_refl.
  - apply Hrest; [done | | apply built_refl].
    intros q Hq. apply Hps. by right.
Qed.

Lemma build_while_built fuel i hc reserve ps :
  ∀ g, inv g → seat g i → 0 < hc → ps ≠ [] →
       (0 ≤ starting_money g → 0 ≤ reserve) →
       (∀ pos, pos ∈ ps → is_property pos = true ∧
               ∃ ow, ownership g !! pos = Some ow ∧ mortgaged ow = false ∧
                     5 - Z.of_nat fuel < buildings ow) →
       wp (build_while fuel i hc reserve ps)
          (λ _ g', built i reserve (λ pos, pos ∈ ps) g g') g.
Proof.
  induction fuel as [|n IH]; intros g Hinv Hi Hhc Hne Hres Hps.
  { exfalso. destruct ps as [|pos ps]; [done|].
    destruct (Hps pos) as (_ & ow & How & _ & Hb); [constructor|].
    pose proof (inv_range _ Hinv _ _ How). simpl in Hb. lia. }
  cbn [build_while]. wp_step.
  wp_apply buildings_of_spec.
  { intros pos Hpos. destruct (Hps pos Hpos) as (_ & ow & -> & _). done. }
  intros bs ? (-> & Hlen & Hbs).
  destruct (py_min_spec bs) as (m & Hm & Hmin & Hle).
  { intros ->. destruct ps; [done|]. simpl in Hlen. lia. }
  repeat wp_step. destruct (5 <=? m) eqn:Hfive.
  { wp_step. apply built_refl. }
  apply Z.leb_gt in Hfive. wp_step.
  eapply wp_mono.
  { apply wp_and.
    - apply (build_pass_spec i hc reserve m ps g false); try done.
      intros pos Hpos. destruct (Hps pos Hpos) as (Hisp & ow & How & Hmort & _).
      split; [done|]. exists ow. split_and!; [done | done |].
      apply Hle, Hbs. eauto.
    - apply (build_pass_built i hc reserve m ps g false); [done | done |].
      intros pos Hpos. destruct (Hps pos Hpos) as (_ & ow & -> & _). done. }
  intros r g' [(Hinv' & Hfr' & Hgr' & Hall) Hbuilt'].
  destruct r; [|by wp_step].
  eapply wp_mono.
  { apply IH; [done | by eapply seat_frame | done | done | | ].
    - by rewrite (fr_start _ _ Hfr').
    - intros pos Hpos. destruct (Hps pos Hpos) as (Hisp & ow & How & Hmort & Hb).
      split; [done|]. destruct (Hgr' _ _ How) as (ow' & How' & _ & Hmort' & _).
      exists ow'. split_and!; [done | congruence |].
      specialize (Hall eq_refl _ _ Hpos How').
      apply Hbs in Hmin as (q & owq & Hq & Howq & Hbq).
      destruct (Hps q Hq) as (_ & owq' & Howq' & _ & Hbq').
      assert (owq' = owq) as -> by congruence. lia. }
  intros ? g'' Hbuilt''. by eapply built_trans.
Qed.

Lemma all_owned_b_grown g g1 pid ps :
  ledger_grown g g1 →
  (∀ pos, pos ∈ ps → is_Some (ownership g !! pos)) →
  all_owned_b g1 pid ps = all_owned_b g pid ps.
Proof.
  intros Hgr Hps. unfold all_owned_b.
  induction ps as [|pos ps IH]; [done|]. simpl.
  rewrite IH by (intros; apply Hps; by right). f_equal.
  unfold owned_by. destruct (Hps pos) as [ow How]; [by left|].
  destruct (Hgr _ _ How) as (ow1 & -> & _ & Hmo & Ho). rewrite How.
  unfold owned_unmortgaged. by rewrite Hmo, Ho.
Qed.

Lemma build_groups_built i reserve groups :
  ∀ g, inv g → seat g i → (0 ≤ starting_money g → 0 ≤ reserve) →
       wp (build_groups i reserve groups)
          (λ _ g', built i reserve
                     (λ pos, ∃ grp, pos ∈ positions (GROUPS grp) ∧
                        all_owned_b g i (positions (GROUPS grp)) = true)
                     g g') g.
Proof.
  induction groups as [|grp groups IH]; intros g Hinv Hi Hres; simpl.
  { wp_step. apply built_refl. }
  destruct (proj1 (seat_lookup _ _) Hi) as [p Hp].
  wp_step. wp_apply owns_group_spec; [done | done |].
  intros full ? [-> ->]. wp_step.
  assert (wp (if all_owned_b g i (positions (GROUPS grp))
              then build_while build_fuel i (house_cost (GROUPS grp)) reserve
                     (positions (GROUPS grp))
              else ret tt)
             (λ _ g1, (inv g1 ∧ frame g g1) ∧
                built i reserve
                  (λ pos, ∃ grp, pos ∈ positions (GROUPS grp) ∧
                     all_owned_b g i (positions (GROUPS grp)) = true) g g1)
             g) as Hgroup.
  { destruct (all_owned_b g i (positions (GROUPS grp))) eqn:Hfull.
    - destruct (group_facts grp) as [Hne Hhc].
      assert (∀ pos, pos ∈ positions (GROUPS grp) →
                is_property pos = true ∧
                ∃ ow, ownership g !! pos = Some ow ∧ mortgaged ow = false ∧
                      5 - Z.of_nat build_fuel < buildings ow) as Hps.
      { intros pos Hpos. split; [by eapply group_purchasable|].
        destruct (all_owned_b_true _ _ _ _ Hfull Hpos) as (ow & How & _ & Hmort).
        exists ow. split_and!; [done | done |].
        pose proof (inv_range _ Hinv _ _ How). unfold build_fuel. lia. }
      eapply wp_mono.
      { apply wp_and.
        - by apply (build_while_spec build_fuel i (house_cost (GROUPS grp))
                      reserve (positions (GROUPS grp)) g).
        - by apply (build_while_built build_fuel i (house_cost (GROUPS grp))
                      reserve (positions (GROUPS grp)) g). }
      intros ? g1 [Hkeeps Hbuilt]. split; [exact Hkeeps|].
      eapply built_weaken; [|exact Hbuilt]. intros pos Hpos. by exists grp.
    - wp_step. split; [split; [done | apply frame_refl] | apply built_refl]. }
  eapply wp_mono; [exact Hgroup|]. cbv beta.
  intros ? g1 [[Hinv1 Hfr1] Hbuilt1].
  eapply wp_mono.
  { apply IH; [done | by eapply seat_frame | by rewrite (fr_start _ _ Hfr1)]. }
  intros ? g2 Hbuilt2. eapply built_trans; [exact Hbuilt1|].
  eapply built_weaken; [|exact Hbuilt2].
  intros pos (grp' & Hpos & Hfull). exists grp'. split; [done|].
  rewrite <- Hfull. symmetry. apply all_owned_b_grown.
  - by destruct Hbuilt1.
  - intros q Hq. by eapply group_in_ledger.
Qed.

Section Building.

Variable rand : N → N.


End Building.

(** * The lemmas at work on the example games *)

Lemma station_stop_reachable : reachable rand_two_utilities station_stop.
Proof.
  eapply (reach_move_steps _ example_start 0 5 tt).
  - apply example_start_reachable.
  - unfold seat. vm_compute. lia.
  - vm_compute. reflexivity.
Qed.

Lemma station_game_reachable : reachable rand_two_utilities station_game.
Proof.
  eapply (reach_apply_square _ station_stop 2 0 5 tt).
  - apply station_stop_reachable.
  - unfold seat. vm_compute. lia.
  - done.
  - lia.
  - vm_compute. reflexivity.
Qed.

Lemma example_seat_0 :
  players example_game !! 0%nat = Some (seat_of example_game 0).
Proof. vm_compute. reflexivity. Qed.

Lemma example_seat_1 :
  players example_game !! 1%nat = Some (seat_of example_game 1).
Proof. vm_compute. reflexivity. Qed.

(** From square 12 a move of 30 squares wraps past the start square to
    square 2 and is paid the bonus. *)
Lemma move_steps_bonus_witness :
  players example_game !! 0%nat = Some (seat_of example_game 0) ∧
  ∃ g' p', _move_steps 0 30 example_game = Ok (tt, g') ∧
           players g' !! 0%nat = Some p' ∧
           position p' = 2 ∧ money p' = 19500.
Proof.
  split; [exact example_seat_0|].
  destruct (move_steps_bonus rand_two_utilities example_game 0 _ 30
              example_game_reachable example_seat_0)
    as (_ & g' & p' & Hrun & Hp' & Hpos & Hmoney & _).
  exists g', p'. split; [exact Hrun|]. split; [exact Hp'|]. split.
  - rewrite Hpos. vm_compute. reflexivity.
  - rewrite Hmoney. vm_compute. reflexivity.
Defined.

(** Square 3 belongs to the first player, who does not hold the other
    yellow square: the rent is the base rent. *)
Lemma property_rent_witness :
  _rent 3 7 false example_game = Ok (1000, example_game).
Proof.
  destruct (property_rent rand_two_utilities example_game 3 yellow 3000 1000
              [1000; 2000; 4000; 6000; 8000; 10000]
              (record_of example_game 3) 0 7 false example_game_reachable)
    as (base & Hbase & _ & Hrun); [vm_compute; reflexivity ..|].
  rewrite Hrun. vm_compute in Hbase. injection Hbase as <-.
  vm_compute. reflexivity.
Defined.

(** The first player holds one station and is visited through the
    "nearest station" card: twice 3,000. *)
Lemma station_rent_doubles_witness :
  _rent 5 7 true station_game = Ok (6000, station_game).
Proof.
  destruct (station_rent_doubles rand_two_utilities station_game 5
              (record_of station_game 5) 0 7 true station_game_reachable)
    as [_ Hrun]; [by left | vm_compute; reflexivity ..|].
  rewrite Hrun. vm_compute. reflexivity.
Defined.

(** Square 4 is mortgaged: no rent. *)
Lemma rent_zero_iff_witness :
  _rent 4 7 false example_game = Ok (0, example_game).
Proof.
  destruct (rent_zero_iff rand_two_utilities example_game 4
              (record_of example_game 4) 7 false example_game_reachable)
    as (r & Hrun & _ & Hiff); [vm_compute; reflexivity | lia |].
  rewrite Hrun. do 2 f_equal. apply Hiff. right. vm_compute. reflexivity.
Defined.


(** The first player pays 1,000 to the second. *)
Lemma charge_from_cash_witness :
  ∃ g', _charge 0 1000 (Some 1%nat) example_game = Ok (true, g') ∧
        total_cash g' = total_cash example_game.
Proof.
  destruct (charge_from_cash rand_two_utilities example_game 0 1
              (seat_of example_game 0) (seat_of example_game 1) 1000
              example_game_reachable example_seat_0 example_seat_1)
    as (g' & Hrun & _ & _ & _ & _ & Htotal);
    [lia | vm_compute; reflexivity | vm_compute; discriminate |].
  exists g'. split; [exact Hrun | exact Htotal].
Defined.




Lemma net_worth_at_least_cash_witness :
  ∃ w, net_worth 0 example_game = Ok (w, example_game) ∧
       money (seat_of example_game 0) ≤ w.
Proof.
  exact (net_worth_at_least_cash rand_two_utilities example_game 0 _
           example_game_reachable example_seat_0).
Defined.

Lemma ledger_matches_property_lists_witness :
  3 ∈ properties (seat_of example_game 0) ↔
  ∃ ow, ownership example_game !! 3 = Some ow ∧ owner ow = Some 0%nat.
Proof.
  exact (ledger_matches_property_lists rand_two_utilities example_game 0 _ 3
           example_game_reachable example_seat_0).
Defined.

Lemma ledger_shape_is_kept_witness :
  (is_Some (ownership example_game !! 3) ↔ purchasable 3 = true) ∧
  (∀ ow, ownership example_game !! 3 = Some ow → 0 ≤ buildings ow ≤ 5).
Proof.
  exact (ledger_shape_is_kept rand_two_utilities example_game 3
           example_game_reachable).
Defined.


Lemma credit_records_witness :
  ∃ g', _credit 0 500 src_bank example_game = Ok (tt, g') ∧
        players g' =
        alter (set_money (money (seat_of example_game 0) + 500)) 0%nat
              (players example_game).
Proof.
  destruct (credit_records rand_two_utilities example_game 0 _ 500 src_bank
              example_game_reachable example_seat_0)
    as (g' & pk & go & Hrun & Hpl & _).
  exists g'. split; [exact Hrun | exact Hpl].
Defined.


